(** * use-query-params: the [useQueryParams] hook

    A shallow embedding of [src/useQueryParams.ts].  The hook keeps four
    React ref cells (the last parsed query, the last param config map and
    the last encoded / decoded value maps), recomputes decoded values only
    for the parameters whose raw value changed, and hands out a setter.

    JavaScript objects live in an explicit heap, so that reference identity
    ([===], [Object.is]) is equality of heap locations.  Everything the hook
    does runs in a small state-and-exception monad over that heap, the
    current location, the parser's memo table and the ref cells. *)

From Stdlib Require Import ZArith DecimalString.
From stdpp Require Import base option list gmap strings pretty.

Set Default Proof Using "Type".

(** ** Values and the heap *)

Abbreviation loc := nat.

(** A JavaScript value.  Objects and arrays are references into the heap;
    a codec object [{encode, decode}] is an opaque reference [VCodec c]
    whose behaviour is looked up in the codec registry. *)
Inductive value : Type :=
| VUndefined
| VNull
| VBool (b : bool)
| VNum (n : Z)
| VStr (s : string)
| VObj (l : loc)
| VCodec (c : nat).

#[global] Instance value_eq_dec : EqDecision value.
Proof. solve_decision. Defined.

(** An object is a finite map from property names to values; an array is
    the object whose keys are its indices. *)
Abbreviation object := (gmap string value).
Abbreviation heap_t := (list (gmap string value)).

Definition array_object (vs : list value) : object :=
  list_to_map (imap (fun i v => (pretty i, v)) vs).

(** [o[k]] on an object: [undefined] when the key is absent. *)
Definition field (o : object) (k : string) : value :=
  default VUndefined (o !! k).

(** [ref[k]] through a reference. *)
Definition prop (h : heap_t) (l : loc) (k : string) : value :=
  match h !! l with
  | Some o => field o k
  | None => VUndefined
  end.

(** [Object.keys(o)].  The enumeration order of the finite map stands for
    JavaScript's insertion order; only the order of codec calls depends
    on it. *)
Definition Object_keys (o : object) : list string := (map_to_list o).*1.

Definition keys_of (h : heap_t) (l : loc) : list string :=
  match h !! l with
  | Some o => Object_keys o
  | None => []
  end.

(** ** Collaborators *)

(** What a caller-supplied function (a codec's [decode] / [encode], or the
    function given to the setter) can do: return an existing value, return
    a freshly allocated object, or throw.  It may read the heap; it cannot
    write to it (codec contract: pure and synchronous). *)
Inductive outcome : Type :=
| Returns (v : value)
| ReturnsNew (o : gmap string value)
| Throws (e : value).

Record codec : Type := Codec {
  decode : list (gmap string value) -> value -> outcome;
  encode : list (gmap string value) -> value -> outcome }.

(** A raw encoded value as the query-string parser produces it. *)
Inductive raw : Type :=
| RawNull
| RawStr (s : string)
| RawArr (xs : list (option string)).

Inductive UrlUpdateType : Type := replace | replaceIn | push | pushIn.

(** ** Shallow equality *)

(** [Object.is] on the values of this model. *)
Definition Object_is (x y : value) : bool := bool_decide (x = y).

(** Modelled from the spec: [shallowEqual] of [./shallowEqual] is not in
    the sources.  Equal by reference or primitive equality, or two objects
    with the same set of keys whose values are pairwise equal by reference
    or primitive equality (one level deep); absent and undefined are
    ordinary values. *)
Definition shallowEqual (h : heap_t) (objA objB : value) : bool :=
  if Object_is objA objB then true
  else
    match objA, objB with
    | VObj la, VObj lb =>
        match h !! la, h !! lb with
        | Some oa, Some ob =>
            bool_decide (dom oa = dom ob)
            && forallb (fun k => Object_is (field oa k) (field ob k)) (Object_keys oa)
        | _, _ => false
        end
    | _, _ => false
    end.

(** ** State *)

(** The hook instance's ref cells.  [previousParamConfigMap] is the cell
    inside [usePreviousIfShallowEqual]; the other four are the [useRef]
    cells of [useQueryParams].  [encodedValuesCacheRef] starts out
    [undefined] ([None]). *)
Record refs : Type := Refs {
  mounted : bool;
  previousParamConfigMap : loc;
  paramConfigMapRef : loc;
  parsedQueryRef : loc;
  encodedValuesCacheRef : option loc;
  decodedValuesCacheRef : loc }.

Record state : Type := State {
  heap : list (gmap string value);
  (** [getSSRSafeSearchString(getLocation())] *)
  search : string;
  (** memo table of [sharedMemoizedQueryParser] *)
  parserCache : gmap string loc;
  (** trace of [paramConfig.decode(encodedValue)] calls, oldest first *)
  decodeCalls : list (string * value);
  (** trace of [setLocation(encodedChanges, updateType)] calls *)
  locationUpdates : list (value * option UrlUpdateType);
  cells : refs }.

Definition with_heap (h : heap_t) (s : state) : state :=
  State h (search s) (parserCache s) (decodeCalls s) (locationUpdates s) (cells s).
Definition with_search (q : string) (s : state) : state :=
  State (heap s) q (parserCache s) (decodeCalls s) (locationUpdates s) (cells s).
Definition with_parserCache (c : gmap string loc) (s : state) : state :=
  State (heap s) (search s) c (decodeCalls s) (locationUpdates s) (cells s).
Definition with_decodeCalls (t : list (string * value)) (s : state) : state :=
  State (heap s) (search s) (parserCache s) t (locationUpdates s) (cells s).
Definition with_locationUpdates (t : list (value * option UrlUpdateType))
    (s : state) : state :=
  State (heap s) (search s) (parserCache s) (decodeCalls s) t (cells s).
Definition with_cells (r : refs) (s : state) : state :=
  State (heap s) (search s) (parserCache s) (decodeCalls s) (locationUpdates s) r.

(** ** The monad: state plus exceptions *)

Inductive result (A : Type) : Type :=
| Ok (a : A)
| Throw (e : value).
Arguments Ok {A} a.
Arguments Throw {A} e.

Definition M (A : Type) : Type := state -> result A * state.

Definition ret {A} (a : A) : M A := fun s => (Ok a, s).

Definition bind {A B} (m : M A) (f : A -> M B) : M B :=
  fun s =>
    match m s with
    | (Ok a, s') => f a s'
    | (Throw e, s') => (Throw e, s')
    end.

Definition throw {A} (e : value) : M A := fun s => (Throw e, s).

Definition gets {A} (f : state -> A) : M A := fun s => (Ok (f s), s).

Definition modify (f : state -> state) : M unit := fun s => (Ok tt, f s).

Notation "'let*' x ':=' m 'in' k" := (bind m (fun x => k))
  (at level 10, x name, m at level 100, k at level 200).
Notation "'let*' ' pat ':=' m 'in' k" :=
  (bind m (fun x => match x with pat => k end))
  (at level 10, pat pattern, m at level 100, k at level 200).
Notation "m ;;; k" := (bind m (fun _ => k))
  (at level 100, k at level 200, right associativity).

Fixpoint for_of {A} (xs : list A) (body : A -> M unit) : M unit :=
  match xs with
  | [] => ret tt
  | x :: xs' => body x ;;; for_of xs' body
  end.

(** ** Heap operations *)

(** An object literal: a new object at the next free location. *)
Definition new_object (o : object) : M loc :=
  fun s => (Ok (length (heap s)), with_heap (heap s ++ [o]) s).

(** [ref[k] = v] *)
Definition set_prop (l : loc) (k : string) (v : value) : M unit :=
  modify (fun s => with_heap (alter (fun o => <[k := v]> o) l (heap s)) s).

(** [ref[k]] *)
Definition get_prop (l : loc) (k : string) : M value :=
  gets (fun s => prop (heap s) l k).

(** Running a caller-supplied function to completion. *)
Definition call (r : outcome) : M value :=
  match r with
  | Returns v => ret v
  | ReturnsNew o => let* l := new_object o in ret (VObj l)
  | Throws e => throw e
  end.

Definition TypeError : value := VStr "TypeError".

(** ** The hook *)

Section Hook.

(** The query-string parser proper ([parseQueryString]) and the codec
    registry are supplied by the host. *)
Variable parseQueryString : string -> gmap string raw.
Variable codecs : nat -> option codec.

(** *** Location and parser *)

(** [getSSRSafeSearchString(getLocation())] *)
Definition getLocationSearch : M string := gets search.

Definition raw_value (r : raw) : M value :=
  match r with
  | RawNull => ret VNull
  | RawStr x => ret (VStr x)
  | RawArr xs =>
      let* l := new_object (array_object (from_option VStr VNull <$> xs)) in
      ret (VObj l)
  end.

Fixpoint build_query (kvs : list (string * raw)) (acc : object) : M object :=
  match kvs with
  | [] => ret acc
  | (k, r) :: rest =>
      let* v := raw_value r in
      build_query rest (<[k := v]> acc)
  end.

(** Modelled from the spec: [sharedMemoizedQueryParser] of
    [./memoizedQueryParser] is not in the sources.  [parse(rawSearchString)]
    is memoized such that calling it twice with the same string value
    returns a value that can be compared by reference. *)
Definition sharedMemoizedQueryParser (searchString : string) : M loc :=
  let* cache := gets parserCache in
  match cache !! searchString with
  | Some l => ret l
  | None =>
      let* o := build_query (map_to_list (parseQueryString searchString)) ∅ in
      let* l := new_object o in
      modify (fun s => with_parserCache (<[searchString := l]> (parserCache s)) s) ;;;
      ret l
  end.

(** *** getLatestDecodedValues *)

(** [paramConfig.decode(encodedValue)]; the call is recorded in the
    trace before the codec runs. *)
Definition decode_param (paramName : string) (paramConfig encodedValue : value)
    : M value :=
  match paramConfig with
  | VCodec c =>
      match codecs c with
      | Some cd =>
          modify (fun s =>
            with_decodeCalls (decodeCalls s ++ [(paramName, encodedValue)]) s) ;;;
          let* h := gets heap in
          call (decode cd h encodedValue)
      | None => throw TypeError
      end
  | _ => throw TypeError
  end.

(** [cache || {}] *)
Definition or_empty (current : option loc) : M loc :=
  match current with
  | Some l => ret l
  | None => new_object ∅
  end.

(** The body of the [for (const paramName of paramNames)] loop. *)
Definition decode_step
    (paramConfigMap parsedQuery encodedValuesCache decodedValuesCache
     encodedValues decodedValues : loc) (paramName : string) : M unit :=
  let* paramConfig := get_prop paramConfigMap paramName in
  let* cached := get_prop encodedValuesCache paramName in
  let* latest := get_prop parsedQuery paramName in
  let* h := gets heap in
  let hasNewEncodedValue := negb (shallowEqual h cached latest) in
  let* ' (encodedValue, decodedValue) :=
    (if hasNewEncodedValue then
       let* encodedValue := get_prop parsedQuery paramName in
       let* decodedValue := decode_param paramName paramConfig encodedValue in
       ret (encodedValue, decodedValue)
     else
       let* encodedValue := get_prop encodedValuesCache paramName in
       let* decodedValue := get_prop decodedValuesCache paramName in
       ret (encodedValue, decodedValue)) in
  set_prop encodedValues paramName encodedValue ;;;
  set_prop decodedValues paramName decodedValue.

(** [getLatestDecodedValues()], a closure over the (memoized)
    [paramConfigMap] of the render that created it.  Returns
    [(encodedValues, decodedValues)]. *)
Definition getLatestDecodedValues (paramConfigMap : loc) : M (loc * loc) :=
  (* check if we have a new param config *)
  let* configRef := gets (fun s => paramConfigMapRef (cells s)) in
  let* h := gets heap in
  let hasNewParamConfigMap :=
    negb (shallowEqual h (VObj configRef) (VObj paramConfigMap)) in
  (* read in the parsed query *)
  let* q := getLocationSearch in
  let* parsedQuery := sharedMemoizedQueryParser q in
  (* can use triple equals since we already cache this value *)
  let* queryRef := gets (fun s => parsedQueryRef (cells s)) in
  let hasNewParsedQuery := negb (bool_decide (queryRef = parsedQuery)) in
  let* encodedCurrent := gets (fun s => encodedValuesCacheRef (cells s)) in
  let* decodedCurrent := gets (fun s => decodedValuesCacheRef (cells s)) in
  (* if nothing has changed, use existing.. so long as we have existing. *)
  match negb hasNewParsedQuery && negb hasNewParamConfigMap, encodedCurrent with
  | true, Some encodedCached => ret (encodedCached, decodedCurrent)
  | _, _ =>
      let* encodedValuesCache := or_empty encodedCurrent in
      let* decodedValuesCache := or_empty (Some decodedCurrent) in
      let* encodedValues := new_object ∅ in
      (* recompute new values but only for those that changed *)
      let* paramNames := gets (fun s => keys_of (heap s) paramConfigMap) in
      let* decodedValues := new_object ∅ in
      for_of paramNames
        (decode_step paramConfigMap parsedQuery encodedValuesCache
           decodedValuesCache encodedValues decodedValues) ;;;
      (* keep referential equality for decoded values if nothing changed *)
      let* decodedNow := gets (fun s => decodedValuesCacheRef (cells s)) in
      let* h' := gets heap in
      let hasNewDecodedValues :=
        negb (shallowEqual h' (VObj decodedNow) (VObj decodedValues)) in
      ret (encodedValues,
           if hasNewDecodedValues then decodedValues else decodedNow)
  end.

(** *** The render and its deferred effects *)

(** What one evaluation hands to React: the values it returns and the
    values its effects will store once the render is committed. *)
Record rendered : Type := Rendered {
  r_parsedQuery : loc;
  r_paramConfigMap : loc;
  r_encodedValues : loc;
  r_decodedValues : loc }.

(** [React.useRef(initial)] for the five cells: the first render creates
    them from the initial values, later renders find them as they are.
    The instance counts as mounted once its first render is committed. *)
Definition useRef_cells (paramConfigMap parsedQuery : loc) : M unit :=
  let* m := gets (fun s => mounted (cells s)) in
  if (m : bool) then ret tt
  else
    let* empty := new_object ∅ in
    modify (with_cells
      (Refs false paramConfigMap paramConfigMap parsedQuery None empty)).

(** Modelled from the spec: [usePreviousIfShallowEqual] of [./helpers] is
    not in the sources.  The param config map is memoized: a new map that
    is shallow-equal to the previous one is replaced by the previous one. *)
Definition usePreviousIfShallowEqual (v : loc) : M loc :=
  let* previous := gets (fun s => previousParamConfigMap (cells s)) in
  let* h := gets heap in
  ret (if shallowEqual h (VObj previous) (VObj v) then previous else v).

(** The render phase of [useQueryParams(paramConfigMap)]. *)
Definition useQueryParams (paramConfigMap : loc) : M rendered :=
  (* read in the raw query *)
  let* q := getLocationSearch in
  let* parsedQuery := sharedMemoizedQueryParser q in
  (* make caches *)
  useRef_cells paramConfigMap parsedQuery ;;;
  (* memoize paramConfigMap to make the API nicer for consumers *)
  let* paramConfigMap := usePreviousIfShallowEqual paramConfigMap in
  (* decode all the values if we have changes *)
  let* ' (encodedValues, decodedValues) := getLatestDecodedValues paramConfigMap in
  ret (Rendered parsedQuery paramConfigMap encodedValues decodedValues).

(** Modelled from the spec: [useUpdateRefIfShallowNew] of [./helpers] is
    not in the sources.  The write is deferred to the commit and happens
    only when the new value is not already reference-equal to the cached
    one. *)
Definition useUpdateRefIfShallowNew {A} `{EqDecision A}
    (current : refs -> A) (assign : A -> refs -> refs) (newValue : A) : M unit :=
  let* cur := gets (fun s => current (cells s)) in
  if decide (cur = newValue) then ret tt
  else modify (fun s => with_cells (assign newValue (cells s)) s).

Definition set_mounted (b : bool) (r : refs) : refs :=
  Refs b (previousParamConfigMap r) (paramConfigMapRef r) (parsedQueryRef r)
    (encodedValuesCacheRef r) (decodedValuesCacheRef r).
Definition set_previousParamConfigMap (l : loc) (r : refs) : refs :=
  Refs (mounted r) l (paramConfigMapRef r) (parsedQueryRef r)
    (encodedValuesCacheRef r) (decodedValuesCacheRef r).
Definition set_paramConfigMapRef (l : loc) (r : refs) : refs :=
  Refs (mounted r) (previousParamConfigMap r) l (parsedQueryRef r)
    (encodedValuesCacheRef r) (decodedValuesCacheRef r).
Definition set_parsedQueryRef (l : loc) (r : refs) : refs :=
  Refs (mounted r) (previousParamConfigMap r) (paramConfigMapRef r) l
    (encodedValuesCacheRef r) (decodedValuesCacheRef r).
Definition set_encodedValuesCacheRef (l : option loc) (r : refs) : refs :=
  Refs (mounted r) (previousParamConfigMap r) (paramConfigMapRef r)
    (parsedQueryRef r) l (decodedValuesCacheRef r).
Definition set_decodedValuesCacheRef (l : loc) (r : refs) : refs :=
  Refs (mounted r) (previousParamConfigMap r) (paramConfigMapRef r)
    (parsedQueryRef r) (encodedValuesCacheRef r) l.

(** The effects of a committed render, in the order the hooks were called:
    the cell of [usePreviousIfShallowEqual], then the four cache cells. *)
Definition commit (r : rendered) : M unit :=
  modify (fun s => with_cells (set_mounted true (cells s)) s) ;;;
  useUpdateRefIfShallowNew previousParamConfigMap set_previousParamConfigMap
    (r_paramConfigMap r) ;;;
  useUpdateRefIfShallowNew parsedQueryRef set_parsedQueryRef (r_parsedQuery r) ;;;
  useUpdateRefIfShallowNew paramConfigMapRef set_paramConfigMapRef
    (r_paramConfigMap r) ;;;
  useUpdateRefIfShallowNew encodedValuesCacheRef set_encodedValuesCacheRef
    (Some (r_encodedValues r)) ;;;
  useUpdateRefIfShallowNew decodedValuesCacheRef set_decodedValuesCacheRef
    (r_decodedValues r).

(** One accepted evaluation: render, then commit. *)
Definition evaluate (paramConfigMap : loc) : M rendered :=
  let* r := useQueryParams paramConfigMap in
  commit r ;;;
  ret r.

(** *** The setter *)

(** [changes]: a partial mapping of decoded values, or a function of the
    latest decoded values. *)
Inductive changes_t : Type :=
| ChangesObject (l : loc)
| ChangesFunction (f : list (gmap string value) -> value -> outcome).

(** [paramConfigMap[paramName].encode(v)] *)
Definition encode_param (paramConfig v : value) : M value :=
  match paramConfig with
  | VCodec c =>
      match codecs c with
      | Some cd =>
          let* h := gets heap in
          call (encode cd h v)
      | None => throw TypeError
      end
  | _ => throw TypeError
  end.

(** Modelled from the spec: [encodeQueryParams] of [serialize-query-params]
    is not in the sources.  Every entry of [query] is encoded through the
    corresponding parameter's codec [encode]; an entry with no codec in the
    map has nothing to be encoded with and fails. *)
Definition encodeQueryParams (paramConfigMap query : loc) : M loc :=
  let* encodedQuery := new_object ∅ in
  let* paramNames := gets (fun s => keys_of (heap s) query) in
  for_of paramNames (fun paramName =>
    let* decodedValue := get_prop query paramName in
    let* paramConfig := get_prop paramConfigMap paramName in
    let* encodedValue := encode_param paramConfig decodedValue in
    set_prop encodedQuery paramName encodedValue) ;;;
  ret encodedQuery.

(** [setLocation(encodedChanges, updateType)]: the location provider is
    out of scope; the call is recorded. *)
Definition setLocation (encodedChanges : value) (updateType : option UrlUpdateType)
    : M unit :=
  modify (fun s =>
    with_locationUpdates (locationUpdates s ++ [(encodedChanges, updateType)]) s).

(** [setQuery(changes, updateType)], the closure created by a render
    whose memoized param config map was [paramConfigMap]. *)
Definition setQuery (paramConfigMap : loc) (changes : changes_t)
    (updateType : option UrlUpdateType) : M unit :=
  let* encodedChanges :=
    match changes with
    | ChangesFunction f =>
        (* get latest decoded value to pass as a fresh arg to the setter fn *)
        let* ' (_, latestValues) := getLatestDecodedValues paramConfigMap in
        (* keep cache in sync *)
        modify (fun s =>
          with_cells (set_decodedValuesCacheRef latestValues (cells s)) s) ;;;
        let* h := gets heap in
        call (f h (VObj latestValues))
    | ChangesObject query =>
        (* encode as strings for the URL *)
        let* l := encodeQueryParams paramConfigMap query in
        ret (VObj l)
    end in
  (* update the URL *)
  setLocation encodedChanges updateType.

End Hook.

(** ** Well-formed states and the protocol of the hook's host *)

(** Heap growth: every object that exists keeps its contents. *)
Definition extends (h h' : heap_t) : Prop :=
  forall l o, h !! l = Some o -> h' !! l = Some o.

Definition valid_value (h : heap_t) (v : value) : Prop :=
  match v with
  | VObj l => is_Some (h !! l)
  | _ => True
  end.

(** An object all of whose references point into the heap. *)
Definition closed (h : heap_t) (o : object) : Prop :=
  forall k v, o !! k = Some v -> valid_value h v.

Definition closed_at (h : heap_t) (l : loc) : Prop :=
  exists o, h !! l = Some o /\ closed h o.

(** The raw encoded value the cache holds for a parameter. *)
Definition cached_raw (h : heap_t) (r : refs) (k : string) : value :=
  match encodedValuesCacheRef r with
  | Some le => prop h le k
  | None => VUndefined
  end.

(** What [getLatestDecodedValues] needs of the cells it reads. *)
Record cells_ok (s : state) : Prop := CellsOk {
  ok_parser : forall q l, parserCache s !! q = Some l -> closed_at (heap s) l;
  ok_config : is_Some (heap s !! paramConfigMapRef (cells s));
  ok_decoded : is_Some (heap s !! decodedValuesCacheRef (cells s));
  ok_encoded : forall le, encodedValuesCacheRef (cells s) = Some le ->
               closed_at (heap s) le }.

(** *** The decoding loop, as a relation *)

(** Whether the loop re-decodes [k]: its raw value in the parsed query
    [pq] is not shallow-equal to the one in the encoded cache [ec]. *)
Definition changed (h : heap_t) (ec pq : loc) (k : string) : bool :=
  negb (shallowEqual h (prop h ec k) (prop h pq k)).

(** A recorded codec call that returned normally. *)
Definition call_ok (codecs : nat -> option codec) (om : object)
    (k : string) (v : value) : Prop :=
  exists c cd h, field om k = VCodec c /\ codecs c = Some cd /\
                 forall e, decode cd h v <> Throws e.

(** A recorded codec call that threw [e]. *)
Definition call_threw (codecs : nat -> option codec) (om : object)
    (k : string) (v e : value) : Prop :=
  exists c cd h, field om k = VCodec c /\ codecs c = Some cd /\
                 decode cd h v = Throws e.

(** What the two maps under construction hold for a processed key. *)
Definition key_fact (h : heap_t) (ec dc pq : loc) (oe od : object)
    (L : list (string * value)) (k : string) : Prop :=
  if changed h ec pq k
  then oe !! k = Some (prop h pq k) /\ (k, prop h pq k) ∈ L /\ is_Some (od !! k)
  else oe !! k = Some (prop h ec k) /\ od !! k = Some (prop h dc k) /\ k ∉ L.*1.

(** The state [t] differs from [s0] by heap growth and by the calls [L]
    appended to the codec trace. *)
Record evolved (hb : heap_t) (s0 : state) (L : list (string * value))
    (t : state) : Prop := Evolved {
  ev_cells : cells t = cells s0;
  ev_search : search t = search s0;
  ev_updates : locationUpdates t = locationUpdates s0;
  ev_parser : parserCache t = parserCache s0;
  ev_heap : extends hb (heap t);
  ev_calls : decodeCalls t = decodeCalls s0 ++ L }.

Record loop_inv (codecs : nat -> option codec) (hb : heap_t) (om : object)
    (ec dc pq enc dec : loc) (s0 : state) (done : list string)
    (oe od : object) (L : list (string * value)) (t : state) : Prop := LoopInv {
  li_evolved : evolved hb s0 L t;
  li_enc : heap t !! enc = Some oe;
  li_dec : heap t !! dec = Some od;
  li_dom_enc : forall k, is_Some (oe !! k) <-> k ∈ done;
  li_dom_dec : forall k, is_Some (od !! k) <-> k ∈ done;
  li_keys : forall k, k ∈ done -> key_fact hb ec dc pq oe od L k;
  li_calls : forall k v, (k, v) ∈ L ->
      k ∈ done /\ changed hb ec pq k = true /\ v = prop hb pq k /\
      call_ok codecs om k v }.

(** Every recorded call is for one of [names], for a raw value that
    changed, and received that raw value as it is. *)
Definition calls_within (h : heap_t) (ec pq : loc) (names : list string)
    (L : list (string * value)) : Prop :=
  forall k v, (k, v) ∈ L ->
    k ∈ names /\ changed h ec pq k = true /\ v = prop h pq k.

(** How a throwing loop ended: a codec threw, or the config entry was no
    codec at all. *)
Definition loop_failed (codecs : nat -> option codec) (hb : heap_t)
    (om : object) (ec pq : loc) (L : list (string * value)) (e : value) : Prop :=
  (exists L' k, L = L' ++ [(k, prop hb pq k)] /\ changed hb ec pq k = true /\
                call_threw codecs om k (prop hb pq k) e)
  \/ (e = TypeError /\
      exists k, changed hb ec pq k = true /\
        forall c cd, field om k = VCodec c -> codecs c = Some cd -> False).

(** The recompute path of [getLatestDecodedValues] (everything after the
    early return), named so that it can be specified on its own: first the
    two [cache || {}] reads, then the construction of the two maps. *)
Definition build_maps (codecs : nat -> option codec)
    (paramConfigMap parsedQuery encodedValuesCache decodedValuesCache : loc)
    : M (loc * loc) :=
  let* encodedValues := new_object ∅ in
  let* paramNames := gets (fun s => keys_of (heap s) paramConfigMap) in
  let* decodedValues := new_object ∅ in
  for_of paramNames
    (decode_step codecs paramConfigMap parsedQuery encodedValuesCache
       decodedValuesCache encodedValues decodedValues) ;;;
  let* decodedNow := gets (fun s => decodedValuesCacheRef (cells s)) in
  let* h' := gets heap in
  let hasNewDecodedValues :=
    negb (shallowEqual h' (VObj decodedNow) (VObj decodedValues)) in
  ret (encodedValues,
       if hasNewDecodedValues then decodedValues else decodedNow).

Definition recompute (codecs : nat -> option codec)
    (paramConfigMap parsedQuery : loc) : M (loc * loc) :=
  let* encodedCurrent := gets (fun s => encodedValuesCacheRef (cells s)) in
  let* decodedCurrent := gets (fun s => decodedValuesCacheRef (cells s)) in
  let* encodedValuesCache := or_empty encodedCurrent in
  let* decodedValuesCache := or_empty (Some decodedCurrent) in
  build_maps codecs paramConfigMap parsedQuery encodedValuesCache
    decodedValuesCache.

(** Whether an evaluation in state [s] re-decodes parameter [k] when the
    parsed query is [pq]. *)
Definition needs_decode (s : state) (pq : loc) (k : string) : bool :=
  negb (shallowEqual (heap s) (cached_raw (heap s) (cells s) k)
          (prop (heap s) pq k)).

(** The early return of [getLatestDecodedValues]: the parsed query is the
    cached reference and the config map is shallow-equal to the cached one. *)
Definition unchanged_inputs (s : state) (paramConfigMap pq : loc) : bool :=
  bool_decide (parsedQueryRef (cells s) = pq)
  && shallowEqual (heap s) (VObj (paramConfigMapRef (cells s)))
       (VObj paramConfigMap).

(** How a failed recompute ended: a codec threw on the raw value it was
    handed, or a changed parameter had no codec. *)
Definition decode_failed (codecs : nat -> option codec) (s : state)
    (om : object) (pq : loc) (L : list (string * value)) (e : value) : Prop :=
  (exists L' k, L = L' ++ [(k, prop (heap s) pq k)] /\
                needs_decode s pq k = true /\
                call_threw codecs om k (prop (heap s) pq k) e)
  \/ (e = TypeError /\
      exists k, needs_decode s pq k = true /\
        forall c cd, field om k = VCodec c -> codecs c = Some cd -> False).

(** What the recompute path does, started in [s] with the param config
    map [om] and the parsed query [pq]. *)
Definition recomputed (codecs : nat -> option codec) (s : state) (om : object)
    (pq : loc) (x : result (loc * loc)) (s' : state) : Prop :=
  exists L, evolved (heap s) s L s' /\
    (forall k v, (k, v) ∈ L ->
       k ∈ dom om /\ needs_decode s pq k = true /\ v = prop (heap s) pq k) /\
    match x with
    | Ok (e, d) => exists oe od,
        heap s !! e = None /\ heap s' !! e = Some oe /\ heap s' !! d = Some od /\
        (d = decodedValuesCacheRef (cells s) \/ heap s !! d = None) /\
        dom oe = dom om /\ dom od = dom om /\
        (forall k, k ∈ dom om ->
           if needs_decode s pq k
           then oe !! k = Some (prop (heap s) pq k) /\
                (k, prop (heap s) pq k) ∈ L
           else oe !! k = Some (cached_raw (heap s) (cells s) k) /\
                od !! k = Some (prop (heap s) (decodedValuesCacheRef (cells s)) k) /\
                k ∉ L.*1) /\
        (forall k v, (k, v) ∈ L -> call_ok codecs om k v)
    | Throw e => decode_failed codecs s om pq L e
    end.

(** [t] is [s] after some work of the hook that left the cells, the
    location and the provider alone: the heap and the parser's table only
    grew, and codec calls were appended to the trace. *)
Record grown (s t : state) : Prop := Grown {
  gr_cells : cells t = cells s;
  gr_search : search t = search s;
  gr_updates : locationUpdates t = locationUpdates s;
  gr_heap : extends (heap s) (heap t);
  gr_parser : forall q l, parserCache s !! q = Some l -> parserCache t !! q = Some l;
  gr_calls : exists L, decodeCalls t = decodeCalls s ++ L }.

(** The state once the current location has gone through the parser, and
    the parsed query it yields. *)
Definition located (parseQueryString : string -> gmap string raw) (s : state)
    : state :=
  snd (sharedMemoizedQueryParser parseQueryString (search s) s).

Definition current_query (parseQueryString : string -> gmap string raw)
    (s : state) : loc :=
  match fst (sharedMemoizedQueryParser parseQueryString (search s) s) with
  | Ok pq => pq
  | Throw _ => 0
  end.

(** The codec calls an operation appended to the trace. *)
Definition new_calls (s s' : state) : list (string * value) :=
  drop (length (decodeCalls s)) (decodeCalls s').

(** The param config map a render of state [s] works with when it is
    given [c]: the result of [usePreviousIfShallowEqual]. *)
Definition memoized (parseQueryString : string -> gmap string raw) (s : state)
    (c : loc) : loc :=
  if mounted (cells s) then
    if shallowEqual (heap (located parseQueryString s))
         (VObj (previousParamConfigMap (cells s))) (VObj c)
    then previousParamConfigMap (cells s) else c
  else c.

(** The cells a render of state [s] reads: those of the instance, or on the
    first render the initial values of the [useRef] calls. *)
Definition render_cached_raw (h : heap_t) (s : state) (k : string) : value :=
  if mounted (cells s) then cached_raw h (cells s) k else VUndefined.

Definition render_cached_decoded (h : heap_t) (s : state) (k : string) : value :=
  if mounted (cells s) then prop h (decodedValuesCacheRef (cells s)) k
  else VUndefined.

(** Whether a render of state [s] re-decodes parameter [k]: its raw value
    in the current query is not shallow-equal to the cached raw value. *)
Definition redecodes (parseQueryString : string -> gmap string raw) (s : state)
    (k : string) : bool :=
  let h := heap (located parseQueryString s) in
  negb (shallowEqual h (render_cached_raw h s k)
          (prop h (current_query parseQueryString s) k)).

(** The cells after a committed render. *)
Definition committed (r : rendered) : refs :=
  Refs true (r_paramConfigMap r) (r_paramConfigMap r) (r_parsedQuery r)
    (Some (r_encodedValues r)) (r_decodedValues r).

(** *** The invariant of a hook instance *)

(** The cache cells of a mounted instance agree with each other: the
    encoded cache has the keys of the cached config map, and every cached
    raw value is shallow-equal to the one in the cached parsed query. *)
Record cache_consistent (s : state) : Prop := CacheConsistent {
  cc_previous : previousParamConfigMap (cells s) = paramConfigMapRef (cells s);
  cc_query : exists q, parserCache s !! q = Some (parsedQueryRef (cells s));
  cc_maps : exists le oc oe od,
      encodedValuesCacheRef (cells s) = Some le /\
      heap s !! paramConfigMapRef (cells s) = Some oc /\
      heap s !! le = Some oe /\
      heap s !! decodedValuesCacheRef (cells s) = Some od /\
      closed (heap s) oe /\
      dom oe = dom oc /\
      forall k, k ∈ dom oc ->
        shallowEqual (heap s) (field oe k)
          (prop (heap s) (parsedQueryRef (cells s)) k) = true }.

Record consistent (s : state) : Prop := Consistent {
  co_parser : forall q l, parserCache s !! q = Some l -> closed_at (heap s) l;
  co_cells : mounted (cells s) = true -> cache_consistent s }.

(** *** What the host can do with the hook *)

Inductive step (parseQueryString : string -> gmap string raw)
    (codecs : nat -> option codec) : state -> state -> Prop :=
| step_evaluate s c r s' :
    (* a render that is committed *)
    is_Some (heap s !! c) ->
    evaluate parseQueryString codecs c s = (Ok r, s') ->
    step parseQueryString codecs s s'
| step_render s c x s' :
    (* a render that throws or is discarded: no commit *)
    is_Some (heap s !! c) ->
    useQueryParams parseQueryString codecs c s = (x, s') ->
    step parseQueryString codecs s s'
| step_navigate s q :
    (* the location changes *)
    step parseQueryString codecs s (with_search q s)
| step_allocate s o :
    (* the host creates an object, e.g. a new param config map *)
    step parseQueryString codecs s (with_heap (heap s ++ [o]) s)
| step_setQuery s m changes updateType x s' :
    (* a setter is called: the one of the last committed render, or an
       older one, created for the config map [m] *)
    mounted (cells s) = true ->
    is_Some (heap s !! m) ->
    setQuery parseQueryString codecs m changes updateType s = (x, s') ->
    step parseQueryString codecs s s'.

Definition initial (h : heap_t) (q : string) : state :=
  State h q ∅ [] [] (Refs false 0 0 0 None 0).

Inductive reachable (parseQueryString : string -> gmap string raw)
    (codecs : nat -> option codec) : state -> Prop :=
| reachable_initial h q : reachable parseQueryString codecs (initial h q)
| reachable_step s s' :
    reachable parseQueryString codecs s ->
    step parseQueryString codecs s s' ->
    reachable parseQueryString codecs s'.

(** The state in which the first render runs [getLatestDecodedValues]:
    the five cells hold their initial values. *)
Definition first_render_state (parseQueryString : string -> gmap string raw)
    (c : loc) (s : state) : state :=
  let s1 := located parseQueryString s in
  with_cells (Refs false c c (current_query parseQueryString s) None
                (length (heap s1)))
    (with_heap (heap s1 ++ [∅]) s1).

(** How a failed render ended. *)
Definition render_failed (parseQueryString : string -> gmap string raw)
    (codecs : nat -> option codec) (s : state) (oc : object)
    (L : list (string * value)) (e : value) : Prop :=
  let raw_of k := prop (heap (located parseQueryString s))
                    (current_query parseQueryString s) k in
  (exists L' k, L = L' ++ [(k, raw_of k)] /\
                redecodes parseQueryString s k = true /\
                call_threw codecs oc k (raw_of k) e)
  \/ (e = TypeError /\
      exists k, redecodes parseQueryString s k = true /\
        forall c cd, field oc k = VCodec c -> codecs c = Some cd -> False).

(** The decoded cache of a mounted instance has the keys of the cached
    config map. *)
Definition decoded_keys (s : state) : Prop :=
  mounted (cells s) = true ->
  forall od oc,
    heap s !! decodedValuesCacheRef (cells s) = Some od ->
    heap s !! paramConfigMapRef (cells s) = Some oc ->
    dom od = dom oc.

(** What a render of state [s] with a param config map whose object is
    [oc] does, [L] being the codec calls it makes. *)
Definition render_outcome (parseQueryString : string -> gmap string raw)
    (codecs : nat -> option codec) (s : state) (oc : object)
    (L : list (string * value)) (x : result rendered) (s' : state) : Prop :=
  let s1 := located parseQueryString s in
  let pq := current_query parseQueryString s in
  decodeCalls s' = decodeCalls s ++ L /\
  parserCache s' = parserCache s1 /\
  extends (heap s1) (heap s') /\
  (forall k v, (k, v) ∈ L ->
     k ∈ dom oc /\ redecodes parseQueryString s k = true /\
     v = prop (heap s1) pq k) /\
  match x with
  | Ok r =>
      r_parsedQuery r = pq /\
      exists oe od,
        heap s' !! r_encodedValues r = Some oe /\
        heap s' !! r_decodedValues r = Some od /\
        heap s' !! r_paramConfigMap r = Some oc /\
        closed (heap s') oe /\
        dom oe = dom oc /\ (decoded_keys s -> dom od = dom oc) /\
        (forall k, k ∈ dom oc ->
           if redecodes parseQueryString s k
           then oe !! k = Some (prop (heap s1) pq k) /\
                (k, prop (heap s1) pq k) ∈ L
           else oe !! k = Some (render_cached_raw (heap s1) s k) /\
                field od k = render_cached_decoded (heap s1) s k /\
                k ∉ L.*1) /\
        (forall k v, (k, v) ∈ L -> call_ok codecs oc k v)
  | Throw e => render_failed parseQueryString codecs s oc L e
  end.

Definition render_post (parseQueryString : string -> gmap string raw)
    (codecs : nat -> option codec) (s : state) (oc : object)
    (x : result rendered) (s' : state) : Prop :=
  render_outcome parseQueryString codecs s oc (new_calls s s') x s'.

(** [w] is what the codec of parameter [k] in the config map [om] makes of
    the decoded value [v]: the value its [encode] returns, or a reference
    to the object it creates. *)
Definition encoded_entry (codecs : nat -> option codec) (om : object)
    (h0 h' : heap_t) (k : string) (v w : value) : Prop :=
  exists c cd h, om !! k = Some (VCodec c) /\ codecs c = Some cd /\
    match encode cd h v with
    | Returns w' => w = w'
    | ReturnsNew o => exists l, w = VObj l /\ h0 !! l = None /\ h' !! l = Some o
    | Throws _ => False
    end.

(** Every entry of the mapping [oq] has a codec whose [encode] accepts it. *)
Definition encodable (codecs : nat -> option codec) (om oq : object) : Prop :=
  forall k, k ∈ dom oq ->
    exists c cd, om !! k = Some (VCodec c) /\ codecs c = Some cd /\
      forall h e, encode cd h (field oq k) <> Throws e.


(** ** A small host, for the scenarios *)

(** [Number(v)] and [String(v)] on the values the scenarios use. *)
Definition Number (v : value) : value :=
  match v with
  | VStr x =>
      match NilZero.int_of_string x with
      | Some n => VNum (Z.of_int n)
      | None => VUndefined
      end
  | VNum n => VNum n
  | _ => VUndefined
  end.

Definition String_ (v : value) : value :=
  match v with
  | VNum n => VStr (NilZero.string_of_int (Z.to_int n))
  | v => v
  end.

(** [{decode: Number, encode: String}] *)
Definition NumberParam : codec :=
  Codec (fun _ v => Returns (Number v)) (fun _ v => Returns (String_ v)).

(** A codec that passes strings through. *)
Definition StringParam : codec :=
  Codec (fun _ v => Returns v) (fun _ v => Returns v).

(** A codec whose [decode] accepts strings only and throws on anything
    else, [undefined] included. *)
Definition StrictParam : codec :=
  Codec (fun _ v => match v with
                    | VStr _ => Returns v
                    | _ => Throws (VStr "not a string")
                    end)
        (fun _ v => Returns v).

Definition demo_codecs (c : nat) : option codec :=
  match c with
  | 0 => Some NumberParam
  | 1 => Some StringParam
  | 2 => Some StrictParam
  | _ => None
  end.

(** A parser for the handful of search strings of the scenarios. *)
Definition demo_parse (q : string) : gmap string raw :=
  if String.eqb q "?page=3" then {[ "page" := RawStr "3" ]}
  else if String.eqb q "?page=5" then {[ "page" := RawStr "5" ]}
  else if String.eqb q "?page=3&tag=a&tag=b" then
    {[ "page" := RawStr "3"; "tag" := RawArr [Some "a"; Some "b"] ]}
  else if String.eqb q "?page=5&tag=a&tag=b" then
    {[ "page" := RawStr "5"; "tag" := RawArr [Some "a"; Some "b"] ]}
  else ∅.

(** The objects the host has created before the hook is first used:
    [0]: [{page: NumberParam}], [1]: the same config in a new object,
    [2]: [{page: StringParam}], [3]: [{page: StrictParam}],
    [4]: [{page: NumberParam, tag: StringParam}],
    [5]: the mapping [{page: 4}] for the setter. *)
Definition demo_heap : heap_t :=
  [ {[ "page" := VCodec 0 ]};
    {[ "page" := VCodec 0 ]};
    {[ "page" := VCodec 1 ]};
    {[ "page" := VCodec 2 ]};
    {[ "page" := VCodec 0; "tag" := VCodec 1 ]};
    {[ "page" := VNum 4 ]} ].

(** [(latest) => ({page: String(latest.page + 1)})] *)
Definition next_page (h : heap_t) (latest : value) : outcome :=
  match latest with
  | VObj l =>
      match prop h l "page" with
      | VNum n => ReturnsNew {[ "page" := String_ (VNum (n + 1)) ]}
      | _ => Throws TypeError
      end
  | _ => Throws TypeError
  end.

(** [(latest) => ({})]: a functional update that changes nothing. *)
Definition no_changes (h : heap_t) (latest : value) : outcome :=
  ReturnsNew ∅.

(** The state after the first committed evaluation of config [c] at the
    location [q]. *)
Definition demo_mounted (c : loc) (q : string) : state :=
  snd (evaluate demo_parse demo_codecs c (initial demo_heap q)).

(** ** The codec calls and the decoded values, exactly *)

(** The codec calls of one pass over [names]: one call for every name that
    passes [test], in the order of [names], with the raw value [raw] gives. *)
Definition trace_of (test : string -> bool) (raw : string -> value)
    (names : list string) : list (string * value) :=
  (fun k => (k, raw k)) <$> List.filter test names.

(** [w] is what the [decode] of parameter [k] in the config map [om] made
    of the raw value [v]: the value it returned, or a reference to the
    object it created.  [h0] is the heap before the pass, which the heap
    [decode] ran on extends, and [h'] the heap after it. *)
Definition decoded_entry (codecs : nat -> option codec) (om : object)
    (h0 h' : heap_t) (k : string) (v w : value) : Prop :=
  exists c cd h, field om k = VCodec c /\ codecs c = Some cd /\ extends h0 h /\
    match decode cd h v with
    | Returns w' => w = w'
    | ReturnsNew o => exists l, w = VObj l /\ h0 !! l = None /\ h' !! l = Some o
    | Throws _ => False
    end.

(** The same while the loop runs: an object [decode] created is neither
    of the two maps under construction, [enc] and [dec]. *)
Definition decoded_at (codecs : nat -> option codec) (om : object)
    (h0 : heap_t) (enc dec : loc) (h' : heap_t) (k : string) (v w : value)
    : Prop :=
  exists c cd h, field om k = VCodec c /\ codecs c = Some cd /\ extends h0 h /\
    match decode cd h v with
    | Returns w' => w = w'
    | ReturnsNew o => exists l, w = VObj l /\ h0 !! l = None /\
                                l <> enc /\ l <> dec /\ h' !! l = Some o
    | Throws _ => False
    end.

(** What the loop has done once the names [done] are processed. *)
Record loop_exact (codecs : nat -> option codec) (hb : heap_t) (om : object)
    (ec pq enc dec : loc) (s0 : state) (done : list string) (t : state)
    : Prop := LoopExact {
  lx_trace : decodeCalls t =
             decodeCalls s0 ++ trace_of (changed hb ec pq) (prop hb pq) done;
  lx_decoded : forall k, k ∈ done -> changed hb ec pq k = true ->
      decoded_at codecs om hb enc dec (heap t) k (prop hb pq k)
        (prop (heap t) dec k) }.

(** How a pass over [names] that throws ended: at the first name [k] that
    needed decoding and whose [decode] threw, or whose config entry was
    no codec; [tr] is the trace up to there. *)
Definition stopped_at (codecs : nat -> option codec) (om : object)
    (test : string -> bool) (raw : string -> value) (names : list string)
    (tr : list (string * value)) (e : value) : Prop :=
  exists before k rest,
    names = before ++ k :: rest /\ test k = true /\
    ((tr = trace_of test raw before ++ [(k, raw k)] /\
      call_threw codecs om k (raw k) e)
     \/ (tr = trace_of test raw before /\ e = TypeError /\
         forall c cd, field om k = VCodec c -> codecs c = Some cd -> False)).

(** What the recompute path does, exactly: the codec calls it makes, the
    decoded values it stores, and which decoded-values reference it
    returns. *)
Definition recomputed_exactly (codecs : nat -> option codec) (s : state)
    (om : object) (pq : loc) (x : result (loc * loc)) (s' : state) : Prop :=
  let test := needs_decode s pq in
  let raw := prop (heap s) pq in
  match x with
  | Ok (e, d) =>
      new_calls s s' = trace_of test raw (Object_keys om) /\
      (forall k, k ∈ dom om -> test k = true ->
         decoded_entry codecs om (heap s) (heap s') k (raw k)
           (prop (heap s') d k)) /\
      (forall odc od,
         heap s !! decodedValuesCacheRef (cells s) = Some odc ->
         heap s' !! d = Some od ->
         (d = decodedValuesCacheRef (cells s) <-> od = odc)) /\
      (d = decodedValuesCacheRef (cells s) \/ heap s !! d = None)
  | Throw e => stopped_at codecs om test raw (Object_keys om) (new_calls s s') e
  end.

(** The same for a render of state [s] with a param config map whose
    object is [oc]. *)
Definition rendered_exactly (parseQueryString : string -> gmap string raw)
    (codecs : nat -> option codec) (s : state) (oc : object)
    (x : result rendered) (s' : state) : Prop :=
  let test := redecodes parseQueryString s in
  let raw := prop (heap (located parseQueryString s))
               (current_query parseQueryString s) in
  match x with
  | Ok r =>
      new_calls s s' = trace_of test raw (Object_keys oc) /\
      (forall k, k ∈ dom oc -> test k = true ->
         decoded_entry codecs oc (heap (located parseQueryString s)) (heap s')
           k (raw k) (prop (heap s') (r_decodedValues r) k)) /\
      (mounted (cells s) = true ->
       (forall odc od,
          heap s !! decodedValuesCacheRef (cells s) = Some odc ->
          heap s' !! r_decodedValues r = Some od ->
          (r_decodedValues r = decodedValuesCacheRef (cells s) <-> od = odc)) /\
       (r_decodedValues r = decodedValuesCacheRef (cells s) \/
        heap s !! r_decodedValues r = None))
  | Throw e => stopped_at codecs oc test raw (Object_keys oc) (new_calls s s') e
  end.

(** The raw value of parameter [k] in the parsed query of the current
    location. *)
Definition current_raw (parseQueryString : string -> gmap string raw)
    (s : state) (k : string) : value :=
  prop (heap (located parseQueryString s)) (current_query parseQueryString s) k.

(** ** A host that calls current setters only *)

(** The states a host reaches when the only setter it calls is the one
    created for the config map of the last committed evaluation. *)
Inductive well_used (parseQueryString : string -> gmap string raw)
    (codecs : nat -> option codec) : state -> Prop :=
| well_used_initial h q : well_used parseQueryString codecs (initial h q)
| well_used_evaluate s c r s' :
    well_used parseQueryString codecs s ->
    is_Some (heap s !! c) ->
    evaluate parseQueryString codecs c s = (Ok r, s') ->
    well_used parseQueryString codecs s'
| well_used_render s c x s' :
    well_used parseQueryString codecs s ->
    is_Some (heap s !! c) ->
    useQueryParams parseQueryString codecs c s = (x, s') ->
    well_used parseQueryString codecs s'
| well_used_navigate s q :
    well_used parseQueryString codecs s ->
    well_used parseQueryString codecs (with_search q s)
| well_used_allocate s o :
    well_used parseQueryString codecs s ->
    well_used parseQueryString codecs (with_heap (heap s ++ [o]) s)
| well_used_setQuery s changes updateType x s' :
    well_used parseQueryString codecs s ->
    mounted (cells s) = true ->
    setQuery parseQueryString codecs (paramConfigMapRef (cells s))
      changes updateType s = (x, s') ->
    well_used parseQueryString codecs s'.

(** * Proofs *)

(** ** Shallow equality and heap growth *)

Lemma Object_is_true x y : Object_is x y = true <-> x = y.
Proof. unfold Object_is. by rewrite bool_decide_eq_true. Qed.

Lemma elem_of_Object_keys (o : gmap string value) k :
  k ∈ Object_keys o <-> is_Some (o !! k).
Proof.
  unfold Object_keys. rewrite list_elem_of_fmap. split.
  - intros [[k' v] [-> Hin]]. apply elem_of_map_to_list in Hin. eauto.
  - intros [v Hv]. exists (k, v). split; [done|]. by apply elem_of_map_to_list.
Qed.

Lemma same_fields_eq (oa ob : gmap string value) :
  bool_decide (dom oa = dom ob)
  && forallb (fun k => Object_is (field oa k) (field ob k)) (Object_keys oa) = true
  <-> oa = ob.
Proof.
  rewrite andb_true_iff, bool_decide_eq_true, forallb_forall. split.
  - intros [Hdom Hall]. apply map_eq. intros k.
    destruct (oa !! k) as [v|] eqn:Ha.
    + assert (k ∈ dom ob) as Hk by (rewrite <- Hdom; apply elem_of_dom; eauto).
      apply elem_of_dom in Hk as [w Hw].
      specialize (Hall k). rewrite Object_is_true in Hall.
      unfold field in Hall. rewrite Ha, Hw in Hall. simpl in Hall.
      rewrite Hw. f_equal. apply Hall.
      apply list_elem_of_In, elem_of_Object_keys. eauto.
    + symmetry. apply not_elem_of_dom. rewrite <- Hdom. by apply not_elem_of_dom.
  - intros ->. split; [done|]. intros k _. by apply Object_is_true.
Qed.

(** Shallow equality of two references, spelled out. *)
Lemma shallowEqual_objects h la lb oa ob :
  h !! la = Some oa -> h !! lb = Some ob ->
  shallowEqual h (VObj la) (VObj lb) = true <-> oa = ob.
Proof.
  intros Ha Hb. unfold shallowEqual. rewrite Ha, Hb.
  destruct (Object_is (VObj la) (VObj lb)) eqn:His.
  - apply Object_is_true in His. injection His as ->.
    rewrite Ha in Hb. injection Hb as ->. done.
  - apply same_fields_eq.
Qed.

Lemma shallowEqual_refl h v : shallowEqual h v v = true.
Proof.
  unfold shallowEqual.
  replace (Object_is v v) with true; [done|]. symmetry. by apply Object_is_true.
Qed.

Lemma shallowEqual_true h a b :
  shallowEqual h a b = true <->
  a = b \/ exists la lb o, a = VObj la /\ b = VObj lb /\ h !! la = Some o /\ h !! lb = Some o.
Proof.
  unfold shallowEqual. destruct (Object_is a b) eqn:His.
  - apply Object_is_true in His. split; auto.
  - assert (a <> b) as Hne.
    { intros ->. rewrite (proj2 (Object_is_true b b)) in His; done. }
    split.
    + destruct a, b; try done.
      destruct (h !! l) as [oa|] eqn:Ha; [|done].
      destruct (h !! l0) as [ob|] eqn:Hb; [|done].
      intros Heq. apply same_fields_eq in Heq as ->. right. eauto 10.
    + intros [?|(la & lb & o & -> & -> & Ha & Hb)]; [done|].
      rewrite Ha, Hb. by apply same_fields_eq.
Qed.

Lemma shallowEqual_sym h a b : shallowEqual h a b = shallowEqual h b a.
Proof.
  apply eq_true_iff_eq. rewrite !shallowEqual_true. split.
  - intros [->|(la & lb & o & -> & -> & Ha & Hb)]; [by left|right; eauto 10].
  - intros [->|(la & lb & o & -> & -> & Ha & Hb)]; [by left|right; eauto 10].
Qed.

Lemma shallowEqual_trans h a b c :
  shallowEqual h a b = true -> shallowEqual h b c = true ->
  shallowEqual h a c = true.
Proof.
  rewrite !shallowEqual_true.
  intros [->|(la & lb & o & -> & -> & Ha & Hb)]; [done|].
  intros [<-|(la' & lc & o' & Heq & -> & Ha' & Hc)]; [right; eauto 10|].
  injection Heq as <-. rewrite Hb in Ha'. injection Ha' as <-.
  right. eauto 10.
Qed.

Lemma extends_refl h : extends h h.
Proof. by intros l o. Qed.

Lemma extends_trans h1 h2 h3 : extends h1 h2 -> extends h2 h3 -> extends h1 h3.
Proof. intros H12 H23 l o Hl. eauto. Qed.

Lemma extends_app (h : heap_t) ext : extends h (h ++ ext).
Proof. intros l o Hl. by apply lookup_app_l_Some. Qed.

Lemma extends_alter (h h' : heap_t) f l :
  h !! l = None -> extends h h' -> extends h (alter f l h').
Proof.
  intros Hl Hext l' o Hl'.
  rewrite list_lookup_alter_ne; [by apply Hext|]. intros ->. congruence.
Qed.

Lemma valid_value_extends h h' v :
  extends h h' -> valid_value h v -> valid_value h' v.
Proof. intros Hext. destruct v; simpl; try done. intros [o Ho]. eauto. Qed.

Lemma closed_extends h h' o : extends h h' -> closed h o -> closed h' o.
Proof. intros Hext Hc k v Hk. eapply valid_value_extends; eauto. Qed.

Lemma closed_at_extends h h' l : extends h h' -> closed_at h l -> closed_at h' l.
Proof. intros Hext (o & Ho & Hc). exists o. eauto using closed_extends. Qed.

Lemma prop_extends h h' l k :
  extends h h' -> is_Some (h !! l) -> prop h' l k = prop h l k.
Proof. intros Hext [o Ho]. pose proof (Hext _ _ Ho) as Ho'. unfold prop. by rewrite Ho, Ho'. Qed.

Lemma shallowEqual_extends h h' a b :
  extends h h' -> valid_value h a -> valid_value h b ->
  shallowEqual h' a b = shallowEqual h a b.
Proof.
  intros Hext Ha Hb. unfold shallowEqual.
  destruct (Object_is a b); [done|].
  destruct a, b; try done. simpl in Ha, Hb.
  destruct Ha as [oa Ha], Hb as [ob Hb].
  pose proof (Hext _ _ Ha) as Ha'. pose proof (Hext _ _ Hb) as Hb'.
  by rewrite Ha, Hb, Ha', Hb'.
Qed.

Lemma valid_value_field h o k : closed h o -> valid_value h (field o k).
Proof.
  intros Hc. unfold field. destruct (o !! k) as [v|] eqn:Hk; simpl; [|done].
  by eapply Hc.
Qed.

Lemma valid_value_prop h l k : closed_at h l -> valid_value h (prop h l k).
Proof.
  intros (o & Ho & Hc). unfold prop. rewrite Ho. by apply valid_value_field.
Qed.

(** Storing under [k] adds [k] to the keys processed so far. *)
Lemma is_Some_insert_processed (o : object) k v (done : list string) :
  (forall k', is_Some (o !! k') <-> k' ∈ done) ->
  forall k', is_Some (<[k := v]> o !! k') <-> k' ∈ done ++ [k].
Proof.
  intros H k'. rewrite elem_of_app, list_elem_of_singleton, <- H.
  destruct (decide (k = k')) as [->|Hne].
  - rewrite lookup_insert_eq. split; [by right|by eauto].
  - rewrite lookup_insert_ne by done. split; [by left|].
    by intros [?|?].
Qed.

(** ** The decoding loop *)

Lemma evolved_refl hb s : extends hb (heap s) -> evolved hb s [] s.
Proof. intros H. split; try done. by rewrite app_nil_r. Qed.

Lemma evolved_trans hb s0 s1 s2 L1 L2 :
  evolved hb s0 L1 s1 -> evolved (heap s1) s1 L2 s2 ->
  evolved hb s0 (L1 ++ L2) s2.
Proof.
  intros [] []. split; try congruence.
  - eapply extends_trans; eauto.
  - rewrite app_assoc. congruence.
Qed.

Section Loop.
Variable codecs : nat -> option codec.

Lemma call_spec r s x s' :
  call r s = (x, s') ->
  evolved (heap s) s [] s' /\
  match x with
  | Ok v => forall e, r <> Throws e
  | Throw e => r = Throws e
  end.
Proof.
  destruct r as [v|o|e]; simpl; unfold ret, throw, bind, new_object; simpl;
    intros [= <- <-]; (split; [|done]).
  - by apply evolved_refl, extends_refl.
  - split; simpl; try done; [apply extends_app|by rewrite app_nil_r].
  - by apply evolved_refl, extends_refl.
Qed.

Lemma decode_param_spec k cfg v t x t1 :
  decode_param codecs k cfg v t = (x, t1) ->
  (exists c cd h, cfg = VCodec c /\ codecs c = Some cd /\
     evolved (heap t) t [(k, v)] t1 /\
     match x with
     | Ok _ => forall e, decode cd h v <> Throws e
     | Throw e => decode cd h v = Throws e
     end)
  \/ (x = Throw TypeError /\ t1 = t /\
      forall c cd, cfg = VCodec c -> codecs c = Some cd -> False).
Proof.
  unfold decode_param.
  destruct cfg as [| | | | | |c];
    try (intros [= <- <-]; right; by repeat split).
  destruct (codecs c) as [cd|] eqn:Hc.
  - unfold bind, modify, gets. simpl. intros Hcall.
    apply call_spec in Hcall as [Hev Hx]. left. exists c, cd. eexists.
    destruct Hev as [? ? ? ? ? Hcalls]. simpl in *.
    rewrite app_nil_r in Hcalls.
    split; [done|]. split; [done|]. split; [by split|exact Hx].
  - intros [= <- <-]. right. repeat split; try done.
    intros c' cd' [= <-]. congruence.
Qed.

Variables (hb : heap_t) (om : object) (m ec dc pq enc dec : loc).
Hypothesis Hm : hb !! m = Some om.
Hypothesis Hec : closed_at hb ec.
Hypothesis Hdc : is_Some (hb !! dc).
Hypothesis Hpq : closed_at hb pq.
Hypothesis Henc : hb !! enc = None.
Hypothesis Hdec : hb !! dec = None.
Hypothesis Hne : enc <> dec.

Lemma changed_extends h k :
  extends hb h ->
  negb (shallowEqual h (prop h ec k) (prop h pq k)) = changed hb ec pq k.
Proof using Hec Hpq.
  intros Hext. unfold changed.
  assert (is_Some (hb !! ec)) by (destruct Hec as (?&?&?); eauto).
  assert (is_Some (hb !! pq)) by (destruct Hpq as (?&?&?); eauto).
  rewrite (prop_extends hb h ec), (prop_extends hb h pq) by done.
  rewrite (shallowEqual_extends hb h); auto using valid_value_prop.
Qed.

Lemma store_spec s0 L t k ev dv oe od :
  evolved hb s0 L t -> heap t !! enc = Some oe -> heap t !! dec = Some od ->
  forall t', t' = with_heap
      (alter (fun o : object => <[k := dv]> o) dec
         (alter (fun o : object => <[k := ev]> o) enc (heap t))) t ->
  evolved hb s0 L t' /\
  heap t' !! enc = Some (<[k := ev]> oe) /\
  heap t' !! dec = Some (<[k := dv]> od).
Proof using Henc Hdec Hne.
  intros [] He Hd t' ->. simpl. split; [|split].
  - split; simpl; try done.
    apply extends_alter; [done|]. by apply extends_alter.
  - rewrite list_lookup_alter_ne by done.
    by rewrite list_lookup_alter_eq, He.
  - rewrite list_lookup_alter_eq, list_lookup_alter_ne by done. by rewrite Hd.
Qed.

Lemma decode_step_spec s0 done oe od L t k x t' :
  loop_inv codecs hb om ec dc pq enc dec s0 done oe od L t ->
  decode_step codecs m pq ec dc enc dec k t = (x, t') ->
  match x with
  | Ok _ => exists oe' od' L',
      loop_inv codecs hb om ec dc pq enc dec s0 (done ++ [k]) oe' od' L' t'
  | Throw e => exists L', evolved hb s0 L' t' /\
      loop_failed codecs hb om ec pq L' e /\
      calls_within hb ec pq (done ++ [k]) L'
  end.
Proof using All.
  intros Hinv Hstep. destruct Hinv as [Hev He Hd Hde Hdd Hkeys Hcalls].
  pose proof (ev_heap _ _ _ _ Hev) as Hext.
  unfold decode_step, bind, get_prop, gets in Hstep. simpl in Hstep.
  rewrite (changed_extends (heap t) k Hext) in Hstep.
  assert (prop (heap t) m k = field om k) as Hcfg.
  { unfold prop. by rewrite (Hext _ _ Hm). }
  assert (forall h, extends hb h -> prop h pq k = prop hb pq k) as Hrpq.
  { intros h Hh. apply prop_extends; [done|]. destruct Hpq as (?&?&?); eauto. }
  assert (forall h, extends hb h -> prop h ec k = prop hb ec k) as Hrec.
  { intros h Hh. apply prop_extends; [done|]. destruct Hec as (?&?&?); eauto. }
  rewrite Hcfg in Hstep.
  destruct (changed hb ec pq k) eqn:Hch.
  - (* re-decode *)
    rewrite (Hrpq _ Hext) in Hstep.
    destruct (decode_param codecs k (field om k) (prop hb pq k) t) as [r t1] eqn:Hdp.
    apply decode_param_spec in Hdp
      as [(c & cd & h & Hc & Hcd & Hev1 & Hr)|(-> & -> & Hno)].
    + pose proof (evolved_trans _ _ _ _ _ _ Hev Hev1) as Hev'.
      destruct r as [dv|e].
      * unfold ret, set_prop, modify in Hstep. simpl in Hstep.
        injection Hstep as <- <-.
        pose proof (ev_heap _ _ _ _ Hev1) as Hext1.
        destruct (store_spec s0 _ t1 k (prop hb pq k) dv oe od Hev'
                    (Hext1 _ _ He) (Hext1 _ _ Hd) _ eq_refl) as (Hev2 & He2 & Hd2).
        eexists _, _, _. split; try done.
        -- by apply is_Some_insert_processed.
        -- by apply is_Some_insert_processed.
        -- intros k' Hk'. unfold key_fact.
           destruct (decide (k = k')) as [<-|Hkk].
           { rewrite Hch, !lookup_insert_eq. split; [done|]. split; [|eauto].
             apply elem_of_app. right. by apply list_elem_of_singleton. }
           apply elem_of_app in Hk' as [Hk'|Hk'%list_elem_of_singleton]; [|done].
           specialize (Hkeys _ Hk'). unfold key_fact in Hkeys.
           rewrite !lookup_insert_ne by done.
           destruct (changed hb ec pq k').
           ++ destruct Hkeys as (?&?&?). split; [done|]. split; [|done].
              apply elem_of_app. by left.
           ++ destruct Hkeys as (?&?&Hnot). split; [done|]. split; [done|].
              rewrite fmap_app. simpl. rewrite elem_of_app, list_elem_of_singleton.
              intros [?|?]; [done|]. subst k'. done.
        -- intros k' v [Hin|Hin%list_elem_of_singleton]%elem_of_app.
           { destruct (Hcalls _ _ Hin) as (?&?&?&?).
             split; [apply elem_of_app; by left|done]. }
           injection Hin as -> ->.
           split; [apply elem_of_app; right; by apply list_elem_of_singleton|].
           split; [done|]. split; [done|]. exists c, cd, h. by rewrite Hc in *.
      * injection Hstep as <- <-. eexists. split; [exact Hev'|]. split.
        { left. exists L, k. split; [done|]. split; [done|]. by exists c, cd, h. }
        intros k' v [Hin|Hin%list_elem_of_singleton]%elem_of_app.
        { destruct (Hcalls _ _ Hin) as (?&?&?&?).
          split; [apply elem_of_app; by left|done]. }
        injection Hin as -> ->.
        split; [apply elem_of_app; right; by apply list_elem_of_singleton|done].
    + simpl in Hstep. injection Hstep as <- <-.
      exists L. split; [done|]. split.
      { right. split; [done|]. exists k. eauto. }
      intros k' v Hin. destruct (Hcalls _ _ Hin) as (?&?&?&?).
      split; [apply elem_of_app; by left|done].
  - (* reuse the cache *)
    unfold ret, set_prop, modify in Hstep. simpl in Hstep.
    injection Hstep as <- <-.
    destruct (store_spec s0 _ t k (prop (heap t) ec k) (prop (heap t) dc k) oe od
                Hev He Hd _ eq_refl) as (Hev2 & He2 & Hd2).
    rewrite (Hrec _ Hext) in *.
    rewrite (prop_extends hb (heap t) dc k Hext Hdc) in *.
    eexists _, _, _. split; try done.
    -- by apply is_Some_insert_processed.
    -- by apply is_Some_insert_processed.
    -- intros k' Hk'. unfold key_fact.
       destruct (decide (k = k')) as [<-|Hkk].
       { rewrite Hch, !lookup_insert_eq. split; [done|]. split; [done|].
         intros [[k2 v] [Heq Hin]]%list_elem_of_fmap. simpl in Heq. subst k2.
         destruct (Hcalls _ _ Hin) as (_ & Hch' & _). congruence. }
       apply elem_of_app in Hk' as [Hk'|Hk'%list_elem_of_singleton]; [|done].
       specialize (Hkeys _ Hk'). unfold key_fact in Hkeys.
       by rewrite !lookup_insert_ne by done.
    -- intros k' v Hin. destruct (Hcalls _ _ Hin) as (?&?&?&?).
       split; [apply elem_of_app; by left|done].
Qed.

End Loop.

(** ** [getLatestDecodedValues], unfolded *)

Section Latest.
Variable parseQueryString : string -> gmap string raw.
Variable codecs : nat -> option codec.

Lemma getLatest_unfold m s pq s1 :
  sharedMemoizedQueryParser parseQueryString (search s) s = (Ok pq, s1) ->
  cells s1 = cells s ->
  getLatestDecodedValues parseQueryString codecs m s =
    if unchanged_inputs s m pq then
      match encodedValuesCacheRef (cells s) with
      | Some le => (Ok (le, decodedValuesCacheRef (cells s)), s1)
      | None => recompute codecs m pq s1
      end
    else recompute codecs m pq s1.
Proof.
  intros Hp Hc. unfold getLatestDecodedValues, getLocationSearch, unchanged_inputs.
  unfold bind at 1 2 3 4. unfold gets at 1 2 3. simpl. rewrite Hp.
  destruct s1 as [h1 q1 c1 d1 u1 r1]. simpl in Hc. subst r1.
  rewrite !negb_involutive.
  destruct (bool_decide (parsedQueryRef (cells s) = pq)) eqn:Hq.
  - unfold bind at 1. unfold gets at 1. simpl. rewrite Hq. simpl.
    destruct (shallowEqual _ _ _); simpl.
    + unfold bind at 1 2. unfold gets at 1 2. simpl.
      destruct (encodedValuesCacheRef (cells s)) eqn:He; [reflexivity|].
      symmetry. unfold recompute. unfold bind at 1 2. unfold gets at 1 2.
      simpl. rewrite He. reflexivity.
    + reflexivity.
  - unfold bind at 1. unfold gets at 1. simpl. rewrite Hq. reflexivity.
Qed.

End Latest.

(** ** The parser *)

Lemma with_heap_id s : with_heap (heap s) s = s.
Proof. by destruct s. Qed.

Lemma closed_empty h : closed h ∅.
Proof. intros k v Hk. by rewrite lookup_empty in Hk. Qed.

Lemma closed_insert h o k v :
  closed h o -> valid_value h v -> closed h (<[k := v]> o).
Proof.
  intros Hc Hv k' v'. destruct (decide (k = k')) as [->|].
  - rewrite lookup_insert_eq. by intros [= <-].
  - rewrite lookup_insert_ne by done. apply Hc.
Qed.

Lemma raw_value_spec r s :
  exists v ext, raw_value r s = (Ok v, with_heap (heap s ++ ext) s) /\
                valid_value (heap s ++ ext) v.
Proof.
  destruct r as [|x|xs]; simpl.
  - exists VNull, []. by rewrite app_nil_r, with_heap_id.
  - exists (VStr x), []. by rewrite app_nil_r, with_heap_id.
  - eexists (VObj (length (heap s))), [_]. split; [reflexivity|].
    simpl. rewrite list_lookup_middle; eauto.
Qed.

Lemma build_query_spec kvs : forall acc s,
  closed (heap s) acc ->
  exists o ext, build_query kvs acc s = (Ok o, with_heap (heap s ++ ext) s) /\
                closed (heap s ++ ext) o.
Proof.
  induction kvs as [|[k r] kvs IH]; intros acc s Hacc; simpl.
  - exists acc, []. by rewrite app_nil_r, with_heap_id.
  - destruct (raw_value_spec r s) as (v & ext & Hr & Hv).
    unfold bind. rewrite Hr.
    destruct (IH (<[k := v]> acc) (with_heap (heap s ++ ext) s))
      as (o & ext' & Hb & Ho).
    { simpl. apply closed_insert; [|done].
      eapply closed_extends; [apply extends_app|done]. }
    simpl in Hb, Ho. exists o, (ext ++ ext').
    rewrite Hb. by rewrite app_assoc.
Qed.

Section Parser.
Variable parseQueryString : string -> gmap string raw.

(** The memoized parser always returns, touches nothing but the heap and
    its own table, and answers a string it has seen with the same object. *)
Lemma parser_spec q s :
  exists pq s1,
    sharedMemoizedQueryParser parseQueryString q s = (Ok pq, s1) /\
    cells s1 = cells s /\ search s1 = search s /\
    decodeCalls s1 = decodeCalls s /\ locationUpdates s1 = locationUpdates s /\
    extends (heap s) (heap s1) /\
    parserCache s1 = <[q := pq]> (parserCache s) /\
    (is_Some (parserCache s !! q) -> s1 = s) /\
    (parserCache s !! q = None -> heap s !! pq = None /\ closed_at (heap s1) pq).
Proof.
  unfold sharedMemoizedQueryParser, bind, gets. simpl.
  destruct (parserCache s !! q) as [l|] eqn:Hq.
  - exists l, s. split_and!; try done; [apply extends_refl|].
    by rewrite insert_id.
  - destruct (build_query_spec (map_to_list (parseQueryString q)) ∅ s)
      as (o & ext & Hb & Ho); [apply closed_empty|].
    rewrite Hb. simpl. eexists _, _. split; [reflexivity|]. simpl.
    split_and!; try done; [eapply extends_trans; apply extends_app|].
    intros _. split.
    + apply lookup_ge_None. rewrite length_app. lia.
    + exists o. split; [by rewrite list_lookup_middle|].
      eapply closed_extends; [apply extends_app|done].
Qed.

Lemma parser_hit q s l :
  parserCache s !! q = Some l ->
  sharedMemoizedQueryParser parseQueryString q s = (Ok l, s).
Proof.
  intros Hq. unfold sharedMemoizedQueryParser, bind, gets. simpl. by rewrite Hq.
Qed.
End Parser.

Section Recompute.
Variable codecs : nat -> option codec.
Variables (hb : heap_t) (om : object) (m ec dc pq enc dec : loc).
Hypothesis Hm : hb !! m = Some om.
Hypothesis Hec : closed_at hb ec.
Hypothesis Hdc : is_Some (hb !! dc).
Hypothesis Hpq : closed_at hb pq.
Hypothesis Henc : hb !! enc = None.
Hypothesis Hdec : hb !! dec = None.
Hypothesis Hne : enc <> dec.

Lemma for_of_spec names : forall s0 done oe od L t x t',
  loop_inv codecs hb om ec dc pq enc dec s0 done oe od L t ->
  for_of names (decode_step codecs m pq ec dc enc dec) t = (x, t') ->
  match x with
  | Ok _ => exists oe' od' L',
      loop_inv codecs hb om ec dc pq enc dec s0 (done ++ names) oe' od' L' t'
  | Throw e => exists L', evolved hb s0 L' t' /\
      loop_failed codecs hb om ec pq L' e /\
      calls_within hb ec pq (done ++ names) L'
  end.
Proof using All.
  induction names as [|k names IH]; intros s0 done oe od L t x t' Hinv; simpl.
  - intros [= <- <-]. rewrite app_nil_r. eauto.
  - unfold bind.
    destruct (decode_step codecs m pq ec dc enc dec k t) as [r t1] eqn:Hstep.
    eapply decode_step_spec in Hstep; eauto.
    destruct r as [[]|e].
    + destruct Hstep as (oe1 & od1 & L1 & Hinv1). intros Hrest.
      eapply IH in Hrest; [|exact Hinv1].
      by rewrite <- app_assoc in Hrest.
    + intros [= <- <-]. destruct Hstep as (L' & Hev & Hf & Hw).
      exists L'. split; [done|]. split; [done|].
      intros k' v Hin. destruct (Hw _ _ Hin) as (Hk & ? & ?).
      split; [|done]. rewrite elem_of_app in Hk. rewrite elem_of_app, elem_of_cons.
      rewrite list_elem_of_singleton in Hk. tauto.
Qed.
End Recompute.

(** ** The two maps the loop builds *)

Section BuildMaps.
Variable codecs : nat -> option codec.

Lemma dom_eq_keys (o om : object) :
  (forall k, is_Some (o !! k) <-> k ∈ Object_keys om) -> dom o = dom om.
Proof.
  intros H. apply set_eq. intros k.
  by rewrite !elem_of_dom, H, elem_of_Object_keys.
Qed.

Lemma build_maps_spec hb om m ec dc pq t x t' :
  hb !! m = Some om -> closed_at hb ec -> is_Some (hb !! dc) ->
  closed_at hb pq ->
  heap t = hb -> decodedValuesCacheRef (cells t) = dc ->
  build_maps codecs m pq ec dc t = (x, t') ->
  exists L, evolved hb t L t' /\ calls_within hb ec pq (Object_keys om) L /\
    match x with
    | Ok (e, d) => exists oe od,
        hb !! e = None /\ heap t' !! e = Some oe /\ heap t' !! d = Some od /\
        (d = dc \/ hb !! d = None) /\
        dom oe = dom om /\ dom od = dom om /\
        (forall k, k ∈ dom om -> key_fact hb ec dc pq oe od L k) /\
        (forall k v, (k, v) ∈ L -> call_ok codecs om k v)
    | Throw e => loop_failed codecs hb om ec pq L e
    end.
Proof.
  intros Hm Hec Hdc Hpq Hh Hd. subst hb.
  unfold build_maps. unfold bind at 1 2 3. unfold new_object, gets. simpl.
  assert (keys_of (heap t ++ [∅]) m = Object_keys om) as ->.
  { unfold keys_of. by rewrite (lookup_app_l_Some _ _ _ _ Hm). }
  set (enc := length (heap t)). set (dec := length (heap t ++ [∅])).
  set (t0 := with_heap ((heap t ++ [∅]) ++ [∅]) (with_heap (heap t ++ [∅]) t)).
  assert (heap t !! enc = None) as Henc by (apply lookup_ge_None; lia).
  assert (heap t !! dec = None) as Hdec.
  { apply lookup_ge_None. unfold dec. rewrite length_app. lia. }
  assert (enc <> dec) as Hne.
  { unfold enc, dec. rewrite length_app. simpl. lia. }
  assert (loop_inv codecs (heap t) om ec dc pq enc dec t [] ∅ ∅ [] t0) as Hinv.
  { split.
    - split; try done; simpl.
      + eapply extends_trans; apply extends_app.
      + by rewrite app_nil_r.
    - simpl. rewrite lookup_app_l by (rewrite length_app; simpl; lia).
      by rewrite list_lookup_middle.
    - simpl. by rewrite list_lookup_middle.
    - intros k. rewrite lookup_empty, elem_of_nil. split; [by intros [? ?]|done].
    - intros k. rewrite lookup_empty, elem_of_nil. split; [by intros [? ?]|done].
    - intros k Hk. by apply elem_of_nil in Hk.
    - intros k v Hk. by apply elem_of_nil in Hk. }
  unfold bind at 1.
  destruct (for_of (Object_keys om) (decode_step codecs m pq ec dc enc dec) t0)
    as [r t1] eqn:Hloop.
  eapply for_of_spec in Hloop; eauto. simpl in Hloop.
  destruct r as [[]|e].
  - destruct Hloop as (oe & od & L & [Hev He Hdd Hde Hdod Hkeys Hcalls]).
    unfold bind, gets, ret. simpl. intros [= <- <-].
    exists L. split; [done|]. split.
    { intros k v Hin. destruct (Hcalls _ _ Hin) as (?&?&?&?). done. }
    rewrite (ev_cells _ _ _ _ Hev), Hd.
    pose proof (ev_heap _ _ _ _ Hev) as Hext.
    destruct Hdc as [odc Hodc].
    assert (exists od', heap t1 !! (if negb (shallowEqual (heap t1) (VObj dc) (VObj dec))
                                     then dec else dc) = Some od' /\
              (forall k, od' !! k = od !! k)) as (od' & Hod' & Hsame).
    { destruct (shallowEqual (heap t1) (VObj dc) (VObj dec)) eqn:Hsh; simpl.
      - apply (shallowEqual_objects _ _ _ odc od) in Hsh; [|by apply Hext|done].
        subst odc. exists od. split; [by apply Hext|done].
      - exists od. done. }
    exists oe, od'. split_and!; try done.
    + destruct (negb _); [by right|by left].
    + by apply dom_eq_keys.
    + apply dom_eq_keys. intros k. rewrite <- Hdod.
      unfold is_Some. by setoid_rewrite Hsame.
    + intros k Hk. specialize (Hkeys k). unfold key_fact in *.
      rewrite !Hsame. apply Hkeys. apply elem_of_Object_keys.
      by apply elem_of_dom.
    + intros k v Hin. by destruct (Hcalls _ _ Hin) as (?&?&?&?).
  - intros [= <- <-]. destruct Hloop as (L & Hev & Hf & Hw). eauto.
Qed.
End BuildMaps.

(** ** The recompute path *)

Section RecomputeSpec.
Variable codecs : nat -> option codec.

Lemma recompute_spec m pq s x s' om :
  heap s !! m = Some om ->
  closed_at (heap s) pq ->
  is_Some (heap s !! decodedValuesCacheRef (cells s)) ->
  (forall le, encodedValuesCacheRef (cells s) = Some le -> closed_at (heap s) le) ->
  recompute codecs m pq s = (x, s') ->
  recomputed codecs s om pq x s'.
Proof.
  intros Hm Hpq Hdc Hle. unfold recompute.
  unfold bind at 1 2. unfold gets at 1 2. simpl.
  set (dc := decodedValuesCacheRef (cells s)) in *.
  assert (is_Some (heap s !! pq)) as Hpq' by (destruct Hpq as (?&?&?); eauto).
  destruct (encodedValuesCacheRef (cells s)) as [le|] eqn:Hcell.
  - (* the cache exists *)
    unfold bind at 1 2. simpl. intros Hrun.
    eapply build_maps_spec in Hrun; eauto.
    destruct Hrun as (L & Hev & Hw & Hx).
    assert (forall k, changed (heap s) le pq k = needs_decode s pq k) as Hch.
    { intros k. unfold changed, needs_decode, cached_raw. by rewrite Hcell. }
    exists L. split; [done|]. split.
    { intros k v Hin. destruct (Hw _ _ Hin) as (Hk & ? & ?).
      rewrite <- Hch. split; [|done].
      by apply elem_of_dom, elem_of_Object_keys. }
    destruct x as [[e d]|e].
    + destruct Hx as (oe & od & ? & ? & ? & ? & ? & ? & Hkeys & ?).
      exists oe, od. split_and!; try done.
      intros k Hk. specialize (Hkeys k Hk). unfold key_fact in Hkeys.
      rewrite <- Hch. unfold cached_raw. rewrite Hcell.
      destruct (changed (heap s) le pq k); [by destruct Hkeys as (? & ? & ?)|done].
    + unfold loop_failed in Hx. unfold decode_failed.
      by setoid_rewrite Hch in Hx.
  - (* no cache yet: [undefined || {}] *)
    unfold bind at 1 2. unfold new_object. simpl. intros Hrun.
    set (hb := heap s ++ [∅]) in *. set (ec := length (heap s)) in *.
    assert (extends (heap s) hb) as Hext by apply extends_app.
    assert (hb !! ec = Some ∅) as Hec by apply list_lookup_middle, eq_refl.
    assert (closed_at hb ec) as Hcec.
    { exists ∅. split; [done|]. apply closed_empty. }
    assert (is_Some (hb !! dc)) as Hdc'.
    { destruct Hdc as [o Ho]. eauto. }
    assert (closed_at hb pq) as Hcpq by (by eapply closed_at_extends).
    eapply (build_maps_spec codecs hb om m ec dc pq) in Hrun; eauto.
    assert (forall k, prop hb pq k = prop (heap s) pq k) as Hrpq.
    { intros k. by apply prop_extends. }
    assert (forall k, prop hb dc k = prop (heap s) dc k) as Hrdc.
    { intros k. by apply prop_extends. }
    assert (forall k, prop hb ec k = VUndefined) as Hrec.
    { intros k. unfold prop. by rewrite Hec. }
    assert (forall k, changed hb ec pq k = needs_decode s pq k) as Hch.
    { intros k. unfold changed, needs_decode, cached_raw.
      rewrite Hcell, Hrec, Hrpq. apply (f_equal negb).
      apply shallowEqual_extends; [done|done|by apply valid_value_prop]. }
    destruct Hrun as (L & Hev & Hw & Hx).
    exists L. split.
    { destruct Hev. split; try done. by eapply extends_trans. }
    split.
    { intros k v Hin. destruct (Hw _ _ Hin) as (Hk & ? & ?).
      rewrite <- Hch, <- Hrpq. split; [|done].
      by apply elem_of_dom, elem_of_Object_keys. }
    destruct x as [[e d]|e].
    + destruct Hx as (oe & od & Hfresh & ? & ? & Hd & ? & ? & Hkeys & ?).
      assert (forall l, hb !! l = None -> heap s !! l = None) as Hnone.
      { intros l Hl. destruct (heap s !! l) eqn:Hl'; [|done].
        apply Hext in Hl'. congruence. }
      exists oe, od. split_and!; try done; [by apply Hnone| |].
      { destruct Hd; [by left|right; by apply Hnone]. }
      intros k Hk. specialize (Hkeys k Hk). unfold key_fact in Hkeys.
      rewrite <- Hch. unfold cached_raw. rewrite Hcell, <- Hrpq, <- Hrdc.
      rewrite Hrec in Hkeys.
      destruct (changed hb ec pq k); [by destruct Hkeys as (? & ? & ?)|done].
    + unfold loop_failed in Hx. unfold decode_failed.
      setoid_rewrite Hch in Hx. by setoid_rewrite Hrpq in Hx.
Qed.
End RecomputeSpec.

(** ** Frames *)

Lemma grown_refl s : grown s s.
Proof. split; try done; [apply extends_refl|]. exists []. by rewrite app_nil_r. Qed.

Lemma grown_trans s1 s2 s3 : grown s1 s2 -> grown s2 s3 -> grown s1 s3.
Proof.
  intros [? ? ? ? ? [L1 ?]] [? ? ? ? ? [L2 ?]]. split; try congruence.
  - eapply extends_trans; eauto.
  - eauto.
  - exists (L1 ++ L2). rewrite app_assoc. congruence.
Qed.

Lemma evolved_grown s L t : evolved (heap s) s L t -> grown s t.
Proof.
  intros []. split; try done; [|eauto]. intros q l. congruence.
Qed.

Lemma new_object_grown o s l s' : new_object o s = (Ok l, s') -> grown s s'.
Proof.
  intros [= <- <-]. split; simpl; try done; [apply extends_app|].
  exists []. by rewrite app_nil_r.
Qed.

Lemma call_grown r s x s' : call r s = (x, s') -> grown s s'.
Proof. intros H. apply call_spec in H as [H _]. by eapply evolved_grown. Qed.

Section Frames.
Variable parseQueryString : string -> gmap string raw.
Variable codecs : nat -> option codec.

Lemma parser_grown q s pq s1 :
  sharedMemoizedQueryParser parseQueryString q s = (Ok pq, s1) -> grown s s1.
Proof.
  intros Hp.
  destruct (parser_spec parseQueryString q s)
    as (pq' & s1' & Hp' & ? & ? & Hcalls & ? & ? & Hcache & Hhit & Hmiss).
  rewrite Hp in Hp'. injection Hp' as <- <-.
  split; try done.
  - intros q' l Hq'. rewrite Hcache.
    destruct (decide (q = q')) as [<-|].
    + rewrite Hhit in Hcache by eauto. rewrite Hcache in Hq'. by rewrite <- Hq'.
    + by rewrite lookup_insert_ne.
  - exists []. by rewrite app_nil_r.
Qed.

Lemma parser_total q s :
  exists pq s1, sharedMemoizedQueryParser parseQueryString q s = (Ok pq, s1).
Proof.
  destruct (parser_spec parseQueryString q s) as (pq & s1 & Hp & _). eauto.
Qed.

Lemma located_eq s :
  sharedMemoizedQueryParser parseQueryString (search s) s =
  (Ok (current_query parseQueryString s), located parseQueryString s).
Proof.
  unfold current_query, located.
  destruct (parser_total (search s) s) as (pq & s1 & ->). done.
Qed.

Lemma located_grown s : grown s (located parseQueryString s).
Proof. eapply parser_grown, located_eq. Qed.

Lemma located_cache s :
  parserCache (located parseQueryString s) !! search s =
  Some (current_query parseQueryString s).
Proof.
  destruct (parser_spec parseQueryString (search s) s)
    as (pq & s1 & Hp & _ & _ & _ & _ & _ & Hcache & _).
  rewrite located_eq in Hp. injection Hp as -> ->.
  by rewrite Hcache, lookup_insert_eq.
Qed.

(** Parsing a location that is already in the table changes nothing. *)
Lemma located_hit s pq :
  parserCache s !! search s = Some pq ->
  located parseQueryString s = s /\ current_query parseQueryString s = pq.
Proof.
  intros Hq. unfold located, current_query.
  by rewrite (parser_hit parseQueryString _ _ _ Hq).
Qed.

Lemma located_idem s :
  located parseQueryString (located parseQueryString s) = located parseQueryString s
  /\ current_query parseQueryString (located parseQueryString s)
     = current_query parseQueryString s.
Proof.
  apply located_hit.
  rewrite (gr_search _ _ (located_grown s)). apply located_cache.
Qed.

(** *** Frame of the decoding loop: no assumption on the cells *)

Lemma decode_step_frame hb s0 m pq ec dc enc dec k t x t' :
  hb !! enc = None -> hb !! dec = None ->
  (exists L, evolved hb s0 L t) ->
  decode_step codecs m pq ec dc enc dec k t = (x, t') ->
  exists L, evolved hb s0 L t'.
Proof.
  intros Henc Hdec [L Hev].
  unfold decode_step, bind, get_prop, gets. simpl.
  assert (forall (t1 : state) L1 l v, hb !! l = None -> evolved hb s0 L1 t1 ->
    evolved hb s0 L1 (with_heap
      (alter (fun o : object => <[k := v]> o) l (heap t1)) t1)) as Hstore.
  { intros t1 L1 l v Hl []. split; simpl; try done. by apply extends_alter. }
  destruct (negb _).
  - destruct (decode_param codecs k (prop (heap t) m k) (prop (heap t) pq k) t)
      as [r t1] eqn:Hdp.
    apply decode_param_spec in Hdp
      as [(c & cd & h & Hc & Hcd & Hev1 & Hr)|(-> & -> & Hno)].
    + pose proof (evolved_trans _ _ _ _ _ _ Hev Hev1) as Hev'.
      destruct r as [dv|e]; simpl.
      * unfold set_prop, modify. simpl. intros [= <- <-].
        eexists. refine (Hstore (with_heap _ _) _ dec _ Hdec _). by apply Hstore.
      * intros [= <- <-]. eauto.
    + intros [= <- <-]. eauto.
  - unfold ret, set_prop, modify. simpl. intros [= <- <-].
    eexists. refine (Hstore (with_heap _ _) _ dec _ Hdec _). by apply Hstore.
Qed.

Lemma for_of_frame hb s0 m pq ec dc enc dec names : forall t x t',
  hb !! enc = None -> hb !! dec = None ->
  (exists L, evolved hb s0 L t) ->
  for_of names (decode_step codecs m pq ec dc enc dec) t = (x, t') ->
  exists L, evolved hb s0 L t'.
Proof.
  induction names as [|k names IH]; intros t x t' Henc Hdec Hev; simpl.
  - by intros [= <- <-].
  - unfold bind.
    destruct (decode_step codecs m pq ec dc enc dec k t) as [r t1] eqn:Hstep.
    eapply decode_step_frame in Hstep; eauto.
    destruct r; [by apply IH|]. by intros [= <- <-].
Qed.

Lemma build_maps_evolved m pq ec dc t x t' :
  build_maps codecs m pq ec dc t = (x, t') -> exists L, evolved (heap t) t L t'.
Proof.
  unfold build_maps. unfold bind at 1 2 3. unfold new_object, gets. simpl.
  unfold bind at 1.
  destruct (for_of _ _ _) as [r t1] eqn:Hloop.
  eapply (for_of_frame (heap t) t) in Hloop.
  - destruct r; unfold bind, gets, ret; simpl; by intros [= <- <-].
  - apply lookup_ge_None. lia.
  - apply lookup_ge_None. rewrite length_app. lia.
  - exists []. split; simpl; try done.
    + eapply extends_trans; apply extends_app.
    + by rewrite app_nil_r.
Qed.

Lemma recompute_evolved m pq s x s' :
  recompute codecs m pq s = (x, s') -> exists L, evolved (heap s) s L s'.
Proof.
  unfold recompute. unfold bind at 1 2. unfold gets at 1 2. simpl.
  destruct (encodedValuesCacheRef (cells s)); simpl.
  - unfold bind at 1 2. simpl. apply build_maps_evolved.
  - unfold bind at 1 2. unfold new_object. simpl. intros H.
    apply build_maps_evolved in H as [L []]. simpl in *.
    exists L. split; try done.
    eapply extends_trans; [apply extends_app|done].
Qed.

Lemma recompute_grown m pq s x s' :
  recompute codecs m pq s = (x, s') -> grown s s'.
Proof. intros [L H]%recompute_evolved. by eapply evolved_grown. Qed.

Lemma getLatest_cases m s :
  getLatestDecodedValues parseQueryString codecs m s =
    if unchanged_inputs s m (current_query parseQueryString s) then
      match encodedValuesCacheRef (cells s) with
      | Some le => (Ok (le, decodedValuesCacheRef (cells s)),
                    located parseQueryString s)
      | None => recompute codecs m (current_query parseQueryString s)
                  (located parseQueryString s)
      end
    else recompute codecs m (current_query parseQueryString s)
           (located parseQueryString s).
Proof.
  apply getLatest_unfold; [apply located_eq|].
  apply (gr_cells _ _ (located_grown s)).
Qed.

(** [getLatestDecodedValues] only grows the heap, the parser's table and
    the codec trace; in particular it writes to no cell. *)
Lemma getLatest_grown m s x s' :
  getLatestDecodedValues parseQueryString codecs m s = (x, s') -> grown s s'.
Proof.
  rewrite getLatest_cases. pose proof (located_grown s) as Hl.
  destruct (unchanged_inputs _ _ _);
    [destruct (encodedValuesCacheRef (cells s))|].
  - by intros [= <- <-].
  - intros H%recompute_grown. by eapply grown_trans.
  - intros H%recompute_grown. by eapply grown_trans.
Qed.

End Frames.

(** ** Render and commit *)

Section Render.
Variable parseQueryString : string -> gmap string raw.
Variable codecs : nat -> option codec.

Lemma commit_eq r s : commit r s = (Ok tt, with_cells (committed r) s).
Proof.
  unfold commit, useUpdateRefIfShallowNew, bind, gets, modify, ret, committed.
  destruct r as [pq m e d]. destruct s as [h q c dl u [mt pv cf pr en de]].
  simpl.
  repeat (case_decide; simpl in *; subst); reflexivity.
Qed.

Lemma render_mounted c s :
  mounted (cells s) = true ->
  useQueryParams parseQueryString codecs c s =
    match getLatestDecodedValues parseQueryString codecs
            (memoized parseQueryString s c) (located parseQueryString s) with
    | (Ok (e, d), s') =>
        (Ok (Rendered (current_query parseQueryString s)
               (memoized parseQueryString s c) e d), s')
    | (Throw e, s') => (Throw e, s')
    end.
Proof.
  intros Hm. unfold useQueryParams, getLocationSearch.
  unfold bind at 1 2. unfold gets at 1. simpl. rewrite located_eq.
  pose proof (gr_cells _ _ (located_grown parseQueryString s)) as Hc.
  unfold useRef_cells, usePreviousIfShallowEqual.
  unfold bind at 1 2 3 4 5. unfold gets at 1 2 3. simpl.
  rewrite Hc, Hm. unfold ret at 1 2. simpl. rewrite Hc.
  unfold memoized. rewrite Hm. unfold bind.
  destruct (getLatestDecodedValues _ _ _ _) as [[[e d]|e] s']; reflexivity.
Qed.

Lemma render_unmounted c s :
  mounted (cells s) = false ->
  useQueryParams parseQueryString codecs c s =
    match getLatestDecodedValues parseQueryString codecs c
            (first_render_state parseQueryString c s) with
    | (Ok (e, d), s') =>
        (Ok (Rendered (current_query parseQueryString s) c e d), s')
    | (Throw e, s') => (Throw e, s')
    end.
Proof.
  intros Hm. unfold useQueryParams, getLocationSearch.
  unfold bind at 1 2. unfold gets at 1. simpl. rewrite located_eq.
  pose proof (gr_cells _ _ (located_grown parseQueryString s)) as Hc.
  unfold useRef_cells, usePreviousIfShallowEqual.
  unfold bind at 1 2 3 4 5. unfold gets at 1 2 3. simpl.
  rewrite Hc, Hm. unfold bind at 1. unfold new_object, modify. simpl.
  rewrite shallowEqual_refl. unfold ret at 1. unfold first_render_state, bind.
  destruct (getLatestDecodedValues _ _ _ _) as [[[e d]|e] s']; reflexivity.
Qed.

End Render.

(** ** What a render does *)

Lemma new_calls_app s s' L :
  decodeCalls s' = decodeCalls s ++ L -> new_calls s s' = L.
Proof. intros H. unfold new_calls. rewrite H. apply drop_app_length. Qed.

Lemma shallowEqual_extends_true h h' a b :
  extends h h' -> shallowEqual h a b = true -> shallowEqual h' a b = true.
Proof.
  intros Hext. rewrite !shallowEqual_true.
  intros [->|(la & lb & o & -> & -> & Ha & Hb)]; [by left|].
  right. exists la, lb, o. split_and!; eauto.
Qed.

(** Two shallow-equal references, one of which is an object, are objects
    with the same contents. *)
Lemma shallowEqual_content h a b o :
  shallowEqual h (VObj a) (VObj b) = true ->
  h !! b = Some o -> h !! a = Some o.
Proof.
  rewrite shallowEqual_true.
  intros [[= ->]|(la & lb & o' & [= ->] & [= ->] & Ha & Hb)]; [done|].
  congruence.
Qed.

Lemma field_lookup (o : object) k : is_Some (o !! k) -> o !! k = Some (field o k).
Proof. intros [v Hv]. unfold field. by rewrite Hv. Qed.

Lemma prop_lookup h l o k : h !! l = Some o -> prop h l k = field o k.
Proof. intros H. unfold prop. by rewrite H. Qed.

Section RenderSpec.
Variable parseQueryString : string -> gmap string raw.
Variable codecs : nat -> option codec.

Lemma located_parser_closed s :
  (forall q l, parserCache s !! q = Some l -> closed_at (heap s) l) ->
  forall q l, parserCache (located parseQueryString s) !! q = Some l ->
              closed_at (heap (located parseQueryString s)) l.
Proof.
  intros Hclosed q l.
  destruct (parser_spec parseQueryString (search s) s)
    as (pq & s1 & Hp & _ & _ & _ & _ & Hext & Hcache & Hhit & Hmiss).
  rewrite located_eq in Hp. injection Hp as Hpq Hs1.
  rewrite Hs1, Hcache.
  destruct (decide (search s = q)) as [<-|Hne].
  - rewrite lookup_insert_eq. intros [= <-].
    destruct (parserCache s !! search s) as [l|] eqn:Hq.
    + rewrite (Hhit ltac:(eauto)) in Hcache |- *.
      apply (Hclosed (search s)). rewrite Hcache. by rewrite lookup_insert_eq.
    + by apply Hmiss.
  - rewrite lookup_insert_ne by done. intros Hl.
    eapply closed_at_extends; eauto.
Qed.

Lemma current_query_closed s :
  (forall q l, parserCache s !! q = Some l -> closed_at (heap s) l) ->
  closed_at (heap (located parseQueryString s)) (current_query parseQueryString s).
Proof.
  intros H. eapply located_parser_closed; [done|]. apply located_cache.
Qed.

(** The recompute path yields a closed encoded map, every raw value of
    which is shallow-equal to the one in the parsed query. *)
Lemma recomputed_encoded pq s e d s' om :
  closed_at (heap s) pq ->
  (forall le, encodedValuesCacheRef (cells s) = Some le -> closed_at (heap s) le) ->
  recomputed codecs s om pq (Ok (e, d)) s' ->
  exists oe, heap s' !! e = Some oe /\ closed (heap s') oe /\
    forall k, k ∈ dom om ->
      shallowEqual (heap s') (field oe k) (prop (heap s') pq k) = true.
Proof.
  intros Hpq Hle (L & Hev & HL & oe & od & ? & He & ? & ? & Hdoe & ? & Hkeys & ?).
  pose proof (ev_heap _ _ _ _ Hev) as Hext.
  assert (forall k, valid_value (heap s) (cached_raw (heap s) (cells s) k)) as Hvc.
  { intros k. unfold cached_raw.
    destruct (encodedValuesCacheRef (cells s)) as [le|] eqn:Hc; [|done].
    apply valid_value_prop. by apply Hle. }
  assert (forall k, k ∈ dom om ->
            field oe k = prop (heap s) pq k \/
            (field oe k = cached_raw (heap s) (cells s) k /\
             shallowEqual (heap s) (cached_raw (heap s) (cells s) k)
               (prop (heap s) pq k) = true)) as Hcase.
  { intros k Hk. specialize (Hkeys k Hk). unfold field.
    destruct (needs_decode s pq k) eqn:Hn.
    - destruct Hkeys as [-> _]. by left.
    - destruct Hkeys as (-> & _). right. split; [done|].
      unfold needs_decode in Hn. by apply negb_false_iff in Hn. }
  assert (is_Some (heap s !! pq)) as Hpq' by (destruct Hpq as (?&?&?); eauto).
  exists oe. split; [done|]. split.
  - intros k v Hk.
    assert (k ∈ dom om) as Hkd by (rewrite <- Hdoe; apply elem_of_dom; eauto).
    assert (field oe k = v) as <- by (unfold field; by rewrite Hk).
    eapply valid_value_extends; [exact Hext|].
    destruct (Hcase k Hkd) as [->|[-> _]]; [by apply valid_value_prop|done].
  - intros k Hk. rewrite (prop_extends _ _ _ _ Hext Hpq').
    destruct (Hcase k Hk) as [->|[-> Hsh]]; [apply shallowEqual_refl|].
    by eapply shallowEqual_extends_true.
Qed.


Lemma located_calls s :
  decodeCalls (located parseQueryString s) = decodeCalls s.
Proof.
  destruct (parser_spec parseQueryString (search s) s)
    as (? & ? & Hp & _ & _ & Hdc & _).
  rewrite located_eq in Hp. by injection Hp as _ <-.
Qed.

Lemma render_post_intro s oc L x s' :
  render_outcome parseQueryString codecs s oc L x s' ->
  render_post parseQueryString codecs s oc x s'.
Proof.
  intros H. unfold render_post.
  destruct H as (Hc & ?). by rewrite (new_calls_app _ _ _ Hc).
Qed.

Lemma cache_consistent_grown s t :
  (forall q l, parserCache s !! q = Some l -> closed_at (heap s) l) ->
  cache_consistent s -> grown s t -> cache_consistent t.
Proof.
  intros Hparser [Hprev [q Hq] (le & oc & oe & od & Hle & Hoc & Hoe & Hod & Hcl & ? & Hsh)]
         [Hcells ? ? Hext Hcache ?].
  split; rewrite ?Hcells; [done|eauto|].
  exists le, oc, oe, od. split_and!; eauto using closed_extends.
  intros k Hk.
  assert (closed_at (heap s) (parsedQueryRef (cells s))) as Hpq by eauto.
  assert (is_Some (heap s !! parsedQueryRef (cells s))) as Hpq'
    by (destruct Hpq as (?&?&?); eauto).
  rewrite (prop_extends _ _ _ _ Hext Hpq').
  eapply shallowEqual_extends_true; eauto.
Qed.

Lemma render_spec_mounted c s oc x s' :
  consistent s -> mounted (cells s) = true -> heap s !! c = Some oc ->
  useQueryParams parseQueryString codecs c s = (x, s') ->
  render_post parseQueryString codecs s oc x s'.
Proof.
  intros [Hparser Hcc] Hm Hc. specialize (Hcc Hm).
  set (s1 := located parseQueryString s).
  set (pq := current_query parseQueryString s).
  pose proof (located_grown parseQueryString s) as Hgr. fold s1 in Hgr.
  pose proof (current_query_closed s Hparser) as Hpq. fold s1 pq in Hpq.
  pose proof (cache_consistent_grown s s1 Hparser Hcc Hgr) as Hcc1.
  pose proof (gr_cells _ _ Hgr) as Hcells.
  pose proof (gr_heap _ _ Hgr) as Hext.
  destruct (located_idem parseQueryString s) as [Hl1 Hq1]. fold s1 pq in Hl1, Hq1.
  set (m := memoized parseQueryString s c).
  assert (heap s1 !! m = Some oc) as Hmo.
  { unfold m, memoized. rewrite Hm. fold s1.
    destruct (shallowEqual _ _ _) eqn:Hsh; [|by apply Hext].
    eapply shallowEqual_content; [exact Hsh|by apply Hext]. }
  rewrite render_mounted by done. fold s1 pq m.
  rewrite getLatest_cases. rewrite Hl1, Hq1, Hcells.
  destruct Hcc1 as [Hprev1 _ (le & ocr & oe & od & Hle & Hocr & Hoe & Hod & Hcl & Hde & Hsh)].
  rewrite Hcells in Hle, Hocr, Hod, Hsh, Hprev1.
  assert (forall k, redecodes parseQueryString s k =
                    needs_decode s1 pq k) as Hred.
  { intros k. unfold redecodes, needs_decode, render_cached_raw.
    fold s1 pq. by rewrite Hm, Hcells. }
  rewrite Hle.
  destruct (unchanged_inputs s1 m pq) eqn:Hun.
  - (* early return *)
    intros [= <- <-]. apply (render_post_intro _ _ []).
    unfold unchanged_inputs in Hun. apply andb_true_iff in Hun as [Hq Hcfg].
    apply bool_decide_eq_true in Hq. rewrite Hcells in Hq, Hcfg.
    assert (ocr = oc) as ->.
    { apply (shallowEqual_content _ _ _ oc) in Hcfg; [|done]. congruence. }
    assert (forall k, k ∈ dom oc -> redecodes parseQueryString s k = false) as Hno.
    { intros k Hk. rewrite Hred. unfold needs_decode, cached_raw.
      rewrite Hcells, Hle, (prop_lookup _ _ _ _ Hoe), <- Hq.
      apply negb_false_iff. by apply Hsh. }
    unfold render_outcome. fold s1 pq.
    split; [by rewrite app_nil_r; apply located_calls|].
    split; [done|]. split; [apply extends_refl|]. split.
    { intros k v Hk. by apply elem_of_nil in Hk. }
    simpl. split; [done|]. exists oe, od.
    split; [done|]. split; [done|]. split; [done|]. split; [done|].
    split; [done|]. split; [|split].
    { intros Hkeys.
      destruct Hcc as [_ _ (le0 & oc0 & oe0 & od0 & _ & Hoc0 & _ & Hod0 & _)].
      specialize (Hkeys Hm od0 oc0 Hod0 Hoc0).
      apply Hext in Hod0, Hoc0.
      assert (od0 = od) as -> by congruence.
      assert (oc0 = oc) as -> by congruence. done. }
    { intros k Hk. rewrite (Hno k Hk).
      unfold render_cached_raw, render_cached_decoded, cached_raw.
      rewrite Hm, Hle, (prop_lookup _ _ _ _ Hoe), (prop_lookup _ _ _ _ Hod).
      split_and!.
      - apply field_lookup, elem_of_dom. by rewrite Hde.
      - done.
      - simpl. apply not_elem_of_nil. }
    { intros k v Hk. by apply elem_of_nil in Hk. }
  - (* recompute *)
    destruct (recompute codecs m pq s1) as [r s2] eqn:Hrec.
    pose proof Hrec as Hspec.
    apply (recompute_spec codecs m pq s1 r s2 oc) in Hspec; try done.
    2:{ rewrite Hcells. eauto. }
    2:{ intros le' Hle'. rewrite Hcells, Hle in Hle'. injection Hle' as <-.
        exists oe. eauto. }
    destruct Hspec as (L & Hev & HL & Hr).
    assert (decodeCalls s2 = decodeCalls s ++ L) as Hcalls.
    { rewrite (ev_calls _ _ _ _ Hev). unfold s1. by rewrite located_calls. }
    destruct r as [[e d]|e]; intros [= <- <-];
      apply (render_post_intro _ _ L); unfold render_outcome; fold s1 pq;
      (split; [done|]; split; [apply (ev_parser _ _ _ _ Hev)|];
       split; [apply (ev_heap _ _ _ _ Hev)|];
       split; [intros k v Hin; rewrite Hred; by apply HL|]).
    + simpl. split; [done|].
      destruct (recomputed_encoded pq s1 e d s2 oc) as (oe' & He' & Hcl' & _).
      { done. }
      { intros le' Hle'. rewrite Hcells, Hle in Hle'. injection Hle' as <-.
        exists oe. eauto. }
      { exists L. eauto. }
      destruct Hr as (oe2 & od2 & ? & He2 & Hd2 & ? & ? & ? & Hkeys & ?).
      rewrite He' in He2. injection He2 as <-.
      exists oe', od2. split_and!; try done.
      * by apply (ev_heap _ _ _ _ Hev).
      * intros k Hk. rewrite Hred. specialize (Hkeys k Hk).
        unfold render_cached_raw, render_cached_decoded. rewrite Hm.
        rewrite Hcells in Hkeys.
        destruct (needs_decode s1 pq k); [done|].
        destruct Hkeys as (? & Hk2 & ?). split_and!; try done.
        unfold field. by rewrite Hk2.
    + simpl. unfold render_failed, decode_failed in *. fold s1 pq.
      by setoid_rewrite Hred.
Qed.


Lemma render_spec_unmounted c s oc x s' :
  (forall q l, parserCache s !! q = Some l -> closed_at (heap s) l) ->
  mounted (cells s) = false -> heap s !! c = Some oc ->
  useQueryParams parseQueryString codecs c s = (x, s') ->
  render_post parseQueryString codecs s oc x s'.
Proof.
  intros Hparser Hm Hc.
  set (s1 := located parseQueryString s).
  set (pq := current_query parseQueryString s).
  pose proof (located_grown parseQueryString s) as Hgr. fold s1 in Hgr.
  pose proof (current_query_closed s Hparser) as Hpq. fold s1 pq in Hpq.
  pose proof (gr_heap _ _ Hgr) as Hext.
  rewrite render_unmounted by done. fold pq.
  set (s2 := first_render_state parseQueryString c s).
  assert (extends (heap s1) (heap s2)) as Hext2 by apply extends_app.
  assert (parserCache s2 !! search s2 = Some pq) as Hhit.
  { unfold s2, first_render_state. simpl. fold s1.
    rewrite (gr_search _ _ Hgr). apply located_cache. }
  destruct (located_hit parseQueryString s2 pq Hhit) as [Hl2 Hq2].
  rewrite getLatest_cases, Hl2, Hq2.
  assert (unchanged_inputs s2 c pq = true) as ->.
  { unfold unchanged_inputs. simpl. rewrite shallowEqual_refl.
    by rewrite bool_decide_eq_true_2. }
  simpl.
  assert (is_Some (heap s1 !! pq)) as Hpq' by (destruct Hpq as (?&?&?); eauto).
  assert (forall k, prop (heap s2) pq k = prop (heap s1) pq k) as Hrpq.
  { intros k. by apply prop_extends. }
  assert (forall k, redecodes parseQueryString s k = needs_decode s2 pq k) as Hred.
  { intros k. unfold redecodes, needs_decode, render_cached_raw, cached_raw.
    fold s1 pq. rewrite Hm, Hrpq. simpl. apply (f_equal negb). symmetry.
    apply shallowEqual_extends; [done|done|by apply valid_value_prop]. }
  destruct (recompute codecs c pq s2) as [r s3] eqn:Hrec.
  pose proof Hrec as Hspec.
  apply (recompute_spec codecs c pq s2 r s3 oc) in Hspec.
  2:{ by apply Hext2, Hext. }
  2:{ by eapply closed_at_extends. }
  2:{ simpl. rewrite list_lookup_middle; eauto. }
  2:{ simpl. intros le [=]. }
  destruct Hspec as (L & Hev & HL & Hr).
  assert (decodeCalls s3 = decodeCalls s ++ L) as Hcalls.
  { rewrite (ev_calls _ _ _ _ Hev). simpl. fold s1. unfold s1.
    by rewrite located_calls. }
  assert (extends (heap s1) (heap s3)) as Hext3.
  { eapply extends_trans; [exact Hext2|apply (ev_heap _ _ _ _ Hev)]. }
  destruct r as [[e d]|e]; intros [= <- <-];
    apply (render_post_intro _ _ L); unfold render_outcome; fold s1 pq;
    (split; [done|]; split; [apply (ev_parser _ _ _ _ Hev)|];
     split; [done|];
     split; [intros k v Hin; rewrite Hred, <- Hrpq; by apply HL|]).
  - simpl. split; [done|].
    destruct (recomputed_encoded pq s2 e d s3 oc) as (oe' & He' & Hcl' & _).
    { by eapply closed_at_extends. }
    { simpl. intros le [=]. }
    { exists L. eauto. }
    destruct Hr as (oe2 & od2 & ? & He2 & Hd2 & ? & ? & ? & Hkeys & ?).
    rewrite He' in He2. injection He2 as <-.
    exists oe', od2. split_and!; try done.
    + apply (ev_heap _ _ _ _ Hev). by apply Hext2, Hext.
    + intros k Hk. rewrite Hred, <- Hrpq. specialize (Hkeys k Hk).
      unfold render_cached_raw, render_cached_decoded. rewrite Hm.
      destruct (needs_decode s2 pq k); [done|].
      destruct Hkeys as (Hk1 & Hk2 & Hk3). split_and!; try done.
      unfold field. rewrite Hk2. simpl. unfold prop.
      by rewrite list_lookup_middle.
  - simpl. unfold render_failed, decode_failed in *. fold s1 pq.
    setoid_rewrite Hred. by setoid_rewrite <- Hrpq.
Qed.

(** The render, specified for every state the invariant covers. *)
Lemma render_spec c s oc x s' :
  consistent s -> heap s !! c = Some oc ->
  useQueryParams parseQueryString codecs c s = (x, s') ->
  render_post parseQueryString codecs s oc x s'.
Proof.
  intros Hs Hc. destruct (mounted (cells s)) eqn:Hm.
  - by apply render_spec_mounted.
  - apply render_spec_unmounted; try done. apply Hs.
Qed.

End RenderSpec.

(** ** Frames of the render and of the setter *)

Section Frames2.
Variable parseQueryString : string -> gmap string raw.
Variable codecs : nat -> option codec.

Lemma render_frame c s x s' :
  useQueryParams parseQueryString codecs c s = (x, s') ->
  mounted (cells s') = mounted (cells s) /\
  search s' = search s /\
  locationUpdates s' = locationUpdates s /\
  extends (heap s) (heap s') /\
  (mounted (cells s) = true -> grown s s').
Proof.
  pose proof (located_grown parseQueryString s) as Hgr.
  destruct (mounted (cells s)) eqn:Hm.
  - rewrite render_mounted by done.
    destruct (getLatestDecodedValues _ _ _ _) as [r s2] eqn:Hl.
    apply getLatest_grown in Hl.
    pose proof (grown_trans _ _ _ Hgr Hl) as Hg. intros Heq.
    assert (s' = s2) as -> by (destruct r as [[? ?]|?]; congruence).
    pose proof Hg as [Hc ? ? ? ? ?]. rewrite Hc. by split_and!.
  - rewrite render_unmounted by done.
    destruct (getLatestDecodedValues _ _ _ _) as [r s2] eqn:Hl.
    apply getLatest_grown in Hl. intros Heq.
    assert (s' = s2) as -> by (destruct r as [[? ?]|?]; congruence).
    destruct Hl as [Hc Hs Hu Hh ? ?], Hgr as [? Hs1 Hu1 Hh1 ? ?].
    rewrite Hc, Hs, Hu. simpl. split_and!; try done.
    eapply extends_trans; [exact Hh1|].
    eapply extends_trans; [|exact Hh]. apply extends_app.
Qed.

(** *** The setter's frame *)

Lemma encode_param_evolved cfg v s x s' :
  encode_param codecs cfg v s = (x, s') -> evolved (heap s) s [] s'.
Proof.
  unfold encode_param.
  destruct cfg; try (intros [= <- <-]; apply evolved_refl, extends_refl).
  destruct (codecs c); [|intros [= <- <-]; apply evolved_refl, extends_refl].
  unfold bind, gets. simpl. intros H. by apply call_spec in H as [H _].
Qed.

Lemma encode_loop_frame hb s0 m query enc names : forall t x t',
  hb !! enc = None ->
  evolved hb s0 [] t ->
  for_of names (fun paramName =>
    let* decodedValue := get_prop query paramName in
    let* paramConfig := get_prop m paramName in
    let* encodedValue := encode_param codecs paramConfig decodedValue in
    set_prop enc paramName encodedValue) t = (x, t') ->
  evolved hb s0 [] t'.
Proof.
  induction names as [|k names IH]; intros t x t' Henc Hev; simpl.
  - by intros [= <- <-].
  - unfold bind at 1. unfold bind at 1 2 3. unfold get_prop, gets. simpl.
    destruct (encode_param codecs _ _ t) as [r t1] eqn:Hen.
    apply encode_param_evolved in Hen.
    pose proof (evolved_trans _ _ _ _ _ _ Hev Hen) as Hev1. simpl in Hev1.
    destruct r as [v|e]; [|by intros [= <- <-]].
    unfold set_prop, modify. simpl. apply IH; [done|].
    destruct Hev1. split; simpl; try done. by apply extends_alter.
Qed.

Lemma encodeQueryParams_evolved m query s x s' :
  encodeQueryParams codecs m query s = (x, s') -> evolved (heap s) s [] s'.
Proof.
  unfold encodeQueryParams. unfold bind at 1 2. unfold new_object, gets. simpl.
  unfold bind at 1.
  destruct (for_of _ _ _) as [r t1] eqn:Hloop.
  apply (encode_loop_frame (heap s) s) in Hloop.
  - destruct r; unfold ret; by intros [= <- <-].
  - apply lookup_ge_None. lia.
  - split; simpl; rewrite ?app_nil_r; try done. apply extends_app.
Qed.

(** [getLatestDecodedValues], relative to the state in which the location
    has been parsed. *)
Lemma getLatest_evolved m s x s' :
  getLatestDecodedValues parseQueryString codecs m s = (x, s') ->
  exists L, evolved (heap (located parseQueryString s))
              (located parseQueryString s) L s'.
Proof.
  rewrite getLatest_cases.
  destruct (unchanged_inputs _ _ _);
    [destruct (encodedValuesCacheRef (cells s))|].
  - intros [= <- <-]. exists []. apply evolved_refl, extends_refl.
  - apply recompute_evolved.
  - apply recompute_evolved.
Qed.

(** With the config map the cells hold, it makes no difference whether
    the location was parsed beforehand. *)
Lemma getLatest_located s :
  getLatestDecodedValues parseQueryString codecs (paramConfigMapRef (cells s))
    (located parseQueryString s) =
  getLatestDecodedValues parseQueryString codecs (paramConfigMapRef (cells s)) s.
Proof.
  rewrite !getLatest_cases.
  destruct (located_idem parseQueryString s) as [-> ->].
  rewrite (gr_cells _ _ (located_grown parseQueryString s)).
  unfold unchanged_inputs.
  rewrite (gr_cells _ _ (located_grown parseQueryString s)).
  by rewrite !shallowEqual_refl.
Qed.

Lemma parser_closed_evolved s L s' :
  (forall q l, parserCache s !! q = Some l -> closed_at (heap s) l) ->
  evolved (heap s) s L s' ->
  forall q l, parserCache s' !! q = Some l -> closed_at (heap s') l.
Proof.
  intros Hp [? ? ? Hc Hh ?] q l. rewrite Hc. intros Hq.
  eapply closed_at_extends; eauto.
Qed.

End Frames2.

(** ** The invariant is kept *)

Section Invariant.
Variable parseQueryString : string -> gmap string raw.
Variable codecs : nat -> option codec.

Lemma consistent_initial h q : consistent (initial h q).
Proof. split; [|done]. simpl. intros q' l. by rewrite lookup_empty. Qed.

Lemma consistent_grown s t :
  consistent s -> grown s t ->
  (forall q l, parserCache t !! q = Some l -> closed_at (heap t) l) ->
  consistent t.
Proof.
  intros [Hp Hc] Hg Hpt. split; [done|].
  rewrite (gr_cells _ _ Hg). intros Hm.
  eapply cache_consistent_grown; [exact Hp|by apply Hc|exact Hg].
Qed.

Lemma consistent_navigate s q : consistent s -> consistent (with_search q s).
Proof.
  intros [Hp Hc]. split; [done|]. simpl. intros Hm.
  destruct (Hc Hm) as [? ? ?]. by split.
Qed.

Lemma consistent_allocate s o :
  consistent s -> consistent (with_heap (heap s ++ [o]) s).
Proof.
  intros Hs. eapply consistent_grown; [done| |].
  - split; simpl; try done; [apply extends_app|]. exists []. by rewrite app_nil_r.
  - simpl. intros q l Hq. eapply closed_at_extends; [apply extends_app|].
    by eapply Hs.
Qed.

Lemma render_parser_closed s oc x s' :
  consistent s ->
  render_post parseQueryString codecs s oc x s' ->
  forall q l, parserCache s' !! q = Some l -> closed_at (heap s') l.
Proof.
  intros Hs (_ & Hcache & Hext & _) q l. rewrite Hcache. intros Hq.
  eapply closed_at_extends; [exact Hext|].
  eapply located_parser_closed; [apply Hs|done].
Qed.

Lemma consistent_render c s x s' :
  consistent s -> is_Some (heap s !! c) ->
  useQueryParams parseQueryString codecs c s = (x, s') ->
  consistent s'.
Proof.
  intros Hs [oc Hc] Hr.
  pose proof (render_spec parseQueryString codecs c s oc x s' Hs Hc Hr) as Hpost.
  pose proof (render_parser_closed s oc x s' Hs Hpost) as Hp.
  destruct (render_frame parseQueryString codecs c s x s' Hr)
    as (Hm & _ & _ & _ & Hg).
  split; [done|]. rewrite Hm. intros Hm'.
  eapply cache_consistent_grown; [apply Hs|by apply Hs|by apply Hg].
Qed.

Lemma consistent_evaluate c s r s' :
  consistent s -> is_Some (heap s !! c) ->
  evaluate parseQueryString codecs c s = (Ok r, s') ->
  consistent s'.
Proof.
  intros Hs [oc Hc]. unfold evaluate. unfold bind at 1.
  destruct (useQueryParams parseQueryString codecs c s) as [[r1|e] s1] eqn:Hr;
    [|done].
  unfold bind. rewrite commit_eq. unfold ret. intros [= <- <-].
  pose proof (render_spec parseQueryString codecs c s oc _ _ Hs Hc Hr) as Hpost.
  pose proof (render_parser_closed s oc _ _ Hs Hpost) as Hp.
  split; [done|]. intros _.
  destruct Hpost as (_ & Hcache & Hext & _ & Hpq & oe & od & He & Hd & Hm & Hcl
                     & Hde & _ & Hkeys & _).
  set (sl := located parseQueryString s) in *.
  set (pq := current_query parseQueryString s) in *.
  assert (closed_at (heap sl) pq) as Hcpq by (apply current_query_closed, Hs).
  assert (is_Some (heap sl !! pq)) as Hpq' by (destruct Hcpq as (?&?&?); eauto).
  split; simpl.
  - done.
  - exists (search s). rewrite Hcache, Hpq. apply located_cache.
  - exists (r_encodedValues r1), oc, oe, od. split_and!; try done.
    intros k Hk. rewrite Hpq, (prop_extends _ _ _ _ Hext Hpq').
    specialize (Hkeys k Hk). unfold field.
    destruct (redecodes parseQueryString s k) eqn:Hred.
    + destruct Hkeys as [-> _]. apply shallowEqual_refl.
    + destruct Hkeys as (-> & _). simpl.
      unfold redecodes in Hred. apply negb_false_iff in Hred.
      by eapply shallowEqual_extends_true.
Qed.


Lemma consistent_evolved s L s' :
  consistent s -> evolved (heap s) s L s' -> consistent s'.
Proof.
  intros Hs Hev. eapply consistent_grown; [done|by eapply evolved_grown|].
  eapply parser_closed_evolved; [apply Hs|done].
Qed.

Lemma consistent_with_updates s u :
  consistent s -> consistent (with_locationUpdates u s).
Proof.
  intros [Hp Hc]. split; [done|]. simpl. intros Hm.
  destruct (Hc Hm) as [? ? ?]. by split.
Qed.

Lemma consistent_getLatest m s x s' :
  consistent s ->
  getLatestDecodedValues parseQueryString codecs m s = (x, s') ->
  consistent s'.
Proof.
  intros Hs Hl. pose proof (getLatest_grown _ _ _ _ _ _ Hl) as Hg.
  apply getLatest_evolved in Hl as [L Hev].
  eapply consistent_grown; [done|done|].
  eapply parser_closed_evolved; [|exact Hev].
  apply located_parser_closed, Hs.
Qed.

(** The decoded values [getLatestDecodedValues] returns are an object of
    the heap, whatever config map the closure was created for. *)
Lemma getLatest_decoded_valid m s e d s1 :
  consistent s -> mounted (cells s) = true -> is_Some (heap s !! m) ->
  getLatestDecodedValues parseQueryString codecs m s = (Ok (e, d), s1) ->
  is_Some (heap s1 !! d).
Proof.
  intros Hs Hm [om Hom]. rewrite getLatest_cases.
  pose proof (located_grown parseQueryString s) as Hgr.
  pose proof (cache_consistent_grown _ _ (co_parser _ Hs) (co_cells _ Hs Hm) Hgr)
    as [_ _ (le & oc & oe & od & Hle & _ & Hoe & Hod & Hcl & _)].
  rewrite (gr_cells _ _ Hgr) in Hle, Hod.
  assert (recompute codecs m (current_query parseQueryString s)
            (located parseQueryString s) = (Ok (e, d), s1) ->
          is_Some (heap s1 !! d)) as Hrec.
  { intros Hr.
    apply (recompute_spec codecs m _ _ _ _ om) in Hr.
    - destruct Hr as (_ & _ & _ & _ & od' & _ & _ & ? & _). eauto.
    - by apply (gr_heap _ _ Hgr).
    - apply current_query_closed, Hs.
    - rewrite (gr_cells _ _ Hgr). eauto.
    - rewrite (gr_cells _ _ Hgr), Hle. intros ? [= <-]. exists oe. eauto. }
  destruct (unchanged_inputs _ _ _); [|done].
  rewrite Hle. intros [= <- <- <-]. eauto.
Qed.

Lemma consistent_setQuery s m changes updateType x s' :
  consistent s -> mounted (cells s) = true -> is_Some (heap s !! m) ->
  setQuery parseQueryString codecs m changes updateType s = (x, s') ->
  consistent s'.
Proof.
  intros Hs Hm Hvalid. unfold setQuery, setLocation. unfold bind at 1.
  destruct changes as [query|f].
  - (* a plain mapping *)
    unfold bind at 1.
    destruct (encodeQueryParams codecs _ query s) as [r s1] eqn:Hen.
    apply encodeQueryParams_evolved in Hen.
    pose proof (consistent_evolved _ _ _ Hs Hen) as Hs1.
    destruct r as [l|e]; unfold ret, modify; intros [= <- <-]; [|done].
    by apply consistent_with_updates.
  - (* a function of the latest values *)
    unfold bind at 1.
    destruct (getLatestDecodedValues parseQueryString codecs _ s)
      as [[[e d]|err] s1] eqn:Hl.
    2:{ intros [= <- <-]. by eapply consistent_getLatest. }
    pose proof (consistent_getLatest _ _ _ _ Hs Hl) as Hs1.
    destruct (getLatest_decoded_valid m s e d s1 Hs Hm Hvalid Hl) as [od' Hd].
    unfold bind at 1 2. unfold modify, gets. simpl.
    set (s2 := with_cells (set_decodedValuesCacheRef d (cells s1)) s1).
    assert (consistent s2) as Hs2.
    { destruct Hs1 as [Hp1 Hc1]. split; [done|]. simpl. intros Hm1.
      destruct (Hc1 Hm1) as [Hprev Hq (le1 & oc1 & oe1 & od1 & ? & ? & ? & ? & ? & ? & ?)].
      split; simpl; [done|done|].
      exists le1, oc1, oe1, od'. by split_and!. }
    destruct (call (f (heap s1) (VObj d)) s2) as [r s3] eqn:Hcall.
    apply call_spec in Hcall as [Hev _].
    pose proof (consistent_evolved _ _ _ Hs2 Hev) as Hs3.
    destruct r as [v|e']; intros [= <- <-]; [|done].
    by apply consistent_with_updates.
Qed.

(** Every state the host can bring the hook into is consistent. *)
Lemma reachable_consistent s :
  reachable parseQueryString codecs s -> consistent s.
Proof.
  induction 1 as [h q|s s' _ IH Hstep].
  - apply consistent_initial.
  - destruct Hstep.
    + by eapply consistent_evaluate.
    + by eapply consistent_render.
    + by apply consistent_navigate.
    + by apply consistent_allocate.
    + by eapply consistent_setQuery.
Qed.

End Invariant.

(** ** Stability of references *)

Section Stability.
Variable parseQueryString : string -> gmap string raw.
Variable codecs : nat -> option codec.

(** What every render returns and leaves behind, whatever the cells held. *)
Lemma render_shape c s r s' :
  useQueryParams parseQueryString codecs c s = (Ok r, s') ->
  r_parsedQuery r = current_query parseQueryString s /\
  r_paramConfigMap r = memoized parseQueryString s c /\
  parserCache s' !! search s' = Some (current_query parseQueryString s) /\
  extends (heap (located parseQueryString s)) (heap s').
Proof.
  pose proof (located_grown parseQueryString s) as Hgr.
  pose proof (located_cache parseQueryString s) as Hcache.
  destruct (mounted (cells s)) eqn:Hm.
  - rewrite render_mounted by done.
    destruct (getLatestDecodedValues _ _ _ _) as [[[e d]|e] s2] eqn:Hl; [|done].
    intros [= <- <-]. simpl.
    apply getLatest_evolved in Hl as [L Hev].
    destruct (located_idem parseQueryString s) as [Hl1 _].
    rewrite Hl1 in Hev. destruct Hev as [_ Hs _ Hp Hh _].
    rewrite Hs, Hp, (gr_search _ _ Hgr). done.
  - rewrite render_unmounted by done.
    set (s2 := first_render_state parseQueryString c s).
    destruct (getLatestDecodedValues _ _ _ _) as [[[e d]|e] s3] eqn:Hl; [|done].
    intros [= <- <-]. simpl. unfold memoized. rewrite Hm.
    assert (parserCache s2 !! search s2 =
            Some (current_query parseQueryString s)) as Hhit.
    { unfold s2, first_render_state. simpl.
      by rewrite (gr_search _ _ Hgr). }
    apply getLatest_evolved in Hl as [L Hev].
    destruct (located_hit parseQueryString s2 _ Hhit) as [Hl2 _].
    rewrite Hl2 in Hev. destruct Hev as [_ Hs _ Hp Hh _].
    rewrite Hs, Hp. split_and!; try done.
    eapply extends_trans; [|exact Hh]. apply extends_app.
Qed.

Lemma evaluate_inv c s r s' :
  evaluate parseQueryString codecs c s = (Ok r, s') ->
  exists sr, useQueryParams parseQueryString codecs c s = (Ok r, sr) /\
             s' = with_cells (committed r) sr.
Proof.
  unfold evaluate. unfold bind at 1.
  destruct (useQueryParams parseQueryString codecs c s) as [[r1|e] s1] eqn:Hr;
    [|done].
  unfold bind. rewrite commit_eq. unfold ret. intros [= <- <-]. eauto.
Qed.

(** A render that follows a committed evaluation, at the same location and
    with a shallow-equal config map, takes the early return: it hands back
    the very references of the evaluation and changes nothing. *)
Lemma second_render_same s c1 r1 s1 c2 :
  evaluate parseQueryString codecs c1 s = (Ok r1, s1) ->
  shallowEqual (heap s1) (VObj c1) (VObj c2) = true ->
  useQueryParams parseQueryString codecs c2 s1 = (Ok r1, s1).
Proof.
  intros (sr & Hr & ->)%evaluate_inv Hcfg.
  destruct (render_shape _ _ _ _ Hr) as (Hpq & Hmemo & Hcache & Hext).
  set (s1 := with_cells (committed r1) sr) in *.
  assert (parserCache s1 !! search s1 = Some (r_parsedQuery r1)) as Hhit
    by (by rewrite Hpq).
  destruct (located_hit parseQueryString s1 _ Hhit) as [Hl1 Hq1].
  assert (memoized parseQueryString s1 c2 = r_paramConfigMap r1) as Hm2.
  { unfold memoized. rewrite Hl1. simpl.
    assert (shallowEqual (heap sr) (VObj (r_paramConfigMap r1)) (VObj c2) = true)
      as ->; [|done].
    rewrite Hmemo. unfold memoized.
    destruct (mounted (cells s)); [|done].
    destruct (shallowEqual _ _ (VObj c1)) eqn:Hsh; [|done].
    eapply shallowEqual_trans; [|exact Hcfg].
    by eapply shallowEqual_extends_true. }
  rewrite render_mounted by done. rewrite Hm2, Hl1, Hq1.
  rewrite getLatest_cases, Hl1, Hq1.
  unfold unchanged_inputs. simpl.
  rewrite shallowEqual_refl, bool_decide_eq_true_2 by done. simpl.
  by destruct r1.
Qed.


(** C7.  Parser-identity stability: when the location changes to a new
    string with the identical string value and the config map is unchanged,
    the memoized parser yields the same parsed-query reference and the
    decoded-values container of the next evaluation is the same reference
    as before. *)
Theorem parser_identity_stability s c r1 s1 q r2 s2 :
  evaluate parseQueryString codecs c s = (Ok r1, s1) ->
  String.eqb q (search s1) = true ->
  useQueryParams parseQueryString codecs c (with_search q s1) = (r2, s2) ->
  current_query parseQueryString (with_search q s1) = r_parsedQuery r1 /\
  exists r, r2 = Ok r /\ r_decodedValues r = r_decodedValues r1.
Proof.
  intros H1 Hq H2. apply String.eqb_eq in Hq. subst q.
  assert (with_search (search s1) s1 = s1) as Hs by (by destruct s1).
  rewrite Hs in *.
  rewrite (second_render_same s c r1 s1 c H1 (shallowEqual_refl _ _)) in H2.
  injection H2 as <- <-. split; [|eauto].
  destruct (evaluate_inv _ _ _ _ H1) as (sr & Hr & ->).
  destruct (render_shape _ _ _ _ Hr) as (Hpq & _ & Hcache & _).
  assert (parserCache (with_cells (committed r1) sr)
            !! search (with_cells (committed r1) sr)
          = Some (r_parsedQuery r1)) as Hhit by (by rewrite Hpq).
  by destruct (located_hit parseQueryString _ _ Hhit) as [_ ->].
Qed.

(** C8.  The change-detector / decoder pass is read-only over the cache:
    [getLatestDecodedValues] leaves every cell as it is, so does the whole
    render of a mounted instance, and the cells receive the values of the
    evaluation only when it is committed. *)
Theorem evaluation_reads_cache_only :
  (forall m s,
     cells (snd (getLatestDecodedValues parseQueryString codecs m s)) = cells s) /\
  (forall c s, mounted (cells s) = true ->
     cells (snd (useQueryParams parseQueryString codecs c s)) = cells s) /\
  (forall c s r s', evaluate parseQueryString codecs c s = (Ok r, s') ->
     cells s' = committed r /\
     exists sr, useQueryParams parseQueryString codecs c s = (Ok r, sr) /\
                s' = with_cells (committed r) sr).
Proof.
  split_and!.
  - intros m s.
    destruct (getLatestDecodedValues parseQueryString codecs m s) as [x s'] eqn:H.
    apply getLatest_grown in H. apply H.
  - intros c s Hm.
    destruct (useQueryParams parseQueryString codecs c s) as [x s'] eqn:H.
    apply render_frame in H as (_ & _ & _ & _ & Hg). by apply Hg.
  - intros c s r s' (sr & Hr & ->)%evaluate_inv. split; [done|]. eauto.
Qed.

End Stability.

(** ** The encoding loop *)

Section Setter.
Variable codecs : nat -> option codec.

Lemma encoded_entry_extends om h0 h h' k v w :
  extends h h' -> encoded_entry codecs om h0 h k v w ->
  encoded_entry codecs om h0 h' k v w.
Proof.
  intros Hext (c & cd & hc & ? & ? & Hen). exists c, cd, hc.
  split; [done|]. split; [done|].
  destruct (encode cd hc v); [done| |done].
  destruct Hen as (l & ? & ? & ?). exists l. eauto.
Qed.

Lemma encode_body_eq m query enc om oq k c cd t :
  heap t !! m = Some om -> heap t !! query = Some oq ->
  om !! k = Some (VCodec c) -> codecs c = Some cd ->
  (let* decodedValue := get_prop query k in
   let* paramConfig := get_prop m k in
   let* encodedValue := encode_param codecs paramConfig decodedValue in
   set_prop enc k encodedValue) t =
  match call (encode cd (heap t) (field oq k)) t with
  | (Ok w, t1) =>
      (Ok tt, with_heap (alter (fun o : object => <[k := w]> o) enc (heap t1)) t1)
  | (Throw e, t1) => (Throw e, t1)
  end.
Proof.
  intros Hm Hq Hc Hcd. unfold bind, get_prop, gets. simpl.
  rewrite (prop_lookup _ _ _ _ Hq), (prop_lookup _ _ _ _ Hm).
  unfold field at 1. rewrite Hc. simpl. rewrite Hcd. reflexivity.
Qed.

Lemma encode_loop_spec hb he om oq m query enc names :
  hb !! m = Some om -> hb !! query = Some oq -> hb !! enc = None ->
  is_Some (he !! enc) ->
  encodable codecs om oq ->
  forall s0 done oe t,
  (forall k, k ∈ names -> k ∈ dom oq) ->
  evolved hb s0 [] t -> length he <= length (heap t) ->
  heap t !! enc = Some oe ->
  (forall k, is_Some (oe !! k) <-> k ∈ done) ->
  (forall k, k ∈ done -> exists w, oe !! k = Some w /\
      encoded_entry codecs om he (heap t) k (field oq k) w) ->
  exists oe' t',
    for_of names (fun paramName =>
      let* decodedValue := get_prop query paramName in
      let* paramConfig := get_prop m paramName in
      let* encodedValue := encode_param codecs paramConfig decodedValue in
      set_prop enc paramName encodedValue) t = (Ok tt, t') /\
    evolved hb s0 [] t' /\
    heap t' !! enc = Some oe' /\
    (forall k, is_Some (oe' !! k) <-> k ∈ done ++ names) /\
    (forall k, k ∈ done ++ names -> exists w, oe' !! k = Some w /\
        encoded_entry codecs om he (heap t') k (field oq k) w).
Proof.
  intros Hm Hq Henc Hhe Hable. induction names as [|k names IH];
    intros s0 done oe t Hnames Hev Hlen He Hdom Hent; simpl.
  - exists oe, t. rewrite app_nil_r. by split_and!.
  - pose proof (ev_heap _ _ _ _ Hev) as Hext.
    destruct (Hable k) as (c & cd & Hc & Hcd & Hok).
    { apply Hnames. by left. }
    unfold bind at 1.
    rewrite (encode_body_eq m query enc om oq k c cd t) by eauto.
    destruct (call (encode cd (heap t) (field oq k)) t) as [r t1] eqn:Hcall.
    pose proof Hcall as Hspec. apply call_spec in Hspec as [Hev1 Hr].
    pose proof (evolved_trans _ _ _ _ _ _ Hev Hev1) as Hev'. simpl in Hev'.
    pose proof (ev_heap _ _ _ _ Hev1) as Hext1.
    destruct r as [w|e]; [|by destruct (Hok (heap t) e)].
    set (t2 := with_heap _ t1).
    assert (extends (heap t) (heap t1)) as Hx by done.
    assert (length (heap t) <= length (heap t1)) as Hlen1.
    { destruct (heap t !! (length (heap t) - 1)) as [o|] eqn:Hl.
      - apply Hx, lookup_lt_Some in Hl. lia.
      - apply lookup_ge_None in Hl. lia. }
    assert (encoded_entry codecs om he (heap t1) k (field oq k) w) as Hnew.
    { exists c, cd, (heap t). split; [done|]. split; [done|].
      destruct (encode cd (heap t) (field oq k)) as [w'|o|e] eqn:Hen;
        simpl in Hcall.
      - by injection Hcall as <- <-.
      - unfold bind, new_object in Hcall. simpl in Hcall.
        injection Hcall as <- <-. simpl.
        exists (length (heap t)). split; [done|]. split.
        + apply lookup_ge_None. lia.
        + by rewrite list_lookup_middle.
      - done. }
    assert (forall k' v w', encoded_entry codecs om he (heap t1) k' v w' ->
              encoded_entry codecs om he (heap t2) k' v w') as Hkeep.
    { intros k' v w' (c' & cd' & hc & ? & ? & Hen). exists c', cd', hc.
      split; [done|]. split; [done|].
      destruct (encode cd' hc v); [done| |done].
      destruct Hen as (l & ? & Hl0 & Hl). exists l. split; [done|]. split; [done|].
      unfold t2. simpl. rewrite list_lookup_alter_ne; [done|].
      intros <-. destruct Hhe as [? Hhe]. congruence. }
    destruct (IH s0 (done ++ [k]) (<[k := w]> oe) t2) as (oe' & t' & Hrun & ?).
    + intros k' Hk'. apply Hnames. by right.
    + destruct Hev'. split; simpl; try done. by apply extends_alter.
    + unfold t2. simpl. rewrite length_alter. lia.
    + unfold t2. simpl. rewrite list_lookup_alter_eq. by rewrite (Hext1 _ _ He).
    + by apply is_Some_insert_processed.
    + intros k' Hk'. destruct (decide (k = k')) as [<-|Hne].
      * exists w. rewrite lookup_insert_eq. split; [done|]. by apply Hkeep.
      * apply elem_of_app in Hk' as [Hk'|Hk'%list_elem_of_singleton]; [|done].
        destruct (Hent k' Hk') as (w' & ? & ?).
        exists w'. rewrite lookup_insert_ne by done. split; [done|].
        apply Hkeep. by eapply encoded_entry_extends.
    + exists oe', t'. rewrite <- app_assoc in *. by split.
Qed.

End Setter.

(** ** The setter *)

Section SetterClaims.
Variable parseQueryString : string -> gmap string raw.
Variable codecs : nat -> option codec.

(** C6.  Called with a plain partial mapping of decoded values, the setter
    encodes every entry through the [encode] of the corresponding
    parameter's codec in the current param config map, and forwards the
    resulting mapping, a new object with exactly the keys of the given one,
    together with the update-type hint to the location provider.  No cell
    is touched. *)
Theorem plain_setter_encodes_every_entry s m query updateType om oq :
  heap s !! m = Some om -> heap s !! query = Some oq ->
  encodable codecs om oq ->
  exists l oe s',
    setQuery parseQueryString codecs m (ChangesObject query) updateType s
      = (Ok tt, s') /\
    locationUpdates s' = locationUpdates s ++ [(VObj l, updateType)] /\
    heap s !! l = None /\ heap s' !! l = Some oe /\
    dom oe = dom oq /\
    (forall k, k ∈ dom oq -> exists w, oe !! k = Some w /\
       encoded_entry codecs om (heap s) (heap s') k (field oq k) w) /\
    cells s' = cells s.
Proof.
  intros Hm Hq Hable.
  unfold setQuery, setLocation, encodeQueryParams.
  unfold bind at 1 2 3 4. unfold new_object, gets. simpl.
  assert (keys_of (heap s ++ [∅]) query = Object_keys oq) as ->.
  { unfold keys_of. by rewrite (lookup_app_l_Some _ _ _ _ Hq). }
  set (t := with_heap (heap s ++ [∅]) s).
  destruct (encode_loop_spec codecs (heap s) (heap s ++ [∅]) om oq m query
              (length (heap s)) (Object_keys oq) Hm Hq) with (s0 := s)
    (done := @nil string) (oe := (∅ : object)) (t := t)
    as (oe & t' & Hrun & Hev & He & Hdom & Hent).
  - apply lookup_ge_None. lia.
  - rewrite list_lookup_middle; eauto.
  - done.
  - intros k Hk. by apply elem_of_dom, elem_of_Object_keys.
  - split; simpl; rewrite ?app_nil_r; try done. apply extends_app.
  - done.
  - simpl. by rewrite list_lookup_middle.
  - intros k. rewrite lookup_empty, elem_of_nil. split; [by intros [? ?]|done].
  - intros k Hk. by apply elem_of_nil in Hk.
  - unfold bind at 1. rewrite Hrun. unfold bind, ret, modify. simpl.
    exists (length (heap s)), oe. eexists. split; [reflexivity|]. simpl.
    destruct Hev as [Hc ? Hu ? ? ?]. rewrite Hu. split_and!; try done.
    + apply lookup_ge_None. lia.
    + by apply dom_eq_keys.
    + intros k Hk. destruct (Hent k) as (w & Hw & c & cd & h & ? & ? & Hen).
      { simpl. by apply elem_of_Object_keys, elem_of_dom. }
      exists w. split; [done|]. exists c, cd, h. split; [done|]. split; [done|].
      destruct (encode cd h (field oq k)); [done| |done].
      destruct Hen as (l & ? & Hl & ?). exists l. split; [done|]. split; [|done].
      apply lookup_ge_None in Hl. apply lookup_ge_None.
      rewrite length_app in Hl. lia.
Qed.

(** The cells the functional update leaves alone, and the one it writes. *)
Lemma setQuery_function_eq m f updateType s :
  setQuery parseQueryString codecs m (ChangesFunction f) updateType s =
  match getLatestDecodedValues parseQueryString codecs m s with
  | (Ok (_, d), s1) =>
      match call (f (heap s1) (VObj d))
              (with_cells (set_decodedValuesCacheRef d (cells s1)) s1) with
      | (Ok v, s3) =>
          (Ok tt, with_locationUpdates
                    (locationUpdates s3 ++ [(v, updateType)]) s3)
      | (Throw e, s3) => (Throw e, s3)
      end
  | (Throw e, s1) => (Throw e, s1)
  end.
Proof.
  unfold setQuery, setLocation, bind, modify, gets.
  destruct (getLatestDecodedValues parseQueryString codecs m s)
    as [[[e d]|err] s1]; [|done].
  simpl. destruct (call _ _) as [[v|e'] s3]; reflexivity.
Qed.

Lemma functional_update_cells m f updateType s x s' :
  setQuery parseQueryString codecs m (ChangesFunction f) updateType s = (x, s') ->
  mounted (cells s') = mounted (cells s) /\
  previousParamConfigMap (cells s') = previousParamConfigMap (cells s) /\
  parsedQueryRef (cells s') = parsedQueryRef (cells s) /\
  paramConfigMapRef (cells s') = paramConfigMapRef (cells s) /\
  encodedValuesCacheRef (cells s') = encodedValuesCacheRef (cells s) /\
  forall e d s1,
    getLatestDecodedValues parseQueryString codecs m s = (Ok (e, d), s1) ->
    decodedValuesCacheRef (cells s') = d.
Proof.
  rewrite setQuery_function_eq.
  destruct (getLatestDecodedValues parseQueryString codecs m s)
    as [[[e d]|err] s1] eqn:Hl; simpl.
  - pose proof (gr_cells _ _ (getLatest_grown _ _ _ _ _ _ Hl)) as Hc.
    destruct (call _ _) as [r s3] eqn:Hcall.
    apply call_spec in Hcall as [[Hc3 _ _ _ _ _] _]. simpl in Hc3.
    intros Heq.
    assert (cells s' = cells s3) as -> by (destruct r; by injection Heq as <- <-).
    rewrite Hc3, Hc. simpl. split_and!; try done.
    all: by intros ? ? ? [= _ <- _].
  - pose proof (gr_cells _ _ (getLatest_grown _ _ _ _ _ _ Hl)) as Hc.
    intros [= <- <-]. rewrite Hc. by split_and!.
Qed.


End SetterClaims.

(** ** Selective decoding *)

Section DecoderClaims.
Variable parseQueryString : string -> gmap string raw.
Variable codecs : nat -> option codec.

(** The render, specified for every reachable state. *)
Lemma reachable_render s c oc x s' :
  reachable parseQueryString codecs s -> heap s !! c = Some oc ->
  useQueryParams parseQueryString codecs c s = (x, s') ->
  render_post parseQueryString codecs s oc x s'.
Proof.
  intros Hs. apply render_spec. exact (reachable_consistent _ _ _ Hs).
Qed.

(** The keys of what an evaluation returns: [decode] is called for
    parameters of the config map only, the encoded-values mapping has
    exactly the keys of the config map, and so has the decoded-values
    mapping provided the decoded cache had them. *)
Lemma evaluation_keys s c oc x s' :
  reachable parseQueryString codecs s -> heap s !! c = Some oc ->
  useQueryParams parseQueryString codecs c s = (x, s') ->
  (forall k v, (k, v) ∈ new_calls s s' -> k ∈ dom oc) /\
  forall r, x = Ok r ->
    exists oe od,
      heap s' !! r_encodedValues r = Some oe /\
      heap s' !! r_decodedValues r = Some od /\
      dom oe = dom oc /\ (decoded_keys s -> dom od = dom oc).
Proof.
  intros Hs Hc Hr.
  destruct (reachable_render s c oc x s' Hs Hc Hr) as (_ & _ & _ & HL & Hx).
  split.
  - intros k v Hin. by destruct (HL k v Hin).
  - intros r ->. destruct Hx as (_ & oe & od & ? & ? & _ & _ & ? & ? & _).
    eauto 10.
Qed.

(** A committed evaluation leaves a decoded cache with the keys of the
    config map, if it found one. *)
Lemma decoded_keys_evaluate s c r s' :
  reachable parseQueryString codecs s -> is_Some (heap s !! c) ->
  evaluate parseQueryString codecs c s = (Ok r, s') ->
  decoded_keys s -> decoded_keys s'.
Proof.
  intros Hs [oc Hc] (sr & Hr & ->)%evaluate_inv Hkeys _ od oc'. simpl.
  destruct (reachable_render s c oc _ _ Hs Hc Hr)
    as (_ & _ & _ & _ & _ & oe & od' & _ & Hd & Hm & _ & _ & Hdom & _).
  rewrite Hd, Hm. intros [= <-] [= <-]. by apply Hdom.
Qed.

(** The setter of the last committed render keeps that property. *)
Lemma decoded_keys_current_setter s changes updateType x s' :
  reachable parseQueryString codecs s -> mounted (cells s) = true ->
  setQuery parseQueryString codecs (paramConfigMapRef (cells s))
    changes updateType s = (x, s') ->
  decoded_keys s -> decoded_keys s'.
Proof.
  intros Hs Hm Hset Hkeys.
  pose proof (reachable_consistent _ _ _ Hs) as Hcons.
  destruct (co_cells _ Hcons Hm)
    as [Hprev _ (le & oc & oe & od & _ & Hoc & _ & Hod & _)].
  specialize (Hkeys Hm od oc Hod Hoc).
  destruct changes as [query|f].
  - (* a plain mapping: no cell changes *)
    unfold setQuery, setLocation in Hset. unfold bind at 1 2 in Hset.
    destruct (encodeQueryParams codecs _ query s) as [r s1] eqn:Hen.
    apply encodeQueryParams_evolved in Hen as [Hc _ _ _ Hext _].
    assert (cells s' = cells s1 /\ heap s' = heap s1) as [Hc' Hh'].
    { destruct r; unfold ret, modify in Hset; by injection Hset as <- <-. }
    intros _ od' oc'. rewrite Hc', Hh', Hc.
    rewrite (Hext _ _ Hod), (Hext _ _ Hoc). by intros [= <-] [= <-].
  - (* a function: the decoded cell receives the latest values *)
    rewrite setQuery_function_eq in Hset.
    destruct (getLatestDecodedValues parseQueryString codecs _ s)
      as [[[e d]|err] s1] eqn:Hl.
    + assert (memoized parseQueryString s (paramConfigMapRef (cells s))
              = paramConfigMapRef (cells s)) as Hmemo.
      { unfold memoized. rewrite Hm, Hprev. by destruct (shallowEqual _ _ _). }
      pose proof (render_mounted parseQueryString codecs
                    (paramConfigMapRef (cells s)) s Hm) as Hr.
      rewrite Hmemo, getLatest_located, Hl in Hr.
      destruct (reachable_render s _ oc _ _ Hs Hoc Hr)
        as (_ & _ & _ & _ & _ & oe' & od' & _ & Hd & Hmo & _ & _ & Hdom & _).
      simpl in Hd, Hmo.
      pose proof (gr_cells _ _ (getLatest_grown _ _ _ _ _ _ Hl)) as Hc1.
      destruct (call _ _) as [r s3] eqn:Hcall.
      apply call_spec in Hcall as [[Hc3 _ _ _ Hext3 _] _]. simpl in Hc3, Hext3.
      assert (cells s' = cells s3 /\ heap s' = heap s3) as [Hc' Hh'].
      { destruct r; by injection Hset as <- <-. }
      intros _ od2 oc2. rewrite Hc', Hh', Hc3, Hc1. simpl.
      rewrite (Hext3 _ _ Hd), (Hext3 _ _ Hmo). intros [= <-] [= <-].
      apply Hdom. intros _ ? ? ? ?. congruence.
    + injection Hset as <- <-.
      pose proof (getLatest_grown _ _ _ _ _ _ Hl) as [Hc _ _ Hext _ _].
      intros _ od' oc'. rewrite Hc.
      rewrite (Hext _ _ Hod), (Hext _ _ Hoc). by intros [= <-] [= <-].
Qed.





End DecoderClaims.

(** ** The scenarios, on the small host *)

Lemma demo_mounted_reachable c q r :
  is_Some (demo_heap !! c) ->
  evaluate demo_parse demo_codecs c (initial demo_heap q)
    = (Ok r, demo_mounted c q) ->
  reachable demo_parse demo_codecs (demo_mounted c q).
Proof.
  intros Hc He. eapply reachable_step; [apply reachable_initial|].
  eapply step_evaluate; [exact Hc|exact He].
Qed.

Lemma run_eq {A} (m : M A) (s : state) : m s = (fst (m s), snd (m s)).
Proof. by destruct (m s). Qed.

(** Scenario A, first half: with [{page: {decode: Number, encode: String}}]
    and the query [?page=3], the evaluation yields [{page: 3}]. *)
Example scenario_A_evaluation :
  exists r s', evaluate demo_parse demo_codecs 0 (initial demo_heap "?page=3")
                 = (Ok r, s') /\
    heap s' !! r_decodedValues r = Some {[ "page" := VNum 3 ]}.
Proof. eexists _, _. split; [vm_compute; reflexivity|]. vm_compute. reflexivity. Qed.


Lemma parser_identity_stability_witness :
  evaluate demo_parse demo_codecs 0 (initial demo_heap "?page=3")
    = (Ok (Rendered 6 0 9 10), demo_mounted 0 "?page=3") /\
  String.eqb "?page=3" (search (demo_mounted 0 "?page=3")) = true /\
  current_query demo_parse (with_search "?page=3" (demo_mounted 0 "?page=3")) = 6 /\
  exists r,
    fst (useQueryParams demo_parse demo_codecs 0
           (with_search "?page=3" (demo_mounted 0 "?page=3"))) = Ok r /\
    r_decodedValues r = 10.
Proof.
  assert (evaluate demo_parse demo_codecs 0 (initial demo_heap "?page=3")
          = (Ok (Rendered 6 0 9 10), demo_mounted 0 "?page=3")) as H1
    by (vm_compute; reflexivity).
  assert (String.eqb "?page=3" (search (demo_mounted 0 "?page=3")) = true)
    as H2 by (vm_compute; reflexivity).
  split; [exact H1|]. split; [exact H2|].
  exact (parser_identity_stability demo_parse demo_codecs _ 0 _ _ "?page=3" _ _
           H1 H2 (run_eq _ _)).
Defined.

Lemma evaluation_reads_cache_only_witness :
  let s := with_search "?page=5" (demo_mounted 0 "?page=3") in
  mounted (cells s) = true /\
  cells (snd (useQueryParams demo_parse demo_codecs 2 s)) = cells s.
Proof.
  intros s.
  assert (mounted (cells s) = true) as Hm by (vm_compute; reflexivity).
  split; [exact Hm|].
  exact (proj1 (proj2 (evaluation_reads_cache_only demo_parse demo_codecs))
           2 s Hm).
Defined.

(** Scenario A, second half: calling the setter with [{page: 4}] makes the
    location provider receive [{page: "4"}]. *)
Lemma plain_setter_encodes_every_entry_witness :
  exists l oe s',
    setQuery demo_parse demo_codecs 0 (ChangesObject 5) (Some push)
      (demo_mounted 0 "?page=3") = (Ok tt, s') /\
    locationUpdates s' = [(VObj l, Some push)] /\
    heap s' !! l = Some oe /\ oe !! "page" = Some (VStr "4").
Proof.
  destruct (plain_setter_encodes_every_entry demo_parse demo_codecs
              (demo_mounted 0 "?page=3") 0 5 (Some push)
              {[ "page" := VCodec 0 ]} {[ "page" := VNum 4 ]})
    as (l & oe & s' & Hrun & Hup & _ & Hl & _ & Hent & _).
  - vm_compute. reflexivity.
  - vm_compute. reflexivity.
  - intros k Hk. rewrite dom_singleton_L in Hk. apply elem_of_singleton in Hk.
    subst k. exists 0, NumberParam. split; [reflexivity|]. split; [reflexivity|].
    intros h e. discriminate.
  - exists l, oe, s'. split; [exact Hrun|]. split; [exact Hup|]. split; [exact Hl|].
    destruct (Hent "page") as (w & Hw & c & cd & h & Hc & Hcd & Hen).
    { rewrite dom_singleton_L. by apply elem_of_singleton. }
    rewrite lookup_singleton_eq in Hc. injection Hc as <-.
    injection Hcd as <-. simpl in Hen. by subst w.
Defined.


(** C9 fails on the code.  [{page, tag}] is evaluated, then [{page}]; the
    setter of the first evaluation is then called with a function that
    changes nothing: its [getLatestDecodedValues] works with [{page, tag}]
    and its result goes into the decoded-values cell, while the config-map
    cell keeps [{page}].  The next evaluation with [{page}], at the same
    location, takes the early return and hands out a decoded-values mapping
    that has the key [tag], which its config map has not. *)
Lemma outdated_setter_leaves_foreign_key :
  let q := "?page=3&tag=a&tag=b" in
  let s1 := demo_mounted 4 q in
  let s2 := snd (evaluate demo_parse demo_codecs 0 s1) in
  let s3 := snd (setQuery demo_parse demo_codecs 4
                   (ChangesFunction no_changes) None s2) in
  evaluate demo_parse demo_codecs 4 (initial demo_heap q)
    = (Ok (Rendered 7 4 10 11), s1) /\
  evaluate demo_parse demo_codecs 0 s1 = (Ok (Rendered 7 0 12 13), s2) /\
  setQuery demo_parse demo_codecs 4 (ChangesFunction no_changes) None s2
    = (Ok tt, s3) /\
  search s3 = q /\
  heap s3 !! 0 = Some {[ "page" := VCodec 0 ]} /\
  exists r s4,
    useQueryParams demo_parse demo_codecs 0 s3 = (Ok r, s4) /\
    heap s4 !! r_encodedValues r = Some {[ "page" := VStr "3" ]} /\
    heap s4 !! r_decodedValues r
    = Some {[ "page" := VNum 3; "tag" := VObj 6 ]}.
Proof.
  intros q s1 s2 s3. split_and!.
  - vm_compute. reflexivity.
  - vm_compute. reflexivity.
  - vm_compute. reflexivity.
  - vm_compute. reflexivity.
  - vm_compute. reflexivity.
  - eexists _, _. split; [vm_compute; reflexivity|]. vm_compute. by split.
Qed.

Lemma demo_navigated_reachable :
  reachable demo_parse demo_codecs
    (with_search "?page=5" (demo_mounted 0 "?page=3")).
Proof.
  eapply reachable_step; [|apply step_navigate].
  apply (demo_mounted_reachable 0 "?page=3" (Rendered 6 0 9 10)).
  - by eexists.
  - vm_compute. reflexivity.
Qed.







(** C10.  In the setter's functional-update path only the decoded-values
    cell is written at call time: the parsed-query, param-config-map and
    encoded-values cells keep their values, and the decoded-values cell
    receives what [getLatestDecodedValues] returned.  Until the next commit
    the encoded-values cache can therefore be stale relative to the
    decoded-values cache: after the call of scenario D the encoded cache
    still holds ["3"] for [page] while the decoded cache holds [5]. *)
Theorem functional_update_writes_decoded_cell_only :
  (forall parseQueryString codecs m f updateType s x s',
     setQuery parseQueryString codecs m (ChangesFunction f) updateType s
       = (x, s') ->
     mounted (cells s') = mounted (cells s) /\
     previousParamConfigMap (cells s') = previousParamConfigMap (cells s) /\
     parsedQueryRef (cells s') = parsedQueryRef (cells s) /\
     paramConfigMapRef (cells s') = paramConfigMapRef (cells s) /\
     encodedValuesCacheRef (cells s') = encodedValuesCacheRef (cells s) /\
     forall e d s1,
       getLatestDecodedValues parseQueryString codecs m s = (Ok (e, d), s1) ->
       decodedValuesCacheRef (cells s') = d) /\
  (exists s s',
     reachable demo_parse demo_codecs s /\
     setQuery demo_parse demo_codecs (paramConfigMapRef (cells s))
       (ChangesFunction next_page) None s = (Ok tt, s') /\
     cached_raw (heap s') (cells s') "page" = VStr "3" /\
     prop (heap s') (decodedValuesCacheRef (cells s')) "page" = VNum 5).
Proof.
  split.
  - intros P C m f u s x s'. apply functional_update_cells.
  - exists (with_search "?page=5" (demo_mounted 0 "?page=3")). eexists.
    split; [exact demo_navigated_reachable|].
    split; [vm_compute; reflexivity|]. vm_compute. by split.
Qed.

Lemma functional_update_writes_decoded_cell_only_witness :
  let s := with_search "?page=5" (demo_mounted 0 "?page=3") in
  let s' := snd (setQuery demo_parse demo_codecs 0 (ChangesFunction next_page)
                   None s) in
  parsedQueryRef (cells s') = parsedQueryRef (cells s) /\
  paramConfigMapRef (cells s') = paramConfigMapRef (cells s) /\
  encodedValuesCacheRef (cells s') = encodedValuesCacheRef (cells s).
Proof.
  intros s s'.
  destruct (proj1 functional_update_writes_decoded_cell_only
              demo_parse demo_codecs 0 next_page None s _ s' (run_eq _ _))
    as (_ & _ & H1 & H2 & H3 & _).
  split; [exact H1|]. split; [exact H2|exact H3].
Defined.

(** ** The loop, call by call *)

Lemma trace_of_app test raw xs ys :
  trace_of test raw (xs ++ ys) = trace_of test raw xs ++ trace_of test raw ys.
Proof. unfold trace_of. by rewrite List.filter_app, fmap_app. Qed.

Lemma trace_of_ext test test' raw raw' names :
  (forall k, k ∈ names -> test k = test' k) ->
  (forall k, k ∈ names -> raw k = raw' k) ->
  trace_of test raw names = trace_of test' raw' names.
Proof.
  unfold trace_of. induction names as [|k names IH]; intros Ht Hr; [done|].
  simpl. rewrite <- (Ht k) by apply list_elem_of_here.
  assert (trace_of test raw names = trace_of test' raw' names) as IH'.
  { apply IH; intros k' Hk'; [apply Ht|apply Hr]; by apply list_elem_of_further. }
  unfold trace_of in IH'.
  destruct (test k); simpl; [|done].
  rewrite (Hr k) by apply list_elem_of_here. by f_equal.
Qed.

Lemma trace_of_none test raw names :
  (forall k, k ∈ names -> test k = false) -> trace_of test raw names = [].
Proof.
  unfold trace_of. induction names as [|k names IH]; intros Ht; [done|].
  simpl. rewrite (Ht k) by apply list_elem_of_here.
  apply IH. intros k' Hk'. apply Ht. by apply list_elem_of_further.
Qed.

Lemma elem_of_trace_of test raw names k v :
  (k, v) ∈ trace_of test raw names <-> k ∈ names /\ test k = true /\ v = raw k.
Proof.
  unfold trace_of. rewrite list_elem_of_fmap. split.
  - intros [k' [[= -> ->] Hin]].
    apply list_elem_of_In, List.filter_In in Hin as [Hin ?].
    by rewrite <- list_elem_of_In in Hin.
  - intros (Hin & Ht & ->). exists k. split; [done|].
    apply list_elem_of_In, List.filter_In. by rewrite <- list_elem_of_In.
Qed.



Lemma NoDup_Object_keys (o : object) : NoDup (Object_keys o).
Proof. apply NoDup_fst_map_to_list. Qed.

Lemma decoded_at_entry codecs om h0 enc dec h' k v w :
  decoded_at codecs om h0 enc dec h' k v w ->
  decoded_entry codecs om h0 h' k v w.
Proof.
  intros (c & cd & h & ? & ? & ? & Hd). exists c, cd, h. split_and!; try done.
  destruct (decode cd h v); try done.
  destruct Hd as (l & ? & ? & _ & _ & ?). eauto.
Qed.

Section LoopExact.
Variable codecs : nat -> option codec.
Variables (hb : heap_t) (om : object) (m ec dc pq enc dec : loc).
Hypothesis Hm : hb !! m = Some om.
Hypothesis Hec : closed_at hb ec.
Hypothesis Hdc : is_Some (hb !! dc).
Hypothesis Hpq : closed_at hb pq.
Hypothesis Henc : hb !! enc = None.
Hypothesis Hdec : hb !! dec = None.
Hypothesis Hne : enc <> dec.

(** One turn of the loop: the objects it leaves alone, the entries of the
    decoded map it leaves alone, the call it makes and the value it
    stores. *)
Lemma decode_step_exact s0 done oe od L t k x t' :
  loop_inv codecs hb om ec dc pq enc dec s0 done oe od L t ->
  decode_step codecs m pq ec dc enc dec k t = (x, t') ->
  (forall l o, l <> enc -> l <> dec ->
     heap t !! l = Some o -> heap t' !! l = Some o) /\
  (forall k', k' <> k -> prop (heap t') dec k' = prop (heap t) dec k') /\
  match x with
  | Ok _ =>
      decodeCalls t' =
        decodeCalls t ++ trace_of (changed hb ec pq) (prop hb pq) [k] /\
      (changed hb ec pq k = true ->
         decoded_at codecs om hb enc dec (heap t') k (prop hb pq k)
           (prop (heap t') dec k))
  | Throw e =>
      changed hb ec pq k = true /\
      ((decodeCalls t' = decodeCalls t ++ [(k, prop hb pq k)] /\
        call_threw codecs om k (prop hb pq k) e)
       \/ (decodeCalls t' = decodeCalls t /\ e = TypeError /\
           forall c cd, field om k = VCodec c -> codecs c = Some cd -> False))
  end.
Proof using All.
  intros Hinv Hstep. destruct Hinv as [Hev He Hd Hde Hdd Hkeys Hcalls].
  pose proof (ev_heap _ _ _ _ Hev) as Hext.
  unfold decode_step, bind, get_prop, gets in Hstep. simpl in Hstep.
  rewrite (changed_extends hb ec pq Hec Hpq (heap t) k Hext) in Hstep.
  assert (prop (heap t) m k = field om k) as Hcfg.
  { unfold prop. by rewrite (Hext _ _ Hm). }
  assert (forall h, extends hb h -> prop h pq k = prop hb pq k) as Hrpq.
  { intros h Hh. apply prop_extends; [done|]. destruct Hpq as (?&?&?); eauto. }
  rewrite Hcfg in Hstep.
  assert (forall (h : heap_t) ev dv l o, l <> enc -> l <> dec ->
            h !! l = Some o ->
            alter (fun o : object => <[k := dv]> o) dec
              (alter (fun o : object => <[k := ev]> o) enc h) !! l = Some o)
    as Hothers.
  { intros h ev dv l o ? ? Hl. by rewrite !list_lookup_alter_ne. }
  assert (forall (h : heap_t) ev dv odh, h !! dec = Some odh ->
            forall k', prop (alter (fun o : object => <[k := dv]> o) dec
                         (alter (fun o : object => <[k := ev]> o) enc h)) dec k'
                       = if decide (k' = k) then dv else field odh k')
    as Hdecprop.
  { intros h ev dv odh Hh k'. unfold prop.
    rewrite list_lookup_alter_eq, list_lookup_alter_ne, Hh by done. simpl.
    unfold field. destruct (decide (k' = k)) as [->|Hk].
    - by rewrite lookup_insert_eq.
    - by rewrite lookup_insert_ne. }
  destruct (changed hb ec pq k) eqn:Hch.
  - (* re-decode *)
    rewrite (Hrpq _ Hext) in Hstep.
    unfold decode_param in Hstep.
    destruct (field om k) as [| | | | | |c] eqn:Hf;
      try (injection Hstep as <- <-; split; [done|]; split; [done|];
           split; [done|]; right; by split_and!).
    destruct (codecs c) as [cd|] eqn:Hcd.
    2:{ injection Hstep as <- <-. split; [done|]. split; [done|].
        split; [done|]. right. split_and!; try done.
        intros c' cd' [= <-]. congruence. }
    unfold bind, modify, gets in Hstep. simpl in Hstep.
    destruct (decode cd (heap t) (prop hb pq k)) as [w|o|e] eqn:Hdecode;
      simpl in Hstep; unfold ret, throw, bind, new_object, set_prop, modify in Hstep;
      simpl in Hstep; injection Hstep as <- <-; simpl.
    + (* an existing value *)
      split; [by apply Hothers|]. split.
      { intros k' Hk'. rewrite (Hdecprop _ _ _ od Hd).
        rewrite decide_False by done. unfold prop. by rewrite Hd. }
      unfold trace_of. simpl. rewrite Hch. split; [done|]. intros _.
      exists c, cd, (heap t). split_and!; try done. rewrite Hdecode.
      rewrite (Hdecprop _ _ _ od Hd). by rewrite decide_True.
    + (* a new object *)
      assert (heap t !! length (heap t) = None) as Hfresh
        by (apply lookup_ge_None; lia).
      assert (length (heap t) <> enc) as Hne1 by (intros <-; congruence).
      assert (length (heap t) <> dec) as Hne2 by (intros <-; congruence).
      split.
      { intros l o' ? ? Hl. apply Hothers; try done.
        by apply lookup_app_l_Some. }
      split.
      { intros k' Hk'.
        rewrite (Hdecprop _ _ _ od) by (by apply lookup_app_l_Some).
        rewrite decide_False by done. unfold prop. by rewrite Hd. }
      unfold trace_of. simpl. rewrite Hch. split; [done|]. intros _.
      exists c, cd, (heap t). split_and!; try done. rewrite Hdecode.
      exists (length (heap t)). split_and!; try done.
      * rewrite (Hdecprop _ _ _ od) by (by apply lookup_app_l_Some).
        by rewrite decide_True.
      * destruct (hb !! length (heap t)) eqn:Hl; [|done].
        apply Hext in Hl. congruence.
      * rewrite !list_lookup_alter_ne by done. apply list_lookup_middle. done.
    + (* decode throws *)
      split; [done|]. split; [done|]. split; [done|]. left. split; [done|].
      exists c, cd, (heap t). done.
  - (* reuse the cache *)
    unfold ret, set_prop, modify in Hstep. simpl in Hstep.
    injection Hstep as <- <-. simpl.
    split; [by apply Hothers|]. split.
    { intros k' Hk'. rewrite (Hdecprop _ _ _ od Hd).
      rewrite decide_False by done. unfold prop. by rewrite Hd. }
    unfold trace_of. simpl. rewrite Hch. simpl. by rewrite app_nil_r.
Qed.

Lemma decoded_at_frame h h' k v w :
  (forall l o, l <> enc -> l <> dec -> h !! l = Some o -> h' !! l = Some o) ->
  decoded_at codecs om hb enc dec h k v w ->
  decoded_at codecs om hb enc dec h' k v w.
Proof.
  intros Hfr (c & cd & h1 & ? & ? & ? & Hd). exists c, cd, h1.
  split_and!; try done. destruct (decode cd h1 v); try done.
  destruct Hd as (l & ? & ? & ? & ? & ?). exists l. split_and!; auto.
Qed.

Lemma for_of_exact names : forall s0 done oe od L t x t',
  NoDup (done ++ names) ->
  loop_inv codecs hb om ec dc pq enc dec s0 done oe od L t ->
  loop_exact codecs hb om ec pq enc dec s0 done t ->
  for_of names (decode_step codecs m pq ec dc enc dec) t = (x, t') ->
  match x with
  | Ok _ => loop_exact codecs hb om ec pq enc dec s0 (done ++ names) t'
  | Throw e => exists tr,
      decodeCalls t' = decodeCalls s0 ++ tr /\
      stopped_at codecs om (changed hb ec pq) (prop hb pq) (done ++ names) tr e
  end.
Proof using All.
  induction names as [|k names IH]; intros s0 done oe od L t x t' Hnd Hinv Hex;
    simpl.
  - intros [= <- <-]. by rewrite app_nil_r.
  - unfold bind.
    destruct (decode_step codecs m pq ec dc enc dec k t) as [r t1] eqn:Hstep.
    pose proof Hstep as Hspec.
    eapply decode_step_spec in Hspec; eauto.
    eapply decode_step_exact in Hstep as (Hfr & Hkeep & Hr); eauto.
    destruct Hex as [Htr Hdecd].
    destruct r as [[]|e].
    + destruct Hspec as (oe1 & od1 & L1 & Hinv1). intros Hrest.
      destruct Hr as [Hcalls Hnew].
      assert (loop_exact codecs hb om ec pq enc dec s0 (done ++ [k]) t1) as Hex1.
      { split.
        - by rewrite Hcalls, Htr, trace_of_app, app_assoc.
        - intros k' [Hk'|Hk'%list_elem_of_singleton]%elem_of_app Hch.
          + assert (k' <> k) as Hkk.
            { intros ->. apply NoDup_app in Hnd as (_ & Hdis & _).
              apply (Hdis k Hk'), list_elem_of_here. }
            rewrite (Hkeep k' Hkk). eapply decoded_at_frame; eauto.
          + subst k'. by apply Hnew. }
      assert (NoDup ((done ++ [k]) ++ names)) as Hnd1 by (by rewrite <- app_assoc).
      pose proof (IH s0 (done ++ [k]) oe1 od1 L1 t1 x t' Hnd1 Hinv1 Hex1 Hrest)
        as Hgoal.
      by rewrite <- app_assoc in Hgoal.
    + intros [= <- <-]. destruct Hr as [Hch Hr].
      destruct Hr as [[Hcalls Hthrew]|(Hcalls & -> & Hno)].
      * eexists. split; [by rewrite Hcalls, Htr, <- app_assoc|].
        exists done, k, names. split; [done|]. split; [done|]. by left.
      * eexists. split; [by rewrite Hcalls, Htr|].
        exists done, k, names. split; [done|]. split; [done|]. right. done.
Qed.

End LoopExact.

(** ** The recompute path, call by call *)

Lemma decoded_entry_base codecs om h0 h1 h' k v w :
  extends h0 h1 ->
  decoded_entry codecs om h1 h' k v w -> decoded_entry codecs om h0 h' k v w.
Proof.
  intros Hext (c & cd & h & ? & ? & ? & Hd). exists c, cd, h.
  split_and!; try done; [by eapply extends_trans|].
  destruct (decode cd h v); try done.
  destruct Hd as (l & ? & Hl & ?). exists l. split_and!; try done.
  destruct (h0 !! l) eqn:Hl0; [|done]. apply Hext in Hl0. congruence.
Qed.

Lemma stopped_at_ext codecs om test test' raw raw' names tr e :
  (forall k, test k = test' k) -> (forall k, raw k = raw' k) ->
  stopped_at codecs om test raw names tr e ->
  stopped_at codecs om test' raw' names tr e.
Proof.
  intros Ht Hr (before & k & rest & -> & Hk & Hcase).
  exists before, k, rest. split; [done|]. rewrite <- Ht, <- Hr.
  split; [done|].
  rewrite <- (trace_of_ext test test' raw raw' before) by auto.
  done.
Qed.

Section Exact.
Variable parseQueryString : string -> gmap string raw.
Variable codecs : nat -> option codec.

Lemma build_maps_exact hb om m ec dc pq t x t' :
  hb !! m = Some om -> closed_at hb ec -> is_Some (hb !! dc) ->
  closed_at hb pq ->
  heap t = hb -> decodedValuesCacheRef (cells t) = dc ->
  build_maps codecs m pq ec dc t = (x, t') ->
  match x with
  | Ok (e, d) =>
      decodeCalls t' =
        decodeCalls t ++ trace_of (changed hb ec pq) (prop hb pq) (Object_keys om) /\
      (forall k, k ∈ dom om -> changed hb ec pq k = true ->
         decoded_entry codecs om hb (heap t') k (prop hb pq k)
           (prop (heap t') d k)) /\
      (forall odc od, hb !! dc = Some odc -> heap t' !! d = Some od ->
         (d = dc <-> od = odc)) /\
      (d = dc \/ hb !! d = None)
  | Throw e => exists tr,
      decodeCalls t' = decodeCalls t ++ tr /\
      stopped_at codecs om (changed hb ec pq) (prop hb pq) (Object_keys om) tr e
  end.
Proof.
  intros Hm Hec Hdc Hpq Hh Hd. subst hb.
  unfold build_maps. unfold bind at 1 2 3. unfold new_object, gets. simpl.
  assert (keys_of (heap t ++ [∅]) m = Object_keys om) as ->.
  { unfold keys_of. by rewrite (lookup_app_l_Some _ _ _ _ Hm). }
  set (enc := length (heap t)). set (dec := length (heap t ++ [∅])).
  set (t0 := with_heap ((heap t ++ [∅]) ++ [∅]) (with_heap (heap t ++ [∅]) t)).
  assert (heap t !! enc = None) as Henc by (apply lookup_ge_None; lia).
  assert (heap t !! dec = None) as Hdec.
  { apply lookup_ge_None. unfold dec. rewrite length_app. lia. }
  assert (enc <> dec) as Hne.
  { unfold enc, dec. rewrite length_app. simpl. lia. }
  assert (loop_inv codecs (heap t) om ec dc pq enc dec t [] ∅ ∅ [] t0) as Hinv.
  { split.
    - split; try done; simpl.
      + eapply extends_trans; apply extends_app.
      + by rewrite app_nil_r.
    - simpl. rewrite lookup_app_l by (rewrite length_app; simpl; lia).
      by rewrite list_lookup_middle.
    - simpl. by rewrite list_lookup_middle.
    - intros k. rewrite lookup_empty, elem_of_nil. split; [by intros [? ?]|done].
    - intros k. rewrite lookup_empty, elem_of_nil. split; [by intros [? ?]|done].
    - intros k Hk. by apply elem_of_nil in Hk.
    - intros k v Hk. by apply elem_of_nil in Hk. }
  assert (loop_exact codecs (heap t) om ec pq enc dec t [] t0) as Hex.
  { split; [by rewrite app_nil_r|]. intros k Hk. by apply elem_of_nil in Hk. }
  unfold bind at 1.
  destruct (for_of (Object_keys om) (decode_step codecs m pq ec dc enc dec) t0)
    as [r t1] eqn:Hloop.
  pose proof Hloop as Hspec.
  eapply for_of_spec in Hspec; eauto. simpl in Hspec.
  eapply for_of_exact in Hloop; eauto; [|apply NoDup_Object_keys].
  simpl in Hloop.
  destruct r as [[]|e].
  - destruct Hspec as (oe & od & L & [Hev He Hdd Hde Hdod Hkeys Hcalls]).
    destruct Hloop as [Htr Hdecd].
    unfold bind, gets, ret. simpl. intros [= <- <-].
    rewrite (ev_cells _ _ _ _ Hev), Hd.
    pose proof (ev_heap _ _ _ _ Hev) as Hext.
    destruct Hdc as [odc Hodc].
    pose proof (shallowEqual_objects (heap t1) dc dec odc od (Hext _ _ Hodc) Hdd)
      as Hsh.
    assert (dec <> dc) as Hdcne by (intros ->; congruence).
    split; [done|]. split; [|split].
    + intros k Hk Hch.
      assert (prop (heap t1)
                (if negb (shallowEqual (heap t1) (VObj dc) (VObj dec))
                 then dec else dc) k = prop (heap t1) dec k) as ->.
      { destruct (shallowEqual (heap t1) (VObj dc) (VObj dec)); simpl; [|done].
        assert (odc = od) as -> by (by apply Hsh).
        unfold prop. by rewrite (Hext _ _ Hodc), Hdd. }
      eapply decoded_at_entry, Hdecd; [|done].
      by apply elem_of_Object_keys, elem_of_dom.
    + intros odc' od'. rewrite Hodc. intros [= <-].
      destruct (shallowEqual (heap t1) (VObj dc) (VObj dec)); simpl.
      * rewrite (Hext _ _ Hodc). intros [= <-]. done.
      * rewrite Hdd. intros [= <-]. split; [done|].
        intros ->. destruct Hsh as [_ Hsh']. by specialize (Hsh' eq_refl).
    + destruct (negb _); [by right|by left].
  - intros [= <- <-]. done.
Qed.

Lemma recompute_exact m pq s x s' om :
  heap s !! m = Some om ->
  closed_at (heap s) pq ->
  is_Some (heap s !! decodedValuesCacheRef (cells s)) ->
  (forall le, encodedValuesCacheRef (cells s) = Some le -> closed_at (heap s) le) ->
  recompute codecs m pq s = (x, s') ->
  recomputed_exactly codecs s om pq x s'.
Proof.
  intros Hm Hpq Hdc Hle. unfold recompute.
  unfold bind at 1 2. unfold gets at 1 2. simpl.
  set (dc := decodedValuesCacheRef (cells s)) in *.
  assert (is_Some (heap s !! pq)) as Hpq' by (destruct Hpq as (?&?&?); eauto).
  destruct (encodedValuesCacheRef (cells s)) as [le|] eqn:Hcell.
  - (* the cache exists *)
    unfold bind at 1 2. simpl. intros Hrun.
    eapply build_maps_exact in Hrun; eauto.
    assert (forall k, changed (heap s) le pq k = needs_decode s pq k) as Hch.
    { intros k. unfold changed, needs_decode, cached_raw. by rewrite Hcell. }
    unfold recomputed_exactly. fold dc.
    destruct x as [[e d]|e].
    + destruct Hrun as (Hcalls & Hdecd & Href & Hfresh).
      split.
      { rewrite (new_calls_app _ _ _ Hcalls). by apply trace_of_ext. }
      split; [|done].
      intros k Hk Hn. apply Hdecd; [done|]. by rewrite Hch.
    + destruct Hrun as (tr & Hcalls & Hstop).
      rewrite (new_calls_app _ _ _ Hcalls).
      eapply stopped_at_ext; [exact Hch|done|exact Hstop].
  - (* no cache yet: [undefined || {}] *)
    unfold bind at 1 2. unfold new_object. simpl. intros Hrun.
    set (hb := heap s ++ [∅]) in *. set (ec := length (heap s)) in *.
    assert (extends (heap s) hb) as Hext by apply extends_app.
    assert (hb !! ec = Some ∅) as Hec by apply list_lookup_middle, eq_refl.
    assert (closed_at hb ec) as Hcec.
    { exists ∅. split; [done|]. apply closed_empty. }
    assert (is_Some (hb !! dc)) as Hdc'.
    { destruct Hdc as [o Ho]. eauto. }
    assert (closed_at hb pq) as Hcpq by (by eapply closed_at_extends).
    eapply (build_maps_exact hb om m ec dc pq) in Hrun; eauto.
    assert (forall k, prop hb pq k = prop (heap s) pq k) as Hrpq.
    { intros k. by apply prop_extends. }
    assert (forall k, prop hb ec k = VUndefined) as Hrec.
    { intros k. unfold prop. by rewrite Hec. }
    assert (forall k, changed hb ec pq k = needs_decode s pq k) as Hch.
    { intros k. unfold changed, needs_decode, cached_raw.
      rewrite Hcell, Hrec, Hrpq. apply (f_equal negb).
      apply shallowEqual_extends; [done|done|by apply valid_value_prop]. }
    unfold recomputed_exactly. fold dc. simpl in Hrun.
    destruct x as [[e d]|e].
    + destruct Hrun as (Hcalls & Hdecd & Href & Hfresh).
      split.
      { rewrite (new_calls_app _ _ _ Hcalls). by apply trace_of_ext. }
      split; [|split].
      * intros k Hk Hn. rewrite <- Hrpq.
        eapply decoded_entry_base; [exact Hext|].
        apply Hdecd; [done|]. by rewrite Hch.
      * intros odc od Hodc. apply Href. by apply Hext.
      * destruct Hfresh as [?|Hl]; [by left|right].
        destruct (heap s !! d) eqn:Hd'; [|done]. apply Hext in Hd'. congruence.
    + destruct Hrun as (tr & Hcalls & Hstop).
      rewrite (new_calls_app _ _ _ Hcalls).
      eapply stopped_at_ext; [exact Hch|exact Hrpq|exact Hstop].
Qed.

Lemma new_calls_located s s' :
  new_calls (located parseQueryString s) s' = new_calls s s'.
Proof. unfold new_calls. by rewrite located_calls. Qed.

Lemma render_exact_mounted c s oc x s' :
  consistent s -> mounted (cells s) = true -> heap s !! c = Some oc ->
  useQueryParams parseQueryString codecs c s = (x, s') ->
  rendered_exactly parseQueryString codecs s oc x s'.
Proof.
  intros [Hparser Hcc] Hm Hc. specialize (Hcc Hm).
  set (s1 := located parseQueryString s).
  set (pq := current_query parseQueryString s).
  pose proof (located_grown parseQueryString s) as Hgr. fold s1 in Hgr.
  pose proof (current_query_closed parseQueryString s Hparser) as Hpq.
  fold s1 pq in Hpq.
  pose proof (cache_consistent_grown s s1 Hparser Hcc Hgr) as Hcc1.
  pose proof (gr_cells _ _ Hgr) as Hcells.
  pose proof (gr_heap _ _ Hgr) as Hext.
  destruct (located_idem parseQueryString s) as [Hl1 Hq1]. fold s1 pq in Hl1, Hq1.
  set (m := memoized parseQueryString s c).
  assert (heap s1 !! m = Some oc) as Hmo.
  { unfold m, memoized. rewrite Hm. fold s1.
    destruct (shallowEqual _ _ _) eqn:Hsh; [|by apply Hext].
    eapply shallowEqual_content; [exact Hsh|by apply Hext]. }
  rewrite render_mounted by done. fold s1 pq m.
  rewrite getLatest_cases. rewrite Hl1, Hq1, Hcells.
  destruct Hcc1 as [Hprev1 _ (le & ocr & oe & od & Hle & Hocr & Hoe & Hod & Hcl & Hde & Hsh)].
  rewrite Hcells in Hle, Hocr, Hod, Hsh, Hprev1.
  assert (forall k, redecodes parseQueryString s k =
                    needs_decode s1 pq k) as Hred.
  { intros k. unfold redecodes, needs_decode, render_cached_raw.
    fold s1 pq. by rewrite Hm, Hcells. }
  rewrite Hle. unfold rendered_exactly. fold s1 pq.
  destruct (unchanged_inputs s1 m pq) eqn:Hun.
  - (* early return *)
    intros [= <- <-].
    unfold unchanged_inputs in Hun. apply andb_true_iff in Hun as [Hq Hcfg].
    apply bool_decide_eq_true in Hq. rewrite Hcells in Hq, Hcfg.
    assert (ocr = oc) as ->.
    { apply (shallowEqual_content _ _ _ oc) in Hcfg; [|done]. congruence. }
    assert (forall k, k ∈ dom oc -> redecodes parseQueryString s k = false) as Hno.
    { intros k Hk. rewrite Hred. unfold needs_decode, cached_raw.
      rewrite Hcells, Hle, (prop_lookup _ _ _ _ Hoe), <- Hq.
      apply negb_false_iff. by apply Hsh. }
    simpl. split_and!.
    + unfold new_calls. fold s1. unfold s1. rewrite located_calls.
      rewrite drop_all. symmetry. apply trace_of_none.
      intros k Hk. apply Hno. by apply elem_of_dom, elem_of_Object_keys.
    + intros k Hk Hr. rewrite (Hno k Hk) in Hr. done.
    + intros _. split; [|by left].
      intros odc od' Hodc Hod'. apply Hext in Hodc.
      split; [congruence|done].
  - (* recompute *)
    destruct (recompute codecs m pq s1) as [r s2] eqn:Hrec.
    apply (recompute_exact m pq s1 r s2 oc) in Hrec; try done.
    2:{ rewrite Hcells. eauto. }
    2:{ intros le' Hle'. rewrite Hcells, Hle in Hle'. injection Hle' as <-.
        exists oe. eauto. }
    unfold recomputed_exactly in Hrec.
    destruct r as [[e d]|e]; intros [= <- <-]; simpl.
    + destruct Hrec as (Hcalls & Hdecd & Href & Hfresh).
      unfold s1 in Hcalls. rewrite new_calls_located in Hcalls.
      split; [|split].
      * rewrite Hcalls. by apply trace_of_ext.
      * intros k Hk Hr. apply Hdecd; [done|]. by rewrite <- Hred.
      * intros _. rewrite Hcells in Href, Hfresh. split.
        -- intros odc od' Hodc. apply Href. by apply Hext.
        -- destruct Hfresh as [?|Hl]; [by left|right].
           destruct (heap s !! d) eqn:Hd'; [|done].
           apply Hext in Hd'. congruence.
    + unfold s1 in Hrec. rewrite new_calls_located in Hrec.
      eapply stopped_at_ext; [|done|exact Hrec]. intros k. by rewrite Hred.
Qed.

Lemma render_exact_unmounted c s oc x s' :
  (forall q l, parserCache s !! q = Some l -> closed_at (heap s) l) ->
  mounted (cells s) = false -> heap s !! c = Some oc ->
  useQueryParams parseQueryString codecs c s = (x, s') ->
  rendered_exactly parseQueryString codecs s oc x s'.
Proof.
  intros Hparser Hm Hc.
  set (s1 := located parseQueryString s).
  set (pq := current_query parseQueryString s).
  pose proof (located_grown parseQueryString s) as Hgr. fold s1 in Hgr.
  pose proof (current_query_closed parseQueryString s Hparser) as Hpq.
  fold s1 pq in Hpq.
  pose proof (gr_heap _ _ Hgr) as Hext.
  rewrite render_unmounted by done. fold pq.
  set (s2 := first_render_state parseQueryString c s).
  assert (extends (heap s1) (heap s2)) as Hext2 by apply extends_app.
  assert (parserCache s2 !! search s2 = Some pq) as Hhit.
  { unfold s2, first_render_state. simpl. fold s1.
    rewrite (gr_search _ _ Hgr). apply located_cache. }
  destruct (located_hit parseQueryString s2 pq Hhit) as [Hl2 Hq2].
  rewrite getLatest_cases, Hl2, Hq2.
  assert (unchanged_inputs s2 c pq = true) as ->.
  { unfold unchanged_inputs. simpl. rewrite shallowEqual_refl.
    by rewrite bool_decide_eq_true_2. }
  simpl.
  assert (is_Some (heap s1 !! pq)) as Hpq' by (destruct Hpq as (?&?&?); eauto).
  assert (forall k, prop (heap s2) pq k = prop (heap s1) pq k) as Hrpq.
  { intros k. by apply prop_extends. }
  assert (forall k, redecodes parseQueryString s k = needs_decode s2 pq k) as Hred.
  { intros k. unfold redecodes, needs_decode, render_cached_raw, cached_raw.
    fold s1 pq. rewrite Hm, Hrpq. simpl. apply (f_equal negb). symmetry.
    apply shallowEqual_extends; [done|done|by apply valid_value_prop]. }
  assert (forall t, new_calls s2 t = new_calls s t) as Hnew.
  { intros t. unfold new_calls, s2, first_render_state. simpl.
    by rewrite located_calls. }
  destruct (recompute codecs c pq s2) as [r s3] eqn:Hrec.
  apply (recompute_exact c pq s2 r s3 oc) in Hrec.
  2:{ by apply Hext2, Hext. }
  2:{ by eapply closed_at_extends. }
  2:{ simpl. rewrite list_lookup_middle; eauto. }
  2:{ simpl. intros le [=]. }
  unfold recomputed_exactly in Hrec. rewrite Hnew in Hrec.
  unfold rendered_exactly. fold s1 pq.
  destruct r as [[e d]|e]; intros [= <- <-]; simpl.
  - destruct Hrec as (Hcalls & Hdecd & _ & _).
    split; [|split].
    + rewrite Hcalls. apply trace_of_ext; intros k _; [by rewrite Hred|apply Hrpq].
    + intros k Hk Hr. rewrite <- Hrpq.
      eapply decoded_entry_base; [exact Hext2|].
      apply Hdecd; [done|]. by rewrite <- Hred.
    + intros Hm'. congruence.
  - eapply stopped_at_ext; [|exact Hrpq|exact Hrec]. intros k. by rewrite Hred.
Qed.

(** The render, call by call, for every state the invariant covers. *)
Lemma render_exact c s oc x s' :
  consistent s -> heap s !! c = Some oc ->
  useQueryParams parseQueryString codecs c s = (x, s') ->
  rendered_exactly parseQueryString codecs s oc x s'.
Proof.
  intros Hs Hc. destruct (mounted (cells s)) eqn:Hm.
  - by apply render_exact_mounted.
  - apply render_exact_unmounted; try done. apply Hs.
Qed.

End Exact.

(** ** Further properties of the hook *)


Lemma with_cells_id s : with_cells (cells s) s = s.
Proof. by destruct s. Qed.

Section Further.
Variable parseQueryString : string -> gmap string raw.
Variable codecs : nat -> option codec.

Lemma reachable_exact s c oc x s' :
  reachable parseQueryString codecs s -> heap s !! c = Some oc ->
  useQueryParams parseQueryString codecs c s = (x, s') ->
  rendered_exactly parseQueryString codecs s oc x s'.
Proof.
  intros Hs. apply render_exact. exact (reachable_consistent _ _ _ Hs).
Qed.



(** For a parameter whose raw value changed, the mappings an evaluation
    returns hold the raw value of the parsed query and what the
    parameter's [decode] returned for it. *)
Theorem decoded_value_is_decode_result s c oc r s' k :
  reachable parseQueryString codecs s -> heap s !! c = Some oc ->
  useQueryParams parseQueryString codecs c s = (Ok r, s') ->
  k ∈ dom oc -> redecodes parseQueryString s k = true ->
  prop (heap s') (r_encodedValues r) k = current_raw parseQueryString s k /\
  decoded_entry codecs oc (heap (located parseQueryString s)) (heap s') k
    (current_raw parseQueryString s k)
    (prop (heap s') (r_decodedValues r) k).
Proof.
  intros Hs Hc Hr Hk Hred. split.
  - destruct (reachable_render _ _ s c oc _ _ Hs Hc Hr)
      as (_ & _ & _ & _ & _ & oe & od & Hoe & _ & _ & _ & _ & _ & Hkeys & _).
    specialize (Hkeys k Hk). rewrite Hred in Hkeys. destruct Hkeys as [Hv _].
    unfold prop. rewrite Hoe. unfold field. by rewrite Hv.
  - destruct (reachable_exact s c oc _ _ Hs Hc Hr) as (_ & Hdecd & _).
    by apply Hdecd.
Qed.

(** The decoded-values reference a mounted instance returns is the cached
    one exactly when the mapping has the same keys and the same values
    ([Object.is]) as the cached mapping; otherwise it is a new object. *)
Theorem decoded_reference_kept_iff_same_values s c oc r s' odc od :
  reachable parseQueryString codecs s -> mounted (cells s) = true ->
  heap s !! c = Some oc ->
  useQueryParams parseQueryString codecs c s = (Ok r, s') ->
  heap s !! decodedValuesCacheRef (cells s) = Some odc ->
  heap s' !! r_decodedValues r = Some od ->
  (r_decodedValues r = decodedValuesCacheRef (cells s) <-> od = odc) /\
  (r_decodedValues r = decodedValuesCacheRef (cells s) \/
   heap s !! r_decodedValues r = None).
Proof.
  intros Hs Hm Hc Hr Hodc Hod.
  destruct (reachable_exact s c oc _ _ Hs Hc Hr) as (_ & _ & Href).
  destruct (Href Hm) as [Hiff Hfresh]. split; [by apply Hiff|done].
Qed.

(** A change of the location that leaves the raw value of every parameter
    of the config map as the cache has it (another parameter of the query
    string changed, say) calls no [decode] and returns the cached
    decoded-values reference. *)
Theorem unwatched_change_keeps_reference s c oc x s' :
  reachable parseQueryString codecs s -> mounted (cells s) = true ->
  decoded_keys s -> heap s !! c = Some oc ->
  shallowEqual (heap s) (VObj (paramConfigMapRef (cells s))) (VObj c) = true ->
  (forall k, k ∈ dom oc -> redecodes parseQueryString s k = false) ->
  useQueryParams parseQueryString codecs c s = (x, s') ->
  new_calls s s' = [] /\
  exists r, x = Ok r /\ r_decodedValues r = decodedValuesCacheRef (cells s).
Proof.
  intros Hs Hm Hkeys Hc Hcfg Hno Hr.
  pose proof (reachable_exact s c oc _ _ Hs Hc Hr) as Hex.
  pose proof (reachable_render _ _ s c oc _ _ Hs Hc Hr) as Hpost.
  destruct x as [r|e].
  - destruct Hex as (Hcalls & _ & Href).
    split.
    { rewrite Hcalls. apply trace_of_none. intros k Hk. apply Hno.
      by apply elem_of_dom, elem_of_Object_keys. }
    exists r. split; [done|].
    destruct Hpost as (_ & _ & Hext & _ & _ & oe & od & _ & Hod & _ & _ & _
                       & Hdom & Hfields & _).
    pose proof (reachable_consistent _ _ _ Hs) as Hcons.
    destruct (co_cells _ Hcons Hm)
      as [_ _ (le & ocr & oe0 & odc & _ & Hocr & _ & Hodc & _)].
    assert (ocr = oc) as ->.
    { apply (shallowEqual_content _ _ _ oc) in Hcfg; [|done]. congruence. }
    destruct (Href Hm) as [Hiff _]. apply (Hiff odc od Hodc Hod).
    specialize (Hdom Hkeys). specialize (Hkeys Hm odc oc Hodc Hocr).
    pose proof (gr_heap _ _ (located_grown parseQueryString s)) as Hext1.
    apply map_eq. intros k.
    destruct (decide (k ∈ dom oc)) as [Hk|Hk].
    + specialize (Hfields k Hk). rewrite (Hno k Hk) in Hfields.
      destruct Hfields as (_ & Hf & _).
      unfold render_cached_decoded in Hf. rewrite Hm in Hf.
      rewrite (prop_lookup _ _ _ _ (Hext1 _ _ Hodc)) in Hf.
      rewrite (field_lookup od k), (field_lookup odc k), Hf; try done.
      * apply elem_of_dom. by rewrite Hkeys.
      * apply elem_of_dom. by rewrite Hdom.
    + rewrite (proj1 (not_elem_of_dom od k)) by (by rewrite Hdom).
      by rewrite (proj1 (not_elem_of_dom odc k)) by (by rewrite Hkeys).
  - exfalso. destruct Hex as (before & k & rest & Hnames & Htest & _).
    rewrite Hno in Htest; [done|].
    apply elem_of_dom, elem_of_Object_keys. rewrite Hnames.
    apply elem_of_app. right. apply list_elem_of_here.
Qed.


End Further.

Section Further2.
Variable parseQueryString : string -> gmap string raw.
Variable codecs : nat -> option codec.


(** The setter calls the location provider exactly once, with the
    update type it was given, when it returns, and not at all when it
    throws; it never changes the location itself. *)
Theorem setter_updates_location_once m changes updateType s x s' :
  setQuery parseQueryString codecs m changes updateType s = (x, s') ->
  search s' = search s /\
  match x with
  | Ok _ => exists v, locationUpdates s' = locationUpdates s ++ [(v, updateType)]
  | Throw _ => locationUpdates s' = locationUpdates s
  end.
Proof.
  destruct changes as [query|f].
  - unfold setQuery, setLocation. unfold bind at 1 2.
    destruct (encodeQueryParams codecs m query s) as [r s1] eqn:Hen.
    apply encodeQueryParams_evolved in Hen as [_ Hq Hu _ _ _].
    destruct r as [l|e]; unfold ret, modify; intros [= <- <-]; simpl.
    + rewrite Hu. eauto.
    + done.
  - rewrite setQuery_function_eq.
    destruct (getLatestDecodedValues parseQueryString codecs m s)
      as [[[e d]|err] s1] eqn:Hl.
    + apply getLatest_grown in Hl as [_ Hq Hu _ _ _].
      destruct (call _ _) as [r s3] eqn:Hcall.
      apply call_spec in Hcall as [[_ Hq3 Hu3 _ _ _] _]. simpl in Hq3, Hu3.
      destruct r as [v|e']; intros [= <- <-]; simpl.
      * rewrite Hq3, Hu3, Hq, Hu. eauto.
      * by rewrite Hq3, Hu3, Hq, Hu.
    + apply getLatest_grown in Hl as [_ Hq Hu _ _ _]. by intros [= <- <-].
Qed.

(** Neither a render, nor a committed evaluation, nor a functional update
    changes an object that existed before: the hook writes only to the
    mappings it has just created, so a consumer can keep earlier results
    and its config map. *)
Theorem existing_objects_are_never_modified :
  (forall c s x s',
     useQueryParams parseQueryString codecs c s = (x, s') ->
     extends (heap s) (heap s')) /\
  (forall c s x s',
     evaluate parseQueryString codecs c s = (x, s') ->
     extends (heap s) (heap s')) /\
  (forall m f updateType s x s',
     setQuery parseQueryString codecs m (ChangesFunction f) updateType s
       = (x, s') ->
     extends (heap s) (heap s')).
Proof.
  split_and!.
  - intros c s x s' Hr. by apply render_frame in Hr as (_ & _ & _ & ? & _).
  - intros c s x s'. unfold evaluate. unfold bind at 1.
    destruct (useQueryParams parseQueryString codecs c s) as [[r|e] s1] eqn:Hr;
      apply render_frame in Hr as (_ & _ & _ & Hext & _).
    + unfold bind. rewrite commit_eq. unfold ret. by intros [= <- <-].
    + by intros [= <- <-].
  - intros m f u s x s'. rewrite setQuery_function_eq.
    destruct (getLatestDecodedValues parseQueryString codecs m s)
      as [[[e d]|err] s1] eqn:Hl.
    + apply getLatest_grown in Hl as [_ _ _ Hext _ _].
      destruct (call _ _) as [r s3] eqn:Hcall.
      apply call_spec in Hcall as [[_ _ _ _ Hext3 _] _]. simpl in Hext3.
      intros Heq.
      assert (heap s' = heap s3) as ->; [|by eapply extends_trans].
      destruct r; by injection Heq as <- <-.
    + apply getLatest_grown in Hl as [_ _ _ Hext _ _]. by intros [= <- <-].
Qed.

(** Evaluating again with nothing changed (same location, a config map
    shallow-equal to the last one) is a fixed point: the same record is
    returned, memoized config map and encoded values included, no [decode]
    is called, nothing is allocated and no cell is written. *)
Theorem stable_evaluation_is_a_fixed_point s c1 r1 s1 c2 :
  evaluate parseQueryString codecs c1 s = (Ok r1, s1) ->
  shallowEqual (heap s1) (VObj c1) (VObj c2) = true ->
  evaluate parseQueryString codecs c2 s1 = (Ok r1, s1).
Proof.
  intros H1 Hcfg.
  pose proof (second_render_same _ _ s c1 r1 s1 c2 H1 Hcfg) as Hr.
  apply evaluate_inv in H1 as (sr & _ & Hs1).
  unfold evaluate. unfold bind at 1. rewrite Hr.
  unfold bind. rewrite commit_eq. unfold ret.
  assert (cells s1 = committed r1) as <- by (by rewrite Hs1).
  by rewrite with_cells_id.
Qed.

(** The cache cells of a mounted instance stay coherent whatever the host
    does (renders, commits, navigation, setters old and new): there is an
    encoded-values cache, it has exactly the keys of the cached config
    map, and every raw value in it is shallow-equal to the value the
    cached parsed query has for that parameter. *)
Theorem cache_cells_stay_coherent s :
  reachable parseQueryString codecs s -> mounted (cells s) = true ->
  previousParamConfigMap (cells s) = paramConfigMapRef (cells s) /\
  exists le oc oe,
    encodedValuesCacheRef (cells s) = Some le /\
    heap s !! paramConfigMapRef (cells s) = Some oc /\
    heap s !! le = Some oe /\
    dom oe = dom oc /\
    forall k, k ∈ dom oc ->
      shallowEqual (heap s) (field oe k)
        (prop (heap s) (parsedQueryRef (cells s)) k) = true.
Proof.
  intros Hs Hm.
  destruct (co_cells _ (reachable_consistent _ _ _ Hs) Hm)
    as [Hprev _ (le & oc & oe & od & ? & ? & ? & _ & _ & ? & ?)].
  split; [done|]. exists le, oc, oe. done.
Qed.

(** The raw values an evaluation returns are those of the current
    location: the encoded-values mapping holds, for every parameter of the
    config map, a value shallow-equal to the one in the parsed query of
    the current search string. *)
Theorem encoded_values_match_location s c oc r s' k :
  reachable parseQueryString codecs s -> heap s !! c = Some oc ->
  useQueryParams parseQueryString codecs c s = (Ok r, s') ->
  k ∈ dom oc ->
  r_parsedQuery r = current_query parseQueryString s /\
  shallowEqual (heap s') (prop (heap s') (r_encodedValues r) k)
    (current_raw parseQueryString s k) = true.
Proof.
  intros Hs Hc Hr Hk.
  destruct (reachable_render _ _ s c oc _ _ Hs Hc Hr)
    as (_ & _ & Hext & _ & Hpq & oe & od & Hoe & _ & _ & _ & _ & _ & Hkeys & _).
  split; [done|]. specialize (Hkeys k Hk).
  rewrite (prop_lookup _ _ _ _ Hoe). unfold current_raw.
  destruct (redecodes parseQueryString s k) eqn:Hred.
  - destruct Hkeys as [Hv _]. unfold field. rewrite Hv. simpl.
    apply shallowEqual_refl.
  - destruct Hkeys as (Hv & _). unfold field. rewrite Hv. simpl.
    unfold redecodes in Hred. apply negb_false_iff in Hred.
    by eapply shallowEqual_extends_true.
Qed.

(** Right after a committed evaluation, the setter it returned hands the
    function the very decoded-values container of the evaluation, without
    calling any [decode] and without changing a cell, and forwards the
    function's result to the location provider. *)
Theorem updater_receives_rendered_values s c r s1 f updateType :
  evaluate parseQueryString codecs c s = (Ok r, s1) ->
  setQuery parseQueryString codecs (r_paramConfigMap r) (ChangesFunction f)
    updateType s1
  = (let* v := call (f (heap s1) (VObj (r_decodedValues r))) in
     setLocation v updateType) s1.
Proof.
  intros H1.
  pose proof (second_render_same _ _ s c r s1 c H1 (shallowEqual_refl _ _)) as Hr.
  apply evaluate_inv in H1 as (sr & _ & Hs1).
  assert (cells s1 = committed r) as Hcells by (by rewrite Hs1).
  assert (mounted (cells s1) = true) as Hm by (by rewrite Hcells).
  rewrite render_mounted in Hr by done.
  destruct (getLatestDecodedValues parseQueryString codecs
              (memoized parseQueryString s1 c) (located parseQueryString s1))
    as [[[e d]|err] s2] eqn:Hl; [|done].
  injection Hr as Hrec Hs2. subst s2.
  assert (memoized parseQueryString s1 c = paramConfigMapRef (cells s1)) as Hmemo.
  { rewrite Hcells. simpl. by rewrite <- Hrec. }
  rewrite Hmemo, getLatest_located in Hl.
  assert (r_paramConfigMap r = paramConfigMapRef (cells s1)) as ->
    by (by rewrite Hcells).
  assert (d = r_decodedValues r) as -> by (by rewrite <- Hrec).
  rewrite setQuery_function_eq, Hl.
  assert (set_decodedValuesCacheRef (r_decodedValues r) (cells s1) = cells s1)
    as -> by (by rewrite Hcells).
  rewrite with_cells_id.
  unfold bind, setLocation, modify.
  destruct (call _ _) as [[v|e'] s3]; reflexivity.
Qed.


(** *** With current setters only *)

Lemma decoded_keys_grown s s' :
  consistent s -> decoded_keys s ->
  cells s' = cells s -> extends (heap s) (heap s') -> decoded_keys s'.
Proof.
  intros Hcons Hkeys Hcells Hext Hm od oc. rewrite Hcells in *.
  destruct (co_cells _ Hcons Hm)
    as [_ _ (le & oc0 & oe0 & od0 & _ & Hoc & _ & Hod & _)].
  rewrite (Hext _ _ Hod), (Hext _ _ Hoc). intros [= <-] [= <-].
  by apply Hkeys.
Qed.

Lemma well_used_reachable s :
  well_used parseQueryString codecs s ->
  reachable parseQueryString codecs s /\ decoded_keys s.
Proof.
  induction 1 as [h q|s c r s' _ [IHr IHk] Hc He|s c x s' _ [IHr IHk] Hc Hr
                  |s q _ [IHr IHk]|s o _ [IHr IHk]
                  |s changes u x s' _ [IHr IHk] Hm Hset].
  - split; [apply reachable_initial|]. intros Hm. done.
  - split.
    + eapply reachable_step; [exact IHr|]. eapply step_evaluate; eauto.
    + eapply decoded_keys_evaluate; eauto.
  - split.
    + eapply reachable_step; [exact IHr|]. eapply step_render; eauto.
    + apply render_frame in Hr as (Hmt & _ & _ & Hext & Hg).
      destruct (mounted (cells s)) eqn:Hm.
      * eapply decoded_keys_grown;
          [exact (reachable_consistent _ _ _ IHr)|done| |done].
        apply (gr_cells _ _ (Hg eq_refl)).
      * intros Hm'. congruence.
  - split.
    + eapply reachable_step; [exact IHr|]. apply step_navigate.
    + exact IHk.
  - split.
    + eapply reachable_step; [exact IHr|]. apply step_allocate.
    + eapply decoded_keys_grown;
        [exact (reachable_consistent _ _ _ IHr)|done|done|apply extends_app].
  - split.
    + eapply reachable_step; [exact IHr|]. eapply step_setQuery; eauto.
      destruct (co_cells _ (reachable_consistent _ _ _ IHr) Hm)
        as [_ _ (le & oc0 & oe0 & od0 & _ & Hoc & _)]. eauto.
    + eapply decoded_keys_current_setter; eauto.
Qed.

(** As long as the host calls no outdated setter, both mappings an
    evaluation returns have exactly the keys of the param config map, and
    [decode] is called for parameters of the config map only: a parameter
    that the query string has and the config map lacks is never decoded
    and appears in neither mapping. *)
Theorem keys_are_those_of_the_config_map s c oc r s' :
  well_used parseQueryString codecs s -> heap s !! c = Some oc ->
  useQueryParams parseQueryString codecs c s = (Ok r, s') ->
  (forall k v, (k, v) ∈ new_calls s s' -> k ∈ dom oc) /\
  exists oe od,
    heap s' !! r_encodedValues r = Some oe /\
    heap s' !! r_decodedValues r = Some od /\
    dom oe = dom oc /\ dom od = dom oc.
Proof.
  intros [Hs Hkeys]%well_used_reachable Hc Hr.
  destruct (evaluation_keys _ _ s c oc _ _ Hs Hc Hr) as [Hcalls Hok].
  split; [done|].
  destruct (Hok r eq_refl) as (oe & od & ? & ? & ? & Hd).
  exists oe, od. split_and!; auto.
Qed.

(** *** What the next evaluation will decode *)

Lemma setter_frame_parsed s m f updateType x s' :
  setQuery parseQueryString codecs m (ChangesFunction f) updateType s = (x, s') ->
  search s' = search s /\
  extends (heap (located parseQueryString s)) (heap s') /\
  parserCache s' !! search s = Some (current_query parseQueryString s).
Proof.
  rewrite setQuery_function_eq.
  destruct (getLatestDecodedValues parseQueryString codecs m s)
    as [r s1] eqn:Hl.
  pose proof (getLatest_grown _ _ _ _ _ _ Hl) as [_ Hq1 _ _ _ _].
  apply getLatest_evolved in Hl as [L [_ _ _ Hp Hext _]].
  pose proof (located_cache parseQueryString s) as Hhit.
  destruct r as [[e d]|err].
  - destruct (call _ _) as [r3 s3] eqn:Hcall.
    apply call_spec in Hcall as [[_ Hq3 _ Hp3 Hext3 _] _].
    simpl in Hq3, Hp3, Hext3. intros Heq.
    assert (search s' = search s3 /\ heap s' = heap s3 /\
            parserCache s' = parserCache s3) as (-> & -> & ->).
    { destruct r3; by injection Heq as <- <-. }
    rewrite Hq3, Hq1, Hp3, Hp. split_and!; try done.
    by eapply extends_trans.
  - intros [= <- <-]. rewrite Hp. done.
Qed.

(** Which parameters an evaluation decodes, and from which raw values,
    depends on the location, the encoded-values cell and the objects they
    refer to: it is the same in a later state that kept those. *)
Lemma redecodes_later s s' k :
  consistent s ->
  mounted (cells s') = mounted (cells s) ->
  (mounted (cells s) = true ->
   encodedValuesCacheRef (cells s') = encodedValuesCacheRef (cells s)) ->
  search s' = search s ->
  extends (heap (located parseQueryString s)) (heap s') ->
  parserCache s' !! search s = Some (current_query parseQueryString s) ->
  redecodes parseQueryString s' k = redecodes parseQueryString s k /\
  current_raw parseQueryString s' k = current_raw parseQueryString s k.
Proof.
  intros Hcons Hmt Henc Hq Hext Hhit.
  set (s1 := located parseQueryString s) in *.
  set (pq := current_query parseQueryString s) in *.
  rewrite <- Hq in Hhit.
  destruct (located_hit parseQueryString s' pq Hhit) as [Hl Hpq].
  pose proof (current_query_closed parseQueryString s (co_parser _ Hcons)) as Hcl.
  fold s1 pq in Hcl.
  assert (is_Some (heap s1 !! pq)) as Hpq' by (destruct Hcl as (?&?&?); eauto).
  assert (prop (heap s') pq k = prop (heap s1) pq k) as Hraw
    by (by apply prop_extends).
  unfold redecodes, current_raw. rewrite Hl, Hpq. fold s1 pq.
  split; [|done]. rewrite Hraw. apply (f_equal negb).
  unfold render_cached_raw. rewrite Hmt.
  destruct (mounted (cells s)) eqn:Hm.
  - destruct (co_cells _ Hcons Hm)
      as [_ _ (le & oc & oe & od & Hle & _ & Hoe & _ & Hcle & _)].
    pose proof (gr_heap _ _ (located_grown parseQueryString s)) as Hext1.
    fold s1 in Hext1.
    unfold cached_raw. rewrite (Henc eq_refl), Hle.
    assert (closed_at (heap s1) le) as Hcl1.
    { eapply closed_at_extends; [exact Hext1|]. exists oe. eauto. }
    assert (is_Some (heap s1 !! le)) as Hle' by (destruct Hcl1 as (?&?&?); eauto).
    rewrite (prop_extends _ _ _ _ Hext Hle').
    apply shallowEqual_extends; auto using valid_value_prop.
  - apply shallowEqual_extends; [done|done|by apply valid_value_prop].
Qed.

(** A render that is not committed, because it threw or because React
    discarded it, has no effect on what the next evaluation decodes:
    the same parameters, from the same raw values. *)
Theorem uncommitted_render_changes_no_decision s c oc x s' k :
  reachable parseQueryString codecs s -> heap s !! c = Some oc ->
  useQueryParams parseQueryString codecs c s = (x, s') ->
  redecodes parseQueryString s' k = redecodes parseQueryString s k /\
  current_raw parseQueryString s' k = current_raw parseQueryString s k.
Proof.
  intros Hs Hc Hr.
  destruct (reachable_render _ _ s c oc _ _ Hs Hc Hr) as (_ & Hp & Hext & _).
  apply render_frame in Hr as (Hmt & Hq & _ & _ & Hg).
  apply redecodes_later; try done.
  - exact (reachable_consistent _ _ _ Hs).
  - intros Hm. by rewrite (gr_cells _ _ (Hg Hm)).
  - rewrite Hp. apply located_cache.
Qed.

(** A functional update spares the next evaluation no [decode]: the
    setter decodes the parameters that changed since the last commit, but
    as it leaves the encoded-values cell alone, the next evaluation finds
    the same parameters changed and decodes them again. *)
Theorem functional_update_spares_no_decode s m f updateType x s' k :
  reachable parseQueryString codecs s ->
  setQuery parseQueryString codecs m (ChangesFunction f) updateType s = (x, s') ->
  redecodes parseQueryString s' k = redecodes parseQueryString s k /\
  current_raw parseQueryString s' k = current_raw parseQueryString s k.
Proof.
  intros Hs Hset.
  pose proof (functional_update_cells _ _ _ _ _ _ _ _ Hset)
    as (Hmt & _ & _ & _ & Henc & _).
  pose proof (setter_frame_parsed s m f updateType x s' Hset)
    as (Hq & Hext & Hp).
  apply redecodes_later; try done.
  exact (reachable_consistent _ _ _ Hs).
Qed.

End Further2.

(** ** The further properties, on the small host *)

Lemma page_in_dom (v : value) : "page" ∈ dom ({[ "page" := v ]} : object).
Proof. rewrite dom_singleton_L. by apply elem_of_singleton. Qed.

Lemma dom_page_only (v : value) k :
  k ∈ dom ({[ "page" := v ]} : object) -> k = "page".
Proof. rewrite dom_singleton_L. by intros ->%elem_of_singleton. Qed.

Lemma demo_mounted_well_used c q r :
  is_Some (demo_heap !! c) ->
  evaluate demo_parse demo_codecs c (initial demo_heap q)
    = (Ok r, demo_mounted c q) ->
  well_used demo_parse demo_codecs (demo_mounted c q).
Proof.
  intros Hc He. eapply well_used_evaluate; [apply well_used_initial|exact Hc|exact He].
Qed.

Lemma demo_unwatched_well_used :
  well_used demo_parse demo_codecs
    (with_search "?page=3&tag=a&tag=b" (demo_mounted 0 "?page=3")).
Proof.
  apply well_used_navigate.
  apply (demo_mounted_well_used 0 "?page=3" (Rendered 6 0 9 10)).
  - by eexists.
  - vm_compute. reflexivity.
Qed.



(** After [?page=3], at [?page=5]: [page] is decoded anew. *)
Lemma decoded_value_is_decode_result_witness :
  let s := with_search "?page=5" (demo_mounted 0 "?page=3") in
  let s' := snd (useQueryParams demo_parse demo_codecs 0 s) in
  reachable demo_parse demo_codecs s /\
  heap s !! 0 = Some {[ "page" := VCodec 0 ]} /\
  useQueryParams demo_parse demo_codecs 0 s = (Ok (Rendered 11 0 12 13), s') /\
  "page" ∈ dom ({[ "page" := VCodec 0 ]} : object) /\
  redecodes demo_parse s "page" = true /\
  prop (heap s') (r_encodedValues (Rendered 11 0 12 13)) "page"
    = current_raw demo_parse s "page" /\
  decoded_entry demo_codecs {[ "page" := VCodec 0 ]}
    (heap (located demo_parse s)) (heap s') "page"
    (current_raw demo_parse s "page")
    (prop (heap s') (r_decodedValues (Rendered 11 0 12 13)) "page").
Proof.
  intros s s'.
  assert (heap s !! 0 = Some {[ "page" := VCodec 0 ]}) as H2
    by (vm_compute; reflexivity).
  assert (useQueryParams demo_parse demo_codecs 0 s
          = (Ok (Rendered 11 0 12 13), s')) as H3 by (vm_compute; reflexivity).
  assert (redecodes demo_parse s "page" = true) as H5
    by (vm_compute; reflexivity).
  split; [exact demo_navigated_reachable|]. split; [exact H2|].
  split; [exact H3|]. split; [exact (page_in_dom _)|]. split; [exact H5|].
  exact (decoded_value_is_decode_result demo_parse demo_codecs s 0 _ _ s' "page"
           demo_navigated_reachable H2 H3 (page_in_dom _) H5).
Defined.

Lemma decoded_reference_kept_iff_same_values_witness :
  let s := with_search "?page=5" (demo_mounted 0 "?page=3") in
  let s' := snd (useQueryParams demo_parse demo_codecs 0 s) in
  reachable demo_parse demo_codecs s /\
  mounted (cells s) = true /\
  heap s !! 0 = Some {[ "page" := VCodec 0 ]} /\
  useQueryParams demo_parse demo_codecs 0 s = (Ok (Rendered 11 0 12 13), s') /\
  heap s !! decodedValuesCacheRef (cells s) = Some {[ "page" := VNum 3 ]} /\
  heap s' !! r_decodedValues (Rendered 11 0 12 13) = Some {[ "page" := VNum 5 ]} /\
  (r_decodedValues (Rendered 11 0 12 13) = decodedValuesCacheRef (cells s) <->
   ({[ "page" := VNum 5 ]} : object) = {[ "page" := VNum 3 ]}) /\
  (r_decodedValues (Rendered 11 0 12 13) = decodedValuesCacheRef (cells s) \/
   heap s !! r_decodedValues (Rendered 11 0 12 13) = None).
Proof.
  intros s s'.
  assert (mounted (cells s) = true) as Hm by (vm_compute; reflexivity).
  assert (heap s !! 0 = Some {[ "page" := VCodec 0 ]}) as H2
    by (vm_compute; reflexivity).
  assert (useQueryParams demo_parse demo_codecs 0 s
          = (Ok (Rendered 11 0 12 13), s')) as H3 by (vm_compute; reflexivity).
  assert (heap s !! decodedValuesCacheRef (cells s) = Some {[ "page" := VNum 3 ]})
    as H4 by (vm_compute; reflexivity).
  assert (heap s' !! r_decodedValues (Rendered 11 0 12 13)
          = Some {[ "page" := VNum 5 ]}) as H5 by (vm_compute; reflexivity).
  split; [exact demo_navigated_reachable|]. split; [exact Hm|].
  split; [exact H2|]. split; [exact H3|]. split; [exact H4|]. split; [exact H5|].
  exact (decoded_reference_kept_iff_same_values demo_parse demo_codecs s 0 _ _ s'
           _ _ demo_navigated_reachable Hm H2 H3 H4 H5).
Defined.

(** From [?page=3] to [?page=3&tag=a&tag=b], with [{page}]: the query is
    parsed anew, [page] is as it was, and the reference is kept. *)
Lemma unwatched_change_keeps_reference_witness :
  let s := with_search "?page=3&tag=a&tag=b" (demo_mounted 0 "?page=3") in
  let x := fst (useQueryParams demo_parse demo_codecs 0 s) in
  let s' := snd (useQueryParams demo_parse demo_codecs 0 s) in
  reachable demo_parse demo_codecs s /\
  mounted (cells s) = true /\
  decoded_keys s /\
  heap s !! 0 = Some {[ "page" := VCodec 0 ]} /\
  shallowEqual (heap s) (VObj (paramConfigMapRef (cells s))) (VObj 0) = true /\
  (forall k, k ∈ dom ({[ "page" := VCodec 0 ]} : object) ->
     redecodes demo_parse s k = false) /\
  new_calls s s' = [] /\
  exists r, x = Ok r /\ r_decodedValues r = decodedValuesCacheRef (cells s).
Proof.
  intros s x s'.
  destruct (well_used_reachable demo_parse demo_codecs s demo_unwatched_well_used)
    as [H1 H3].
  assert (mounted (cells s) = true) as H2 by (vm_compute; reflexivity).
  assert (heap s !! 0 = Some {[ "page" := VCodec 0 ]}) as H4
    by (vm_compute; reflexivity).
  assert (shallowEqual (heap s) (VObj (paramConfigMapRef (cells s))) (VObj 0)
          = true) as H5 by (vm_compute; reflexivity).
  assert (forall k, k ∈ dom ({[ "page" := VCodec 0 ]} : object) ->
            redecodes demo_parse s k = false) as H6.
  { intros k ->%dom_page_only. vm_compute. reflexivity. }
  split; [exact H1|]. split; [exact H2|]. split; [exact H3|]. split; [exact H4|].
  split; [exact H5|]. split; [exact H6|].
  exact (unwatched_change_keeps_reference demo_parse demo_codecs s 0 _ x s'
           H1 H2 H3 H4 H5 H6 (run_eq _ _)).
Defined.



Lemma setter_updates_location_once_witness :
  let s := with_search "?page=5" (demo_mounted 0 "?page=3") in
  let x := fst (setQuery demo_parse demo_codecs 0 (ChangesFunction next_page)
                  (Some replaceIn) s) in
  let s' := snd (setQuery demo_parse demo_codecs 0 (ChangesFunction next_page)
                   (Some replaceIn) s) in
  search s' = search s /\
  match x with
  | Ok _ => exists v,
      locationUpdates s' = locationUpdates s ++ [(v, Some replaceIn)]
  | Throw _ => locationUpdates s' = locationUpdates s
  end.
Proof.
  intros s x s'.
  exact (setter_updates_location_once demo_parse demo_codecs 0
           (ChangesFunction next_page) (Some replaceIn) s x s' (run_eq _ _)).
Defined.

Lemma existing_objects_are_never_modified_witness :
  let s := with_search "?page=5" (demo_mounted 0 "?page=3") in
  extends (heap s) (heap (snd (useQueryParams demo_parse demo_codecs 0 s))).
Proof.
  intros s.
  exact (proj1 (existing_objects_are_never_modified demo_parse demo_codecs)
           0 s _ _ (run_eq _ _)).
Defined.

Lemma stable_evaluation_is_a_fixed_point_witness :
  evaluate demo_parse demo_codecs 0 (initial demo_heap "?page=3")
    = (Ok (Rendered 6 0 9 10), demo_mounted 0 "?page=3") /\
  shallowEqual (heap (demo_mounted 0 "?page=3")) (VObj 0) (VObj 1) = true /\
  evaluate demo_parse demo_codecs 1 (demo_mounted 0 "?page=3")
    = (Ok (Rendered 6 0 9 10), demo_mounted 0 "?page=3").
Proof.
  assert (evaluate demo_parse demo_codecs 0 (initial demo_heap "?page=3")
          = (Ok (Rendered 6 0 9 10), demo_mounted 0 "?page=3")) as H1
    by (vm_compute; reflexivity).
  assert (shallowEqual (heap (demo_mounted 0 "?page=3")) (VObj 0) (VObj 1) = true)
    as H2 by (vm_compute; reflexivity).
  split; [exact H1|]. split; [exact H2|].
  exact (stable_evaluation_is_a_fixed_point demo_parse demo_codecs _ 0 _ _ 1
           H1 H2).
Defined.

Lemma cache_cells_stay_coherent_witness :
  let s := with_search "?page=5" (demo_mounted 0 "?page=3") in
  reachable demo_parse demo_codecs s /\
  mounted (cells s) = true /\
  previousParamConfigMap (cells s) = paramConfigMapRef (cells s) /\
  exists le oc oe,
    encodedValuesCacheRef (cells s) = Some le /\
    heap s !! paramConfigMapRef (cells s) = Some oc /\
    heap s !! le = Some oe /\
    dom oe = dom oc /\
    forall k, k ∈ dom oc ->
      shallowEqual (heap s) (field oe k)
        (prop (heap s) (parsedQueryRef (cells s)) k) = true.
Proof.
  intros s.
  assert (mounted (cells s) = true) as Hm by (vm_compute; reflexivity).
  split; [exact demo_navigated_reachable|]. split; [exact Hm|].
  exact (cache_cells_stay_coherent demo_parse demo_codecs s
           demo_navigated_reachable Hm).
Defined.

Lemma encoded_values_match_location_witness :
  let s := with_search "?page=5" (demo_mounted 0 "?page=3") in
  let s' := snd (useQueryParams demo_parse demo_codecs 0 s) in
  reachable demo_parse demo_codecs s /\
  heap s !! 0 = Some {[ "page" := VCodec 0 ]} /\
  useQueryParams demo_parse demo_codecs 0 s = (Ok (Rendered 11 0 12 13), s') /\
  "page" ∈ dom ({[ "page" := VCodec 0 ]} : object) /\
  r_parsedQuery (Rendered 11 0 12 13) = current_query demo_parse s /\
  shallowEqual (heap s')
    (prop (heap s') (r_encodedValues (Rendered 11 0 12 13)) "page")
    (current_raw demo_parse s "page") = true.
Proof.
  intros s s'.
  assert (heap s !! 0 = Some {[ "page" := VCodec 0 ]}) as H2
    by (vm_compute; reflexivity).
  assert (useQueryParams demo_parse demo_codecs 0 s
          = (Ok (Rendered 11 0 12 13), s')) as H3 by (vm_compute; reflexivity).
  split; [exact demo_navigated_reachable|]. split; [exact H2|].
  split; [exact H3|]. split; [exact (page_in_dom _)|].
  exact (encoded_values_match_location demo_parse demo_codecs s 0 _ _ s' "page"
           demo_navigated_reachable H2 H3 (page_in_dom _)).
Defined.

Lemma updater_receives_rendered_values_witness :
  let s1 := demo_mounted 0 "?page=3" in
  evaluate demo_parse demo_codecs 0 (initial demo_heap "?page=3")
    = (Ok (Rendered 6 0 9 10), s1) /\
  setQuery demo_parse demo_codecs (r_paramConfigMap (Rendered 6 0 9 10))
    (ChangesFunction next_page) None s1
  = (let* v := call (next_page (heap s1)
                       (VObj (r_decodedValues (Rendered 6 0 9 10)))) in
     setLocation v None) s1.
Proof.
  intros s1.
  assert (evaluate demo_parse demo_codecs 0 (initial demo_heap "?page=3")
          = (Ok (Rendered 6 0 9 10), s1)) as H1 by (vm_compute; reflexivity).
  split; [exact H1|].
  exact (updater_receives_rendered_values demo_parse demo_codecs _ 0 _ s1
           next_page None H1).
Defined.


Lemma keys_are_those_of_the_config_map_witness :
  let s := with_search "?page=3&tag=a&tag=b" (demo_mounted 0 "?page=3") in
  let s' := snd (useQueryParams demo_parse demo_codecs 0 s) in
  well_used demo_parse demo_codecs s /\
  heap s !! 0 = Some {[ "page" := VCodec 0 ]} /\
  useQueryParams demo_parse demo_codecs 0 s = (Ok (Rendered 12 0 13 10), s') /\
  (forall k v, (k, v) ∈ new_calls s s' ->
     k ∈ dom ({[ "page" := VCodec 0 ]} : object)) /\
  exists oe od,
    heap s' !! r_encodedValues (Rendered 12 0 13 10) = Some oe /\
    heap s' !! r_decodedValues (Rendered 12 0 13 10) = Some od /\
    dom oe = dom ({[ "page" := VCodec 0 ]} : object) /\
    dom od = dom ({[ "page" := VCodec 0 ]} : object).
Proof.
  intros s s'.
  assert (heap s !! 0 = Some {[ "page" := VCodec 0 ]}) as H2
    by (vm_compute; reflexivity).
  assert (useQueryParams demo_parse demo_codecs 0 s
          = (Ok (Rendered 12 0 13 10), s')) as H3 by (vm_compute; reflexivity).
  split; [exact demo_unwatched_well_used|]. split; [exact H2|].
  split; [exact H3|].
  exact (keys_are_those_of_the_config_map demo_parse demo_codecs s 0 _ _ s'
           demo_unwatched_well_used H2 H3).
Defined.

(** A render at [?page=5] that is not committed: the next one decodes
    [page] just the same. *)
Lemma uncommitted_render_changes_no_decision_witness :
  let s := with_search "?page=5" (demo_mounted 0 "?page=3") in
  let s' := snd (useQueryParams demo_parse demo_codecs 0 s) in
  reachable demo_parse demo_codecs s /\
  heap s !! 0 = Some {[ "page" := VCodec 0 ]} /\
  redecodes demo_parse s' "page" = redecodes demo_parse s "page" /\
  current_raw demo_parse s' "page" = current_raw demo_parse s "page".
Proof.
  intros s s'.
  assert (heap s !! 0 = Some {[ "page" := VCodec 0 ]}) as H2
    by (vm_compute; reflexivity).
  split; [exact demo_navigated_reachable|]. split; [exact H2|].
  exact (uncommitted_render_changes_no_decision demo_parse demo_codecs s 0 _ _ s'
           "page" demo_navigated_reachable H2 (run_eq _ _)).
Defined.

(** Scenario D again: after the functional update at [?page=5], the next
    evaluation still has [page] to decode. *)
Lemma functional_update_spares_no_decode_witness :
  let s := with_search "?page=5" (demo_mounted 0 "?page=3") in
  let s' := snd (setQuery demo_parse demo_codecs 0 (ChangesFunction next_page)
                   None s) in
  reachable demo_parse demo_codecs s /\
  redecodes demo_parse s' "page" = redecodes demo_parse s "page" /\
  current_raw demo_parse s' "page" = current_raw demo_parse s "page".
Proof.
  intros s s'.
  split; [exact demo_navigated_reachable|].
  exact (functional_update_spares_no_decode demo_parse demo_codecs s 0 next_page
           None _ s' "page" demo_navigated_reachable (run_eq _ _)).
Defined.
